(** * Prix AC+ price importer ([scripts/import_pdf.py]): a shallow embedding

    The importer matches every item of a product catalog to a row (or a
    window of page text) of a vendor price list, extracts the currency
    tokens of that text and writes them into the item's [appleCare]
    price fields.  This file embeds the pure core of the script
    ([normalize], [find_price_tokens], [choose_row], [search_in_text],
    [update_prices]) and the acceptance policy at the end of [main], and
    states the properties the specification gives for them.  The three
    extractors ([extract_tables], [extract_text_rows],
    [extract_text_blocks]) are embedded over the pages as [pdfplumber]
    returns them, and further properties of the code follow the
    properties of the specification.

    Python strings are sequences of Unicode code points; they are
    modelled as [list N].  The handful of facts about Unicode that the
    script takes from the Python runtime ([str.lower], [str.isspace],
    the classes behind [\d], [\s], [\w] and the case folding used by
    [re.IGNORECASE]) are gathered in the class [Unicode]: the general
    theorems hold for every such table, the concrete evaluations use the
    instance [latin_unicode], which agrees with CPython on Basic Latin. *)

From stdpp Require Import gmap list strings.
From Stdlib Require Import QArith.

Local Open Scope N_scope.

(** ** Strings as code point sequences *)

Abbreviation str := (list N).

(** Decoding of the UTF-8 bytes of a Rocq string literal into code points,
    so that the literals of the script can be written as they are. *)
Fixpoint utf8_decode (bs : list N) : str :=
  match bs with
  | [] => []
  | b0 :: t0 =>
      if b0 <? 128 then b0 :: utf8_decode t0
      else if b0 <? 224 then
        match t0 with
        | b1 :: t1 => ((b0 mod 32) * 64 + b1 mod 64) :: utf8_decode t1
        | [] => [b0]
        end
      else if b0 <? 240 then
        match t0 with
        | b1 :: b2 :: t2 =>
            ((b0 mod 16) * 4096 + (b1 mod 64) * 64 + b2 mod 64) :: utf8_decode t2
        | _ => b0 :: utf8_decode t0
        end
      else
        match t0 with
        | b1 :: b2 :: b3 :: t3 =>
            ((b0 mod 8) * 262144 + (b1 mod 64) * 4096 + (b2 mod 64) * 64 + b3 mod 64)
              :: utf8_decode t3
        | _ => b0 :: utf8_decode t0
        end
  end.

Fixpoint string_bytes (s : string) : list N :=
  match s with
  | EmptyString => []
  | String a s' => Ascii.N_of_ascii a :: string_bytes s'
  end.

(** [u "..."] is the Python string literal with that text. *)
Definition u (s : string) : str := utf8_decode (string_bytes s).

(** [s.replace(old, new)] for a one-character [old]. *)
Definition replace_char (old : N) (new : str) (s : str) : str :=
  flat_map (fun c => if c =? old then new else [c]) s.

(** [sep.join(parts)] *)
Fixpoint join (sep : str) (parts : list str) : str :=
  match parts with
  | [] => []
  | [p] => p
  | p :: ps => p ++ sep ++ join sep ps
  end.

(** [s.split(sep)] for a one-character [sep]: always at least one piece. *)
Fixpoint split_on (sep : N) (s : str) : list str :=
  match s with
  | [] => [[]]
  | c :: t =>
      if c =? sep then [] :: split_on sep t
      else match split_on sep t with
           | w :: ws => (c :: w) :: ws
           | [] => [[c]]
           end
  end.

Fixpoint is_prefix (p s : str) : bool :=
  match p, s with
  | [], _ => true
  | _ :: _, [] => false
  | a :: p', b :: s' => (a =? b) && is_prefix p' s'
  end.

(** [w in s] on strings: [w] occurs in [s] as a contiguous substring. *)
Fixpoint is_infix (w s : str) : bool :=
  is_prefix w s ||
  match s with
  | [] => false
  | _ :: s' => is_infix w s'
  end.

(** ** The Unicode tables of the runtime *)

Class Unicode := {
  (** [\d]: decimal digits (category Nd) *)
  isdigit : N -> bool;
  (** [\s], [str.isspace], the characters removed by [str.strip()] *)
  isspace : N -> bool;
  (** [str.isalnum]; [\w] is this or the underscore *)
  isalnum : N -> bool;
  (** [str.lower()] *)
  lower : str -> str;
  (** the code points [re.IGNORECASE] identifies with a given one,
      itself included *)
  case_variants : N -> list N
}.

Definition in_range (lo hi c : N) : bool := (lo <=? c) && (c <=? hi).

(** ASCII letters to lower case; U+0130 and U+212A are the two code points
    outside ASCII whose lower case contains an ASCII letter. *)
Definition latin_lower_char (c : N) : str :=
  if in_range 65 90 c then [c + 32]
  else if in_range 192 222 c && negb (c =? 215) then [c + 32]
  else if c =? 304 then [105; 775]
  else if c =? 8490 then [107]
  else [c].

Definition latin_isspace (c : N) : bool :=
  in_range 9 13 c || in_range 28 32 c || (c =? 133) || (c =? 160)
  || (c =? 5760) || in_range 8192 8202 c || (c =? 8232) || (c =? 8233)
  || (c =? 8239) || (c =? 8287) || (c =? 12288).

Definition latin_isalnum (c : N) : bool :=
  in_range 48 57 c || in_range 65 90 c || in_range 97 122 c
  || (c =? 170) || (c =? 178) || (c =? 179) || (c =? 181) || (c =? 185) || (c =? 186)
  || in_range 188 190 c
  || (in_range 192 255 c && negb (c =? 215) && negb (c =? 247)).

Definition latin_case_variants (c : N) : list N :=
  if in_range 65 90 c || in_range 97 122 c then
    let l := if c <? 97 then c + 32 else c in
    [l; l - 32] ++ (if l =? 105 then [304; 305] else if l =? 107 then [8490]
                    else if l =? 115 then [383] else [])
  else if (in_range 192 222 c || in_range 224 254 c)
          && negb (c =? 215) && negb (c =? 247) then
    let l := if c <? 224 then c + 32 else c in [l; l - 32]
  else if (c =? 304) || (c =? 305) then [c; 105; 73]
  else if c =? 8490 then [c; 107; 75]
  else if c =? 383 then [c; 115; 83]
  else [c].

(** The tables restricted to Basic Latin and Latin-1 (with the general
    punctuation spaces): exact on every string of the examples below. *)
#[export] Instance latin_unicode : Unicode := {|
  isdigit c := in_range 48 57 c;
  isspace := latin_isspace;
  isalnum := latin_isalnum;
  lower s := flat_map latin_lower_char s;
  case_variants := latin_case_variants
|}.

(** [s.strip()] *)
Fixpoint lstrip `{Unicode} (s : str) : str :=
  match s with
  | c :: t => if isspace c then lstrip t else s
  | [] => []
  end.

Definition strip `{Unicode} (s : str) : str :=
  reverse (lstrip (reverse (lstrip s))).

(** ** Regular expressions ([re]) *)

Inductive cset_item :=
| CChar (c : N)
| CRange (lo hi : N)
| CDigit | CNotDigit
| CSpace | CNotSpace
| CWord | CNotWord.

Inductive regex :=
| REmpty
| RChar (c : N)
| RSet (negated : bool) (items : list cset_item)
| RAny
| RCat (r1 r2 : regex)
| RAlt (r1 r2 : regex)
| RStar (r : regex)
| RPlus (r : regex)
| ROpt (r : regex)
| RGroup (n : nat) (r : regex)
| RWordB
| RNotAhead (r : regex).

(** A position in the subject: the character before it, the text from it
    on, and the groups captured so far (most recent first). *)
Record mstate := MState {
  ms_prev : option N;
  ms_rest : str;
  ms_groups : list (nat * str)
}.

Definition advance (st : mstate) : mstate :=
  match ms_rest st with
  | c :: t => MState (Some c) t (ms_groups st)
  | [] => st
  end.

Section Matcher.
Context `{Unicode}.

Definition is_word (c : N) : bool := isalnum c || (c =? 95).

Definition is_word_opt (c : option N) : bool :=
  match c with Some c => is_word c | None => false end.

Definition item_match (it : cset_item) (c : N) : bool :=
  match it with
  | CChar x => c =? x
  | CRange lo hi => in_range lo hi c
  | CDigit => isdigit c
  | CNotDigit => negb (isdigit c)
  | CSpace => isspace c
  | CNotSpace => negb (isspace c)
  | CWord => is_word c
  | CNotWord => negb (is_word c)
  end.

(** With [re.IGNORECASE] a character matches when one of its case
    variants does. *)
Definition variants (ic : bool) (c : N) : list N :=
  if ic then c :: case_variants c else [c].

Definition set_match (ic : bool) (negated : bool) (items : list cset_item) (c : N) : bool :=
  xorb negated
    (existsb (fun v => existsb (fun it => item_match it v) items) (variants ic c)).

Definition char_match (ic : bool) (x c : N) : bool :=
  existsb (fun v => v =? x) (variants ic c).

(** Greedy repetition: one more round of [step] as long as it consumes
    input, then the continuation; on failure the rounds are given back
    one by one. *)
Fixpoint iter_star (step : mstate -> (mstate -> option mstate) -> option mstate)
    (fuel : nat) (st : mstate) (k : mstate -> option mstate) : option mstate :=
  match fuel with
  | O => k st
  | S f =>
      match step st (fun st' =>
              if (length (ms_rest st') <? length (ms_rest st))%nat
              then iter_star step f st' k else None) with
      | Some r => Some r
      | None => k st
      end
  end.

(** The backtracking matcher of [re], in continuation-passing style:
    [rmatch ic r st k] matches [r] at [st] and hands every way of doing
    so to [k], in the priority order of the engine, until [k] accepts. *)
Fixpoint rmatch (ic : bool) (r : regex) (st : mstate)
    (k : mstate -> option mstate) {struct r} : option mstate :=
  match r with
  | REmpty => k st
  | RChar x =>
      match ms_rest st with
      | c :: _ => if char_match ic x c then k (advance st) else None
      | [] => None
      end
  | RSet negated items =>
      match ms_rest st with
      | c :: _ => if set_match ic negated items c then k (advance st) else None
      | [] => None
      end
  | RAny =>
      match ms_rest st with
      | c :: _ => if c =? 10 then None else k (advance st)
      | [] => None
      end
  | RCat r1 r2 => rmatch ic r1 st (fun st' => rmatch ic r2 st' k)
  | RAlt r1 r2 =>
      match rmatch ic r1 st k with
      | Some res => Some res
      | None => rmatch ic r2 st k
      end
  | RStar r1 =>
      iter_star (fun s k' => rmatch ic r1 s k') (length (ms_rest st)) st k
  | RPlus r1 =>
      rmatch ic r1 st (fun st' =>
        iter_star (fun s k' => rmatch ic r1 s k') (length (ms_rest st')) st' k)
  | ROpt r1 =>
      match rmatch ic r1 st k with
      | Some res => Some res
      | None => k st
      end
  | RGroup n r1 =>
      rmatch ic r1 st (fun st' =>
        k (MState (ms_prev st') (ms_rest st')
             ((n, take (length (ms_rest st) - length (ms_rest st')) (ms_rest st))
                :: ms_groups st')))
  | RWordB =>
      if xorb (is_word_opt (ms_prev st)) (is_word_opt (head (ms_rest st)))
      then k st else None
  | RNotAhead r1 =>
      match rmatch ic r1 st Some with
      | Some _ => None
      | None => k st
      end
  end.

End Matcher.

(** ** Compiling patterns ([re.compile])

    The pattern syntax the script uses: literals, [.], escapes ([\d \s \w
    \D \S \W \b] and escaped punctuation), character sets with ranges and
    negation, capturing groups, [(?:...)], the negative lookahead
    [(?!...)], alternation and the greedy quantifiers [* + ?].  The parser
    reads the pattern one character at a time; anything else is refused
    ([None] stands for [re.error] or for syntax outside this subset). *)

Inductive gkind := GTop | GCapture (n : nat) | GPlain | GNotAhead.

Inductive pmode :=
| PNormal
| PEscape
| PGroupOpen
| PGroupQ
| PSetOpen
| PSet (negated : bool) (items : list cset_item) (pending : option N)
| PSetDash (negated : bool) (items : list cset_item) (lo : N)
| PSetEscape (negated : bool) (items : list cset_item).

Record pstate := PState {
  p_mode : pmode;
  p_kind : gkind;
  p_alts : list regex;
  p_seq : list regex;
  p_quant : bool;
  p_outer : list (gkind * list regex * list regex);
  p_groups : nat
}.

(** Items and alternatives are collected last first. *)
Definition mk_seq (items : list regex) : regex :=
  match items with
  | [] => REmpty
  | r :: rest => fold_left (fun acc x => RCat x acc) rest r
  end.

Definition mk_alt (alts : list regex) : regex :=
  match alts with
  | [] => REmpty
  | r :: rest => fold_left (fun acc x => RAlt x acc) rest r
  end.

Definition close_body (st : pstate) : regex :=
  mk_alt (mk_seq (p_seq st) :: p_alts st).

Definition push_item (st : pstate) (r : regex) : pstate :=
  PState PNormal (p_kind st) (p_alts st) (r :: p_seq st) false (p_outer st) (p_groups st).

Definition set_mode (st : pstate) (m : pmode) : pstate :=
  PState m (p_kind st) (p_alts st) (p_seq st) (p_quant st) (p_outer st) (p_groups st).

Definition open_group (st : pstate) (k : gkind) (n : nat) : pstate :=
  PState PNormal k [] [] false ((p_kind st, p_alts st, p_seq st) :: p_outer st) n.

Definition is_ascii_alnum (c : N) : bool :=
  in_range 48 57 c || in_range 65 90 c || in_range 97 122 c.

(** The class escapes, shared by the top level and the sets. *)
Definition class_escape (c : N) : option cset_item :=
  if c =? 100 then Some CDigit else if c =? 68 then Some CNotDigit
  else if c =? 115 then Some CSpace else if c =? 83 then Some CNotSpace
  else if c =? 119 then Some CWord else if c =? 87 then Some CNotWord
  else None.

Definition quantify (st : pstate) (q : regex -> regex) : option pstate :=
  if p_quant st then None
  else match p_seq st with
       | [] => None
       | RWordB :: _ => None
       | r :: rest =>
           Some (PState PNormal (p_kind st) (p_alts st) (q r :: rest) true
                   (p_outer st) (p_groups st))
       end.

Definition pstep_normal (st : pstate) (c : N) : option pstate :=
  if c =? 92 then Some (set_mode st PEscape)
  else if c =? 40 then Some (set_mode st PGroupOpen)
  else if c =? 41 then
    match p_outer st with
    | [] => None
    | (k, alts, items) :: outer =>
        let body := close_body st in
        match p_kind st with
        | GTop => None
        | GCapture n =>
            Some (PState PNormal k alts (RGroup n body :: items) false outer (p_groups st))
        | GPlain =>
            Some (PState PNormal k alts (body :: items) false outer (p_groups st))
        | GNotAhead =>
            Some (PState PNormal k alts (RNotAhead body :: items) false outer (p_groups st))
        end
    end
  else if c =? 91 then Some (set_mode st PSetOpen)
  else if c =? 124 then
    Some (PState PNormal (p_kind st) (mk_seq (p_seq st) :: p_alts st) [] false
            (p_outer st) (p_groups st))
  else if c =? 42 then quantify st RStar
  else if c =? 43 then quantify st RPlus
  else if c =? 63 then quantify st ROpt
  else if c =? 46 then Some (push_item st RAny)
  else if (c =? 94) || (c =? 36) || (c =? 123) || (c =? 125) then None
  else Some (push_item st (RChar c)).

Definition commit (pending : option N) (items : list cset_item) : list cset_item :=
  match pending with
  | Some c => CChar c :: items
  | None => items
  end.

Definition pstep_set (st : pstate) (negated : bool) (items : list cset_item)
    (pending : option N) (c : N) : option pstate :=
  if c =? 93 then
    match items, pending with
    | [], None => Some (set_mode st (PSet negated [] (Some c)))
    | _, _ => Some (push_item st (RSet negated (rev (commit pending items))))
    end
  else if c =? 92 then Some (set_mode st (PSetEscape negated (commit pending items)))
  else if c =? 45 then
    match pending with
    | Some lo => Some (set_mode st (PSetDash negated items lo))
    | None => Some (set_mode st (PSet negated items (Some c)))
    end
  else Some (set_mode st (PSet negated (commit pending items) (Some c))).

Definition pstep (st : pstate) (c : N) : option pstate :=
  match p_mode st with
  | PNormal => pstep_normal st c
  | PEscape =>
      match class_escape c with
      | Some it => Some (push_item st (RSet false [it]))
      | None =>
          if c =? 98 then Some (push_item st RWordB)
          else if is_ascii_alnum c then None
          else Some (push_item st (RChar c))
      end
  | PGroupOpen =>
      if c =? 63 then Some (set_mode st PGroupQ)
      else pstep_normal (open_group st (GCapture (S (p_groups st))) (S (p_groups st))) c
  | PGroupQ =>
      if c =? 58 then Some (open_group st GPlain (p_groups st))
      else if c =? 33 then Some (open_group st GNotAhead (p_groups st))
      else None
  | PSetOpen =>
      if c =? 94 then Some (set_mode st (PSet true [] None))
      else pstep_set st false [] None c
  | PSet negated items pending => pstep_set st negated items pending c
  | PSetDash negated items lo =>
      if c =? 93 then
        Some (push_item st (RSet negated (rev (CChar 45 :: CChar lo :: items))))
      else if c =? 92 then None
      else if lo <=? c then Some (set_mode st (PSet negated (CRange lo c :: items) None))
      else None
  | PSetEscape negated items =>
      match class_escape c with
      | Some it => Some (set_mode st (PSet negated (it :: items) None))
      | None =>
          if is_ascii_alnum c then None
          else Some (set_mode st (PSet negated items (Some c)))
      end
  end.

Fixpoint parse_from (st : pstate) (p : str) : option regex :=
  match p with
  | [] =>
      match p_mode st, p_kind st, p_outer st with
      | PNormal, GTop, [] => Some (close_body st)
      | _, _, _ => None
      end
  | c :: t =>
      match pstep st c with
      | Some st' => parse_from st' t
      | None => None
      end
  end.

Definition re_compile (pattern : str) : option regex :=
  parse_from (PState PNormal GTop [] [] false [] 0) pattern.

(** ** Searching, [findall] and [sub] *)

Section Search.
Context `{Unicode}.

(** [regex.search]: the leftmost position where the pattern matches,
    with the skipped text, the matched text and the state at the end of
    the match.  [must_advance] refuses an empty match at the first
    position (the engine sets it after an empty match). *)
Fixpoint search_at (ic : bool) (r : regex) (must_advance : bool)
    (prev : option N) (s : str) : option (str * str * mstate) :=
  match rmatch ic r (MState prev s [])
          (fun st' => if must_advance && (length (ms_rest st') =? length s)%nat
                      then None else Some st') with
  | Some st' => Some ([], take (length s - length (ms_rest st')) s, st')
  | None =>
      match s with
      | [] => None
      | c :: t =>
          match search_at ic r false (Some c) t with
          | Some (pre, m, st') => Some (c :: pre, m, st')
          | None => None
          end
      end
  end.

(** The successive non-overlapping matches, left to right, each with the
    text skipped before it, and the text left after the last one. *)
Fixpoint scan (ic : bool) (r : regex) (fuel : nat) (must_advance : bool)
    (prev : option N) (s : str) : list (str * str * list (nat * str)) * str :=
  match fuel with
  | O => ([], s)
  | S f =>
      match search_at ic r must_advance prev s with
      | None => ([], s)
      | Some (pre, m, st') =>
          let '(ms, tail) :=
            scan ic r f (bool_decide (m = [])) (ms_prev st') (ms_rest st') in
          ((pre, m, ms_groups st') :: ms, tail)
      end
  end.

Definition scan_all (ic : bool) (r : regex) (s : str) :=
  scan ic r (2 * length s + 2) false None s.

(** [pattern.findall(s)] for a pattern without capturing groups: the
    matched texts. *)
Definition findall_re (r : regex) (s : str) : list str :=
  map (fun x => x.1.2) (scan_all false r s).1.

Inductive titem := TLit (c : N) | TGroup (n : nat).

(** Replacement templates: a backslash and a digit is a group reference,
    every other character stands for itself. *)
Fixpoint parse_template (t : str) : list titem :=
  match t with
  | [] => []
  | c :: t' =>
      match t' with
      | d :: t'' =>
          if (c =? 92) && in_range 49 57 d
          then TGroup (N.to_nat (d - 48)) :: parse_template t''
          else TLit c :: parse_template t'
      | [] => [TLit c]
      end
  end.

Fixpoint group_text (n : nat) (gs : list (nat * str)) : str :=
  match gs with
  | [] => []
  | (i, g) :: gs' => if (i =? n)%nat then g else group_text n gs'
  end.

Definition expand (tpl : list titem) (gs : list (nat * str)) : str :=
  flat_map (fun it => match it with
                      | TLit c => [c]
                      | TGroup n => group_text n gs
                      end) tpl.

Definition sub_re (r : regex) (tpl : list titem) (s : str) : str :=
  let '(ms, tail) := scan_all false r s in
  flat_map (fun x => x.1.1 ++ expand tpl x.2) ms ++ tail.

(** The module-level functions take the pattern as written.  A pattern
    the parser refuses matches nothing; [script_patterns_compile] below
    shows that it accepts every pattern of the script. *)
Definition findall (pattern : str) (s : str) : list str :=
  match re_compile pattern with
  | Some r => findall_re r s
  | None => []
  end.

Definition sub (pattern repl : str) (s : str) : str :=
  match re_compile pattern with
  | Some r => sub_re r (parse_template repl) s
  | None => s
  end.

(** [re.compile(pattern, flags).search(s)]: skipped text, matched text
    and the rest of [s]. *)
Definition search (pattern : str) (ic : bool) (s : str) : option (str * str * str) :=
  match re_compile pattern with
  | Some r =>
      match search_at ic r false None s with
      | Some (pre, m, st') => Some (pre, m, ms_rest st')
      | None => None
      end
  | None => None
  end.

(** ** The script *)

Definition PRICE_RE : str := u "\d+(?:[.,]\d+)?\s*€".
Definition RANGE_RE : str := u "\d+\s*[–-]\s*\d+\s*€".

Definition normalize (text : str) : str :=
  let text := lower text in
  let text := replace_char 8212 (u "-") (replace_char 8211 (u "-") text) in
  let text := sub (u "[^a-z0-9 ]+") (u " ") text in
  let text := strip (sub (u "\s+") (u " ") text) in
  let text := sub (u "\b([a-z])\s+([a-z])\b") (u "\1\2") text in
  let text := strip (sub (u "\s+") (u " ") text) in
  text.

Fixpoint add_new (tokens : list str) (ms : list str) : list str :=
  match ms with
  | [] => tokens
  | m :: ms' => add_new (if bool_decide (m ∈ tokens) then tokens else tokens ++ [m]) ms'
  end.

Definition find_price_tokens (text : str) : list str :=
  let tokens := [] in
  let tokens := tokens ++ findall RANGE_RE text in
  add_new tokens (findall PRICE_RE text).

End Search.

(** The alias table: item identifier to its patterns, most specific
    first. *)
Definition ALIASES : gmap str (list str) := list_to_map [
  (u "iphone-17-pro", [u "\biphone 17 pro\b"]);
  (u "iphone-17-pro-max", [u "\biphone 17 pro max\b"; u "\b17 pro max\b"]);
  (u "iphone-air", [u "\biphone air\b"]);
  (u "iphone-17", [u "\biphone 17, 16\b"; u "\biphone 17\b"]);
  (u "iphone-16", [u "\biphone 17, 16\b"; u "\biphone 16\b(?!\s*(e|plus))"]);
  (u "iphone-16-plus", [u "\biphone 16 plus\b"]);
  (u "iphone-16e", [u "\biphone 16e\b"]);
  (u "ipad-10-a16", [u "\bipad, ipad mini\b"; u "\bipad\b.*\ba16\b"; u "\bipad \(a16\)\b"]);
  (u "ipad-mini-a17-pro", [u "\bipad, ipad mini\b"; u "\bipad mini\b.*\ba17 pro\b"; u "\bipad mini \(a17 pro\)\b"]);
  (u "ipad-air-11", [u "\bipad air 11\b"; u "\bipad air 11\b.*\bm3\b"; u "\bipad air 11\b.*\bm2\b"]);
  (u "ipad-air-13", [u "\bipad air 13\b"; u "\bipad air 13\b.*\bm3\b"; u "\bipad air 13\b.*\bm2\b"]);
  (u "ipad-pro-11", [u "\bipad pro 11\b.*\bm5\b"; u "\bipad pro 11\b.*\bm4\b"]);
  (u "ipad-pro-13", [u "\bipad pro 13\b.*\bm5\b"; u "\bipad pro 13\b.*\bm4\b"]);
  (u "watch-se-3", [u "\bapple watch\b.*\bse\b"]);
  (u "watch-series-11", [u "\bapple watch\b.*\bseries\b.*\b11\b"]);
  (u "watch-ultra-3", [u "\bapple watch\b.*\bultra\b"]);
  (u "watch-hermes-11", [u "\bapple watch edition\b"; u "\bherm[eè]s\b.*\bultra\b"]);
  (u "watch-hermes-ultra-3", [u "\bapple watch edition\b"; u "\bherm[eè]s\b.*\bultra\b"]);
  (u "macbook-air-13", [u "\bmacbook air 13\b"]);
  (u "macbook-air-15", [u "\bmacbook air 15\b"]);
  (u "macbook-pro-14", [u "\bmacbook pro 14\b"]);
  (u "macbook-pro-16", [u "\bmacbook pro 16\b"]);
  (u "imac", [u "\bimac\b"]);
  (u "mac-mini", [u "\bmac mini\b"]);
  (u "mac-studio", [u "\bmac studio\b"]);
  (u "mac-pro", [u "\bmac pro\b"]);
  (u "studio-display", [u "\bstudio display\b"]);
  (u "pro-display-xdr", [u "\bpro display xdr\b"; u "\bpro display\b"]);
  (u "airpods-4", [u "\bairpods, airpods pro\b.*\b2e\b"; u "\bairpods\b"]);
  (u "airpods-4-anc", [u "\bairpods, airpods pro\b.*\b2e\b"; u "\bairpods\b"]);
  (u "airpods-pro-3", [u "\bairpods pro\b.*\b3e\b"; u "\bairpods pro\b.*\b3\b"]);
  (u "airpods-max", [u "\bairpods max\b"]);
  (u "appletv-4k", [u "\bapple tv\b"]);
  (u "homepod-mini", [u "\bhomepod mini\b"]);
  (u "homepod-2", [u "\bhomepod\b(?! mini)"]);
  (u "beats-studio-pro", [u "\bbeats\b"]);
  (u "beats-solo-4", [u "\bbeats\b"]);
  (u "beats-solo-buds", [u "\bbeats\b"]);
  (u "powerbeats-fit", [u "\bbeats\b"]);
  (u "powerbeats-pro-2", [u "\bbeats\b"]);
  (u "beats-studio-buds-plus", [u "\bbeats\b"]);
  (u "beats-flex", [u "\bbeats\b"]);
  (u "beats-pill", [u "\bbeats\b"])
].

(** ** Matching an item to a row ([choose_row]) *)

Section Matching.
Context `{Unicode}.

Definition nonempty {A} (l : list A) : bool :=
  match l with [] => false | _ :: _ => true end.

(** The inner loop of the alias branch: the first row, in document
    order, whose normalized text the pattern finds. *)
Fixpoint first_row (pattern : str) (rows : list (list str)) : option str :=
  match rows with
  | [] => None
  | row :: rows' =>
      let row_text := join (u " ") row in
      let row_norm := normalize row_text in
      if bool_decide (is_Some (search pattern false row_norm)) then Some row_text
      else first_row pattern rows'
  end.

(** The outer loop of the alias branch. *)
Fixpoint first_pattern (candidates : list str) (rows : list (list str)) : option str :=
  match candidates with
  | [] => None
  | pattern :: candidates' =>
      match first_row pattern rows with
      | Some row_text => Some row_text
      | None => first_pattern candidates' rows
      end
  end.

Definition score (target_words : list str) (row_norm : str) : nat :=
  length (filter (fun w => is_infix w row_norm = true) target_words).

(** The loop of the generic scorer, on its two variables. *)
Fixpoint best_row (target_words : list str) (rows : list (list str))
    (best : option str) (best_score : nat) : option str * nat :=
  match rows with
  | [] => (best, best_score)
  | row :: rows' =>
      let row_text := join (u " ") row in
      let row_norm := normalize row_text in
      if negb (nonempty row_norm) then best_row target_words rows' best best_score
      else
        let sc := score target_words row_norm in
        if (best_score <? sc)%nat
        then best_row target_words rows' (Some row_text) sc
        else best_row target_words rows' best best_score
  end.

Definition target_words_of (product_name : str) : list str :=
  let target := normalize product_name in
  filter (fun w => nonempty w = true) (split_on 32 target).

Definition choose_row (item_id product_name : str) (rows : list (list str)) : option str :=
  let candidates := default [] (ALIASES !! item_id) in
  if nonempty candidates then first_pattern candidates rows
  else
    let target_words := target_words_of product_name in
    let '(best, best_score) := best_row target_words rows None 0 in
    if (Nat.max 2 (length target_words / 2) <=? best_score)%nat then best else None.

(** ** Windowed search in the page text ([search_in_text]) *)

(** [re.escape]: a backslash before each of the special characters
    [()[]{}?*+-|^$\.&~#], the space and the ASCII control spaces. *)
Definition re_special (c : N) : bool :=
  existsb (N.eqb c)
    [40; 41; 91; 93; 123; 125; 63; 42; 43; 45; 124; 94; 36; 92; 46; 38; 126; 35;
     32; 9; 10; 13; 11; 12].

Definition re_escape (s : str) : str :=
  flat_map (fun c => if re_special c then [92; c] else [c]) s.

Fixpoint search_block (block : str) (patterns : list str) : option str :=
  match patterns with
  | [] => None
  | pattern :: patterns' =>
      let flexible := replace_char 32 (u "\W+") pattern in
      match search flexible true block with
      | None => search_block block patterns'
      | Some (_, _, after) =>
          let window := take 600 after in
          let prices := find_price_tokens window in
          if nonempty prices then Some window else search_block block patterns'
      end
  end.

Fixpoint search_blocks (patterns : list str) (text_blocks : list str) : option str :=
  match text_blocks with
  | [] => None
  | block :: blocks' =>
      match search_block block patterns with
      | Some window => Some window
      | None => search_blocks patterns blocks'
      end
  end.

Definition search_in_text (product_id product_name : str) (text_blocks : list str)
    : option str :=
  let patterns := default [] (ALIASES !! product_id) in
  let patterns := if nonempty patterns then patterns else [re_escape product_name] in
  search_blocks patterns text_blocks.

End Matching.

(** ** The catalog *)

(** The values found in an [appleCare] object. *)
Inductive jvalue := JNull | JStr (s : str) | JNum (n : Z).

(** An item: [None] is an absent key, as [dict.get] sees it; the keys the
    script never touches are kept in [item_rest]. *)
Record item := Item {
  item_id : option str;
  item_name : option str;
  item_appleCare : option (gmap str jvalue);
  item_rest : gmap str jvalue
}.

Record category := Category {
  cat_id : str;
  cat_items : option (list item);
  cat_rest : gmap str jvalue
}.

Record catalog := Catalog {
  categories : option (list category);
  lastUpdated : option str;
  sources : option (list str);
  catalog_rest : gmap str jvalue
}.

Inductive status := Updated | NoMatch | NotEnoughPrices.

#[export] Instance status_eq_dec : EqDecision status.
Proof. solve_decision. Defined.

(** An entry of the report: [{"id": ..., "status": ..., "row": ...}]. *)
Record update := Update {
  upd_id : str;
  upd_status : status;
  upd_row : option str
}.

Definition standardOneTime : str := u "standardOneTime".
Definition standardMonthly : str := u "standardMonthly".
Definition theftOneTime : str := u "theftOneTime".
Definition theftMonthly : str := u "theftMonthly".

(** [v is not None] for the result of [dict.get]. *)
Definition is_not_none (v : option jvalue) : bool :=
  match v with
  | None | Some JNull => false
  | Some _ => true
  end.

(** Truth value of an optional string: [None] and the empty string are
    false. *)
Definition truthy (t : option str) : bool :=
  match t with
  | Some (_ :: _) => true
  | _ => false
  end.

Section UpdatePrices.
Context `{Unicode}.

Definition get_id (it : item) : str := default [] (item_id it).
Definition get_name (it : item) : str := default [] (item_name it).
Definition get_appleCare (it : item) : gmap str jvalue := default ∅ (item_appleCare it).

(** Lines 194-197: the number of tokens the item needs. *)
Definition expected_count (it : item) : nat :=
  if is_not_none (get_appleCare it !! standardMonthly) then 2 else 1.

(** Lines 185-204: the text matched for the item and its tokens, after
    the fallback to the page text; [None] is the no-match outcome. *)
Definition final_match (rows : list (list str)) (text_blocks : list str) (it : item)
    : option (str * list str) :=
  let row_text := choose_row (get_id it) (get_name it) rows in
  let used_text_search := false in
  let '(row_text, used_text_search) :=
    if negb (truthy row_text) && nonempty text_blocks
    then (search_in_text (get_id it) (get_name it) text_blocks, true)
    else (row_text, used_text_search) in
  match row_text with
  | None | Some [] => None
  | Some row_text =>
      let prices := find_price_tokens row_text in
      let expected := expected_count it in
      if (length prices <? expected)%nat && negb used_text_search && nonempty text_blocks
      then
        match search_in_text (get_id it) (get_name it) text_blocks with
        | Some (c :: w) => Some (c :: w, find_price_tokens (c :: w))
        | _ => Some (row_text, prices)
        end
      else Some (row_text, prices)
  end.

(** [prices[i]]; every use is guarded by a length test. *)
Definition price_at (prices : list str) (i : nat) : jvalue :=
  JStr (default [] (prices !! i)).

(** Lines 210-218: the positional assignment of the tokens. *)
Definition assign_prices (applecare : gmap str jvalue) (expected : nat)
    (prices : list str) : gmap str jvalue :=
  let applecare :=
    if (expected =? 2)%nat
    then <[standardMonthly := price_at prices 1]>
           (<[standardOneTime := price_at prices 0]> applecare)
    else <[standardOneTime := price_at prices 0]> applecare in
  if (4 <=? length prices)%nat
  then <[theftMonthly := price_at prices 3]>
         (<[theftOneTime := price_at prices 2]> applecare)
  else applecare.

(** The body of the item loop: the item afterwards and its report entry. *)
Definition process_item (rows : list (list str)) (text_blocks : list str) (it : item)
    : item * update :=
  match final_match rows text_blocks it with
  | None => (it, Update (get_id it) NoMatch None)
  | Some (row_text, prices) =>
      let expected := expected_count it in
      if (length prices <? expected)%nat
      then (it, Update (get_id it) NotEnoughPrices (Some row_text))
      else
        let applecare := assign_prices (get_appleCare it) expected prices in
        (Item (item_id it) (item_name it) (Some applecare) (item_rest it),
         Update (get_id it) Updated (Some row_text))
  end.

(** The loop variables [matched], [total] and [updates]. *)
Record tally := Tally {
  matched : nat;
  total : nat;
  updates : list update
}.

Definition count (t : tally) (entry : update) : tally :=
  Tally (match upd_status entry with Updated => S (matched t) | _ => matched t end)
        (S (total t))
        (updates t ++ [entry]).

Fixpoint update_items (rows : list (list str)) (text_blocks : list str)
    (items : list item) (t : tally) : list item * tally :=
  match items with
  | [] => ([], t)
  | it :: items' =>
      let '(it', entry) := process_item rows text_blocks it in
      let '(rest, t') := update_items rows text_blocks items' (count t entry) in
      (it' :: rest, t')
  end.

Fixpoint update_categories (rows : list (list str)) (text_blocks : list str)
    (category_ids : gset str) (cats : list category) (t : tally)
    : list category * tally :=
  match cats with
  | [] => ([], t)
  | c :: cats' =>
      if bool_decide (cat_id c ∈ category_ids) then
        let '(items', t1) :=
          update_items rows text_blocks (default [] (cat_items c)) t in
        let '(rest, t2) := update_categories rows text_blocks category_ids cats' t1 in
        (Category (cat_id c)
                  (match cat_items c with
                   | Some _ => Some items'
                   | None => None
                   end)
                  (cat_rest c) :: rest, t2)
      else
        let '(rest, t2) := update_categories rows text_blocks category_ids cats' t in
        (c :: rest, t2)
  end.

(** [update_prices]: the catalog is changed in place, so the catalog
    afterwards is returned next to [(matched, total, updates)]. *)
Definition update_prices (cat : catalog) (rows : list (list str))
    (text_blocks : list str) (category_ids : gset str) : catalog * tally :=
  let '(cats', t) :=
    update_categories rows text_blocks category_ids
      (default [] (categories cat)) (Tally 0 0 []) in
  (Catalog (match categories cat with Some _ => Some cats' | None => None end)
           (lastUpdated cat) (sources cat) (catalog_rest cat), t).

End UpdatePrices.

Arguments normalize : simpl never.
Arguments find_price_tokens : simpl never.
Arguments choose_row : simpl never.
Arguments search_in_text : simpl never.
Arguments final_match : simpl never.
Arguments process_item : simpl never.

(** ** The run ([main]) *)

(** What the document extractor returns for one PDF. *)
Record document := Document {
  doc_tables : list (list str);
  doc_text_rows : list (list str);
  doc_blocks : list str
}.

(** The inputs of a run: the command line, the configuration file, the
    catalog read from [--output], and the two downloaded documents. *)
Record run := Run {
  pdfplumber_installed : bool;
  config_pdf_url : option str;
  config_mac_pdf_url : option str;
  force : bool;
  output_catalog : catalog;
  main_pdf : document;
  mac_pdf : document;
  today : str
}.

Record report := Report {
  rep_matched : nat;
  rep_total : nat;
  rep_ratio : Q;
  rep_main : list update;
  rep_mac : list update
}.

(** The effects of a run: the report file and the catalog file it wrote,
    if any, and the exit code. *)
Record outcome := Outcome {
  written_report : option report;
  written_catalog : option catalog;
  exit_code : Z
}.

Definition MAIN_CATEGORIES : gset str :=
  list_to_set [u "iphone"; u "ipad"; u "watch"; u "airpods"; u "beats"; u "appletv";
               u "homepod"].

Definition MAC_CATEGORIES : gset str := list_to_set [u "mac"].

(** [ratio = (matched / total) if total else 0], as an exact rational.
    The script divides in binary floating point; for counts below 2^53
    the quotient of [matched < total] stays below [1.0], so that the
    comparison with [1.0] has the same result. *)
Definition ratio_of (matched total : nat) : Q :=
  if (total =? 0)%nat then 0%Q else (Z.of_nat matched # Pos.of_nat total)%Q.

(** The threshold of [scripts/import_pdf.py]: [ratio < 1.0]. *)
Definition THRESHOLD : Q := 1%Q.

Definition below (q threshold : Q) : bool := negb (Qle_bool threshold q).

Section Main.
Context `{Unicode}.

Definition rows_of (d : document) : list (list str) :=
  if nonempty (doc_tables d) then doc_tables d else doc_text_rows d.

Definition main (r : run) : outcome :=
  if negb (pdfplumber_installed r) then Outcome None None 1
  else if negb (truthy (config_pdf_url r)) then Outcome None None 1
  else
    let pdf_url := default [] (config_pdf_url r) in
    let cat := output_catalog r in
    let '(cat, t_main) :=
      update_prices cat (rows_of (main_pdf r)) (doc_blocks (main_pdf r)) MAIN_CATEGORIES in
    let '(cat, t_mac) :=
      if truthy (config_mac_pdf_url r)
      then update_prices cat (rows_of (mac_pdf r)) (doc_blocks (mac_pdf r)) MAC_CATEGORIES
      else (cat, Tally 0 0 []) in
    let total := (total t_main + total t_mac)%nat in
    let matched := (matched t_main + matched t_mac)%nat in
    let ratio := ratio_of matched total in
    let rep := Report matched total ratio (updates t_main) (updates t_mac) in
    if below ratio THRESHOLD && negb (force r) then Outcome (Some rep) None 2
    else
      let srcs := pdf_url :: (if truthy (config_mac_pdf_url r)
                              then [default [] (config_mac_pdf_url r)] else []) in
      Outcome (Some rep)
              (Some (Catalog (categories cat) (Some (today r)) (Some srcs)
                       (catalog_rest cat))) 0.

End Main.

(** ** The document extractor ([extract_tables], [extract_text_rows],
    [extract_text_blocks])

    What [pdfplumber] gives for one page: the result of
    [page.extract_tables()], a list of tables, each a list of rows, each
    a list of cells, and the result of [page.extract_text()].  [None] is
    Python's [None], which the script guards against at every level. *)
Record pdf_page := PdfPage {
  page_tables : option (list (list (option (list (option str)))));
  page_text : option str
}.

(** [cell.strip() if cell else ""] *)
Definition clean_cell `{Unicode} (cell : option str) : str :=
  match cell with
  | Some (c :: t) => strip (c :: t)
  | _ => []
  end.

(** The characters [str.splitlines] breaks at. *)
Definition is_linebreak (c : N) : bool :=
  in_range 10 13 c || in_range 28 30 c || (c =? 133) || (c =? 8232) || (c =? 8233).

(** [s.splitlines()], with the line read so far, last character first:
    a carriage return and a line feed after it count as one break, and
    there is no empty line after a final break. *)
Fixpoint splitlines_from (line : str) (s : str) : list str :=
  match s with
  | [] => if nonempty line then [reverse line] else []
  | c :: t =>
      if is_linebreak c then
        reverse line ::
          match t with
          | d :: t' =>
              if (c =? 13) && (d =? 10) then splitlines_from [] t'
              else splitlines_from [] t
          | [] => splitlines_from [] t
          end
      else splitlines_from (c :: line) t
  end.

Definition splitlines (s : str) : list str := splitlines_from [] s.

Section Extractor.
Context `{Unicode}.

Definition extract_tables (pdf : list pdf_page) : list (list str) :=
  flat_map (fun page =>
    let page_tables := default [] (page_tables page) in
    flat_map (fun table =>
      flat_map (fun row =>
        match row with
        | None | Some [] => []
        | Some row =>
            let cells := map clean_cell row in
            if existsb nonempty cells then [cells] else []
        end) table) page_tables) pdf.

Definition extract_text_rows (pdf : list pdf_page) : list (list str) :=
  flat_map (fun page =>
    let text := default [] (page_text page) in
    flat_map (fun line =>
      let line := strip line in
      if nonempty line then [[line]] else []) (splitlines text)) pdf.

Definition extract_text_blocks (pdf : list pdf_page) : list str :=
  flat_map (fun page =>
    let text := default [] (page_text page) in
    if nonempty (strip text) then [text] else []) pdf.

(** The three extractions of one downloaded file, as [main] makes
    them. *)
Definition extract (pdf : list pdf_page) : document :=
  Document (extract_tables pdf) (extract_text_rows pdf) (extract_text_blocks pdf).

End Extractor.

(** ** Notions used in the statements *)

(** [w] is a piece of [s]. *)
Definition substring (w s : str) : Prop := exists a b, s = a ++ w ++ b.

(** The four price fields, in the order the tokens are assigned. *)
Definition PRICE_FIELDS : list str :=
  [standardOneTime; standardMonthly; theftOneTime; theftMonthly].

(** The items [update_prices] goes through, in its order. *)
Definition processed_items (category_ids : gset str) (cats : list category) : list item :=
  flat_map (fun c => if bool_decide (cat_id c ∈ category_ids)
                     then default [] (cat_items c) else []) cats.

(** The place of an item's entry in the report: after the entries of
    the chosen categories before category number [ci], entry number
    [j]. *)
Definition entry_index (category_ids : gset str) (cats : list category) (ci j : nat) : nat :=
  length (processed_items category_ids (take ci cats)) + j.

(** A category after the update. *)
Definition processed_category `{Unicode} (rows : list (list str)) (text_blocks : list str)
    (category_ids : gset str) (c : category) : category :=
  if bool_decide (cat_id c ∈ category_ids)
  then Category (cat_id c)
         (map (fun it => (process_item rows text_blocks it).1) <$> cat_items c)
         (cat_rest c)
  else c.

(** The tally after a list of report entries. *)
Definition tally_of (t : tally) (entries : list update) : tally :=
  Tally (matched t + length (filter (fun e => upd_status e = Updated) entries))
        (total t + length entries)
        (updates t ++ entries).

(** The test of the alias branch: the pattern is found in the normalized
    text of the row. *)
Definition row_matches `{Unicode} (pattern : str) (row : list str) : bool :=
  bool_decide (is_Some (search pattern false (normalize (join (u " ") row)))).

(** The score of a row for the generic branch. *)
Definition row_score `{Unicode} (target_words : list str) (row : list str) : nat :=
  score target_words (normalize (join (u " ") row)).

Section Relations.
Context `{Unicode}.

(** Every state handed to the continuation lies further right in the
    same subject. *)
Definition forwards (m : mstate -> (mstate -> option mstate) -> option mstate) : Prop :=
  forall st k res, m st k = Some res ->
    exists st', k st' = Some res /\ ms_rest st' `suffix_of` ms_rest st.

(** The result depends on the continuation at positions further right
    only. *)
Definition local_cont (m : mstate -> (mstate -> option mstate) -> option mstate) : Prop :=
  forall st k1 k2,
    (forall st', ms_rest st' `suffix_of` ms_rest st -> k1 st' = k2 st') ->
    m st k1 = m st k2.

End Relations.

(** The number of searches [scan] may need. *)
Definition scan_measure (must_advance : bool) (s : str) : nat :=
  2 * length s + (if must_advance then 0 else 1).

(** The parser is at the top level, outside every group, set and
    escape. *)
Definition at_top (st : pstate) : Prop :=
  p_mode st = PNormal /\ p_kind st = GTop /\ p_outer st = [].

(** A string that neither starts nor ends with whitespace. *)
Definition trimmed `{Unicode} (s : str) : Prop :=
  (forall c, head s = Some c -> isspace c = false) /\
  (forall c, last s = Some c -> isspace c = false).

(** ** The texts a pattern can match

    [lang ic r w]: the text [w] has the shape the pattern [r] asks for.
    What a pattern requires of the text around the match (the word
    boundary and the lookahead) is left out, so that every match is in
    [lang], not the converse. *)
Section Language.
Context `{Unicode}.

Fixpoint lang (ic : bool) (r : regex) (w : str) : Prop :=
  match r with
  | REmpty => w = []
  | RChar x => exists c, w = [c] /\ char_match ic x c = true
  | RSet negated items => exists c, w = [c] /\ set_match ic negated items c = true
  | RAny => exists c, w = [c] /\ c <> 10
  | RCat r1 r2 => exists w1 w2, w = w1 ++ w2 /\ lang ic r1 w1 /\ lang ic r2 w2
  | RAlt r1 r2 => lang ic r1 w \/ lang ic r2 w
  | RStar r1 => exists ws, w = concat ws /\ Forall (lang ic r1) ws
  | RPlus r1 => exists w1 ws, w = w1 ++ concat ws /\ lang ic r1 w1 /\ Forall (lang ic r1) ws
  | ROpt r1 => w = [] \/ lang ic r1 w
  | RGroup _ r1 => lang ic r1 w
  | RWordB => w = []
  | RNotAhead _ => w = []
  end.

(** A matcher step whose matches have the shape [D]. *)
Definition sound (D : str -> Prop)
    (m : mstate -> (mstate -> option mstate) -> option mstate) : Prop :=
  forall st k res, m st k = Some res ->
    exists st' w, ms_rest st = w ++ ms_rest st' /\ D w /\ k st' = Some res.

End Language.

(** ** The shape of a price token *)

Section TokenShape.
Context `{Unicode}.

(** One or more decimal digits. *)
Definition digits (w : str) : Prop :=
  w <> [] /\ Forall (fun c => isdigit c = true) w.

(** Whitespace, possibly none. *)
Definition blanks (w : str) : Prop := Forall (fun c => isspace c = true) w.

(** Digits, possibly a point or a comma and digits, whitespace, the
    euro sign. *)
Definition single_amount (tok : str) : Prop :=
  exists d frac sp,
    tok = d ++ frac ++ sp ++ [8364] /\ digits d /\
    (frac = [] \/ exists sep d2, frac = sep :: d2 /\ (sep = 46 \/ sep = 44) /\ digits d2) /\
    blanks sp.

(** Digits, a hyphen or an en dash, digits and the euro sign, with
    whitespace between them. *)
Definition range_amount (tok : str) : Prop :=
  exists d1 sp1 dash sp2 d2 sp3,
    tok = d1 ++ sp1 ++ [dash] ++ sp2 ++ d2 ++ sp3 ++ [8364] /\
    digits d1 /\ blanks sp1 /\ (dash = 8211 \/ dash = 45) /\ blanks sp2 /\
    digits d2 /\ blanks sp3.

End TokenShape.

(** ** The alphabet of normalized text *)

(** A lower-case ASCII letter, an ASCII digit or the space. *)
Definition norm_char (c : N) : Prop :=
  in_range 97 122 c || in_range 48 57 c || (c =? 32) = true.

(** The characters of the rest of the subject and of the groups
    captured so far all satisfy [P]. *)
Definition chars_ok (P : N -> Prop) (st : mstate) : Prop :=
  Forall P (ms_rest st) /\ Forall (fun g : nat * str => Forall P g.2) (ms_groups st).

(** The literal characters of a replacement template satisfy [P]. *)
Definition template_ok (P : N -> Prop) (tpl : list titem) : Prop :=
  Forall (fun it => match it with TLit c => P c | TGroup _ => True end) tpl.

(** A matcher step that keeps [chars_ok]. *)
Definition keeps (P : N -> Prop)
    (m : mstate -> (mstate -> option mstate) -> option mstate) : Prop :=
  forall st k res, chars_ok P st -> m st k = Some res ->
    exists st', chars_ok P st' /\ k st' = Some res.

(** Two spaces in a row somewhere in the string. *)
Fixpoint double_space (s : str) : bool :=
  match s with
  | [] => false
  | a :: t =>
      match t with
      | b :: _ => (a =? 32) && (b =? 32)
      | [] => false
      end || double_space t
  end.

(** ** The characters a pattern cannot do without *)

(** [requires x r]: every text matched by [r] has the literal [x] (or,
    when case is ignored, a case variant of it) somewhere. *)
Fixpoint requires (x : N) (r : regex) : bool :=
  match r with
  | RChar y => y =? x
  | RCat r1 r2 => requires x r1 || requires x r2
  | RAlt r1 r2 => requires x r1 && requires x r2
  | RPlus r1 => requires x r1
  | RGroup _ r1 => requires x r1
  | _ => false
  end.

(** The literal characters of a pattern. *)
Fixpoint literals (r : regex) : list N :=
  match r with
  | RChar y => [y]
  | RCat r1 r2 | RAlt r1 r2 => literals r1 ++ literals r2
  | RStar r1 | RPlus r1 | ROpt r1 | RGroup _ r1 | RNotAhead r1 => literals r1
  | _ => []
  end.

Definition norm_charb (c : N) : bool :=
  in_range 97 122 c || in_range 48 57 c || (c =? 32).

(** The pattern needs a character that [normalize] never lets
    through. *)
Definition needs_symbol (pattern : str) : bool :=
  match re_compile pattern with
  | Some r => existsb (fun x => requires x r && negb (norm_charb x)) (literals r)
  | None => false
  end.

(** What [re.escape] followed by the replacement of the spaces makes of
    a display name, item by item. *)
Definition escaped_items (name : str) : list regex :=
  flat_map (fun c => if c =? 32 then [RChar 92; RPlus (RChar 87)] else [RChar c]) name.

Section RunNotions.
Context `{Unicode}.

(** The two passes of [main], by name. *)
Definition main_pass (r : run) : catalog * tally :=
  update_prices (output_catalog r) (rows_of (main_pdf r)) (doc_blocks (main_pdf r))
    MAIN_CATEGORIES.

Definition mac_pass (r : run) : catalog * tally :=
  if truthy (config_mac_pdf_url r)
  then update_prices (main_pass r).1 (rows_of (mac_pdf r)) (doc_blocks (mac_pdf r))
         MAC_CATEGORIES
  else ((main_pass r).1, Tally 0 0 []).

Definition run_report (r : run) : report :=
  let m := (matched (main_pass r).2 + matched (mac_pass r).2)%nat in
  let n := (total (main_pass r).2 + total (mac_pass r).2)%nat in
  Report m n (ratio_of m n) (updates (main_pass r).2) (updates (mac_pass r).2).

End RunNotions.

(** The patterns [search_in_text] tries for an item. *)
Definition text_patterns (product_id product_name : str) : list str :=
  let patterns := default [] (ALIASES !! product_id) in
  if nonempty patterns then patterns else [re_escape product_name].

(** ** A sample price list and sample items *)

Definition sample_rows : list (list str) :=
  [ [u "iPhone 17 Pro Max"; u "269 €"; u "13,49 €"; u "339 €"; u "16,99 €"];
    [u "iPhone Air"; u "229 €"];
    [u "17 Pro Max"; u "279 €"];
    [u "Apple Vision Pro"; u "549 € ou 27,49 €/mois"; u "649 €"; u "32,49 €"] ].

Definition sample_item (id name : string) (applecare : option (gmap str jvalue)) : item :=
  Item (Some (u id)) (Some (u name)) applecare ∅.

(** Two tokens required, four found. *)
Definition item_pro_max : item :=
  sample_item "iphone-17-pro-max" "iPhone 17 Pro Max"
    (Some {[ standardOneTime := JStr (u "259 €"); standardMonthly := JStr (u "12,99 €") ]}).

(** One token required, one found. *)
Definition item_air : item := sample_item "iphone-air" "iPhone Air" None.

(** Two tokens required, one found. *)
Definition item_air_monthly : item :=
  sample_item "iphone-air" "iPhone Air" (Some {[ standardMonthly := JStr (u "11,49 €") ]}).

(** No alias entry, one token required, four found. *)
Definition item_vision : item := sample_item "vision-pro" "Apple Vision Pro" None.

Definition sample_catalog : catalog :=
  Catalog (Some [Category (u "iphone") (Some [item_pro_max; item_air; item_air_monthly]) ∅;
                 Category (u "vision") (Some [item_vision]) ∅])
          None None ∅.

Definition sample_run (forced : bool) : run :=
  Run true (Some (u "https://example.org/prices.pdf")) None forced sample_catalog
      (Document sample_rows [] []) (Document [] [] []) (u "2026-01-01").

(** The first category of the sample catalog. *)
Definition sample_iphone : category :=
  Category (u "iphone") (Some [item_pro_max; item_air; item_air_monthly]) ∅.

(** The second category of the sample catalog. *)
Definition sample_vision : category := Category (u "vision") (Some [item_vision]) ∅.

(** A file of two pages, and pages without text or with blank text
    only. *)
Definition sample_pdf : list pdf_page :=
  [ PdfPage (Some [[Some [Some (u "  iPhone Air "); None; Some (u "229 €")];
                    Some [None; Some (u "   ")];
                    None;
                    Some []]])
            (Some (u "Tarifs AppleCare+" ++ [10] ++ u "  iPhone Air   229 €" ++ [10]));
    PdfPage None None ].

Definition blank_pdf : list pdf_page :=
  [ PdfPage None (Some (u "   ")); PdfPage (Some [[None; Some [None; Some (u " ")]]]) None ].

(** * Properties *)

(** ** The matcher consumes a prefix of the subject *)

Section MatcherFacts.
Context `{Unicode}.

Lemma advance_suffix st : ms_rest (advance st) `suffix_of` ms_rest st.
Proof.
  unfold advance. destruct (ms_rest st) as [|c t] eqn:E; simpl.
  - by rewrite E.
  - by apply suffix_cons_r.
Qed.

Lemma iter_star_forwards step fuel :
  forwards step -> forwards (iter_star step fuel).
Proof.
  intros Hstep. induction fuel as [|f IH]; intros st k res; simpl.
  - intros Hk. exists st. split; [done | reflexivity].
  - destruct (step st _) as [r0|] eqn:E.
    + intros [= ->]. apply Hstep in E as (st1 & Hst1 & Hsuf).
      destruct (_ <? _)%nat; [|done].
      apply IH in Hst1 as (st2 & Hk & Hsuf2).
      exists st2. split; [done | by etrans].
    + intros Hk. exists st. split; [done | reflexivity].
Qed.

Lemma rmatch_forwards ic r : forwards (rmatch ic r).
Proof.
  induction r as [|x|negated items| |r1 IH1 r2 IH2|r1 IH1 r2 IH2|r1 IH1|r1 IH1|r1 IH1
                 |n r1 IH1| |r1 IH1]; intros st k res; simpl.
  - intros Hk. exists st. split; [done | reflexivity].
  - destruct (ms_rest st) as [|c t] eqn:E; [done|].
    destruct (char_match _ _ _); [|done].
    intros Hk. exists (advance st). split; [done|].
    rewrite <- E. apply advance_suffix.
  - destruct (ms_rest st) as [|c t] eqn:E; [done|].
    destruct (set_match _ _ _ _); [|done].
    intros Hk. exists (advance st). split; [done|].
    rewrite <- E. apply advance_suffix.
  - destruct (ms_rest st) as [|c t] eqn:E; [done|].
    destruct (c =? 10); [done|].
    intros Hk. exists (advance st). split; [done|].
    rewrite <- E. apply advance_suffix.
  - intros Hm. apply IH1 in Hm as (st1 & Hm & Hs1).
    apply IH2 in Hm as (st2 & Hk & Hs2).
    exists st2. split; [done | by etrans].
  - destruct (rmatch ic r1 st k) as [r0|] eqn:E.
    + intros [= ->]. by apply IH1.
    + apply IH2.
  - apply iter_star_forwards. intros s k'. apply IH1.
  - intros Hm. apply IH1 in Hm as (st1 & Hm & Hs1).
    apply iter_star_forwards in Hm as (st2 & Hk & Hs2); [|intros s k'; apply IH1].
    exists st2. split; [done | by etrans].
  - destruct (rmatch ic r1 st k) as [r0|] eqn:E.
    + intros [= ->]. by apply IH1.
    + intros Hk. exists st. split; [done | reflexivity].
  - intros Hm. apply IH1 in Hm as (st1 & Hk & Hs1).
    eexists. split; [exact Hk | exact Hs1].
  - destruct (xorb _ _); [|done].
    intros Hk. exists st. split; [done | reflexivity].
  - destruct (rmatch ic r1 st Some); [done|].
    intros Hk. exists st. split; [done | reflexivity].
Qed.

Lemma suffix_take_split (s rest : str) :
  rest `suffix_of` s -> s = take (length s - length rest) s ++ rest.
Proof.
  intros [k ->]. rewrite length_app.
  replace (length k + length rest - length rest)%nat with (length k) by lia.
  by rewrite take_app_length.
Qed.

(** A successful search splits the subject into the skipped text, the
    match and the rest. *)
Lemma search_at_split ic r ma prev s pre m st' :
  search_at ic r ma prev s = Some (pre, m, st') ->
  s = pre ++ m ++ ms_rest st'.
Proof.
  assert (Hhere : forall s0 prev0 ma0 r0,
    rmatch ic r (MState prev0 s0 [])
      (fun st1 => if ma0 && (length (ms_rest st1) =? length s0)%nat
                  then None else Some st1) = Some r0 ->
    s0 = take (length s0 - length (ms_rest r0)) s0 ++ ms_rest r0).
  { intros s0 prev0 ma0 r0 E. apply rmatch_forwards in E as (st1 & Hk & Hs).
    simpl in Hs. destruct (_ && _); [done|]. injection Hk as ->.
    by apply suffix_take_split. }
  revert ma prev pre. induction s as [|c t IH]; intros ma prev pre.
  - cbn [search_at]. destruct (rmatch _ _ _ _) as [r0|] eqn:E; [|done].
    intros [= <- <- <-]. by apply Hhere in E.
  - cbn [search_at]. destruct (rmatch _ _ _ _) as [r0|] eqn:E.
    + intros [= <- <- <-]. by apply Hhere in E.
    + destruct (search_at ic r false (Some c) t) as [[[pre' m'] st1]|] eqn:E1; [|done].
      intros [= <- <- <-]. simpl. f_equal. by eapply IH.
Qed.

Lemma scan_substring ic r fuel ma prev s x :
  x ∈ (scan ic r fuel ma prev s).1 -> substring x.1.2 s.
Proof.
  revert ma prev s. induction fuel as [|f IH]; intros ma prev s; simpl.
  - by intros ?%elem_of_nil.
  - destruct (search_at _ _ _ _ _) as [[[pre m] st']|] eqn:E; simpl.
    + apply search_at_split in E.
      destruct (scan ic r f _ _ _) as [ms tl] eqn:E2. simpl.
      intros [->|Hin]%elem_of_cons; simpl.
      * exists pre, (ms_rest st'). exact E.
      * specialize (IH (bool_decide (m = [])) (ms_prev st') (ms_rest st')).
        rewrite E2 in IH. destruct (IH Hin) as (a & b & Hab).
        exists (pre ++ m ++ a), b. rewrite E, Hab. by rewrite <- !app_assoc.
    + by intros ?%elem_of_nil.
Qed.

(** Every string returned by [findall] is a piece of the subject. *)
Lemma findall_substring pattern s m :
  m ∈ findall pattern s -> substring m s.
Proof.
  unfold findall. destruct (re_compile pattern) as [r|]; [|by intros ?%elem_of_nil].
  unfold findall_re. intros (x & -> & Hx)%list_elem_of_fmap.
  by eapply scan_substring.
Qed.

End MatcherFacts.

(** ** The fuel of the matcher is enough *)

Section Fuel.
Context `{Unicode}.

Lemma iter_star_local step fuel :
  local_cont step -> local_cont (iter_star step fuel).
Proof.
  intros Hstep. induction fuel as [|f IH]; intros st k1 k2 Hk; cbn [iter_star].
  - apply Hk. reflexivity.
  - rewrite (Hstep st _ (fun st' =>
               if (length (ms_rest st') <? length (ms_rest st))%nat
               then iter_star step f st' k2 else None)).
    + rewrite (Hk st); [done | reflexivity].
    + intros st' Hsuf. destruct (_ <? _)%nat; [|done].
      apply IH. intros st'' Hsuf'. apply Hk. by etrans.
Qed.

Lemma rmatch_local ic r : local_cont (rmatch ic r).
Proof.
  induction r as [|x|negated items| |r1 IH1 r2 IH2|r1 IH1 r2 IH2|r1 IH1|r1 IH1|r1 IH1
                 |n r1 IH1| |r1 IH1]; intros st k1 k2 Hk; cbn [rmatch].
  - apply Hk. reflexivity.
  - destruct (ms_rest st) as [|c t] eqn:E; [done|].
    destruct (char_match _ _ _); [|done]. apply Hk. rewrite <- E. apply advance_suffix.
  - destruct (ms_rest st) as [|c t] eqn:E; [done|].
    destruct (set_match _ _ _ _); [|done]. apply Hk. rewrite <- E. apply advance_suffix.
  - destruct (ms_rest st) as [|c t] eqn:E; [done|].
    destruct (c =? 10); [done|]. apply Hk. rewrite <- E. apply advance_suffix.
  - apply IH1. intros st' Hsuf. apply IH2. intros st'' Hsuf'. apply Hk. by etrans.
  - rewrite (IH1 st k1 k2 Hk), (IH2 st k1 k2 Hk). done.
  - apply iter_star_local; [|done]. intros s ka kb. apply IH1.
  - apply IH1. intros st' Hsuf. apply iter_star_local.
    + intros s ka kb. apply IH1.
    + intros st'' Hsuf'. apply Hk. by etrans.
  - rewrite (IH1 st k1 k2 Hk). rewrite (Hk st); [done | reflexivity].
  - apply IH1. intros st' Hsuf. by apply Hk.
  - destruct (xorb _ _); [|done]. apply Hk. reflexivity.
  - destruct (rmatch ic r1 st Some); [done|]. apply Hk. reflexivity.
Qed.

(** A repetition never needs more rounds than there are characters
    left. *)
Lemma iter_star_fuel step n st k :
  local_cont step -> forwards step ->
  iter_star step (length (ms_rest st) + n) st k
  = iter_star step (length (ms_rest st)) st k.
Proof.
  intros Hloc Hfw.
  remember (length (ms_rest st)) as len eqn:Hlen.
  revert n st k Hlen. induction len as [len IH] using lt_wf_ind. intros n st k Hlen.
  destruct n as [|n]; [by rewrite Nat.add_0_r|].
  assert (Hnone : forall k', (forall st', ms_rest st' `suffix_of` ms_rest st ->
                                k' st' = None) -> step st k' = None).
  { intros k' Hk'. destruct (step st k') as [res|] eqn:E; [|done].
    apply Hfw in E as (st' & Hk1 & Hsuf). by rewrite Hk' in Hk1. }
  destruct len as [|len'].
  - cbn [Nat.add iter_star]. rewrite Hnone; [done|].
    intros st' Hsuf. rewrite <- Hlen.
    by destruct (length (ms_rest st') <? 0)%nat eqn:E; [apply Nat.ltb_lt in E; lia|].
  - replace (S len' + S n)%nat with (S (len' + S n)) by lia. cbn [iter_star].
    rewrite (Hloc st _ (fun st' =>
               if (length (ms_rest st') <? length (ms_rest st))%nat
               then iter_star step len' st' k else None)); [done|].
    intros st' Hsuf. destruct (_ <? _)%nat eqn:Hlt; [|done].
    apply Nat.ltb_lt in Hlt. rewrite <- Hlen in Hlt.
    assert (Hle : (length (ms_rest st') <= len')%nat) by lia.
    assert (Hfuel : forall j, (length (ms_rest st') <= j)%nat ->
              iter_star step j st' k = iter_star step (length (ms_rest st')) st' k).
    { intros j Hj.
      replace j with (length (ms_rest st') + (j - length (ms_rest st')))%nat by lia.
      apply (IH (length (ms_rest st'))); [lia | done]. }
    rewrite (Hfuel (len' + S n)%nat) by lia. by rewrite (Hfuel len') by lia.
Qed.

(** After an empty match the next one takes at least one character of
    the subject, skipped or matched. *)
Lemma search_at_advances ic r prev s pre m st' :
  search_at ic r true prev s = Some (pre, m, st') ->
  (length (ms_rest st') < length s)%nat.
Proof.
  intros Hs. pose proof (search_at_split _ _ _ _ _ _ _ _ Hs) as Hsplit.
  destruct s as [|c t]; cbn [search_at] in Hs.
  - destruct (rmatch _ _ _ _) as [r0|] eqn:E; [|done].
    apply rmatch_forwards in E as (st1 & Hk & Hsuf). cbn [ms_rest] in *.
    cbn [andb] in Hk. destruct (_ =? _)%nat eqn:El; [done|].
    apply Nat.eqb_neq in El. apply suffix_length in Hsuf. cbn [length] in *. lia.
  - destruct (rmatch _ _ _ _) as [r0|] eqn:E.
    + injection Hs as <- <- <-.
      apply rmatch_forwards in E as (st1 & Hk & Hsuf). cbn [ms_rest] in *.
      cbn [andb] in Hk. destruct (_ =? _)%nat eqn:El; [done|].
      injection Hk as ->.
      apply Nat.eqb_neq in El. apply suffix_length in Hsuf. lia.
    + destruct (search_at ic r false (Some c) t) as [[[pre' m'] st1]|]; [|done].
      injection Hs as <- <- <-. rewrite Hsplit. cbn [app length].
      rewrite !length_app. lia.
Qed.

Lemma scan_fuel ic r fuel1 fuel2 ma prev s :
  (scan_measure ma s < fuel1)%nat -> (scan_measure ma s < fuel2)%nat ->
  scan ic r fuel1 ma prev s = scan ic r fuel2 ma prev s.
Proof.
  revert fuel2 ma prev s. induction fuel1 as [|f1 IH]; intros fuel2 ma prev s H1 H2;
    [lia|].
  destruct fuel2 as [|f2]; [lia|]. cbn [scan].
  destruct (search_at ic r ma prev s) as [[[pre m] st']|] eqn:Hs; [|done].
  pose proof (search_at_split _ _ _ _ _ _ _ _ Hs) as Hsplit.
  assert (Hlen : length s = (length pre + length m + length (ms_rest st'))%nat).
  { rewrite Hsplit at 1. rewrite !length_app. lia. }
  assert (Hdec : (scan_measure (bool_decide (m = [])) (ms_rest st')
                  < scan_measure ma s)%nat).
  { unfold scan_measure. case_bool_decide as Hm.
    - destruct ma.
      + apply search_at_advances in Hs. lia.
      + lia.
    - destruct m as [|c m]; [done|]. cbn [length] in Hlen. destruct ma; lia. }
  rewrite (IH f2); [done | lia | lia].
Qed.

(** [scan_all] gives [scan] as much fuel as it can use. *)
Lemma scan_all_fuel ic r n prev s :
  scan ic r (2 * length s + 2 + n) false prev s = scan ic r (2 * length s + 2) false prev s.
Proof. apply scan_fuel; unfold scan_measure; lia. Qed.

End Fuel.

(** ** The price fields *)

Lemma price_fields_distinct : NoDup PRICE_FIELDS.
Proof. apply (bool_decide_unpack _). by vm_compute. Qed.

Ltac field_neq := let E := fresh in intros E; vm_compute in E; discriminate E.

Lemma oneTime_monthly : standardOneTime <> standardMonthly. Proof. field_neq. Qed.
Lemma oneTime_theftOneTime : standardOneTime <> theftOneTime. Proof. field_neq. Qed.
Lemma oneTime_theftMonthly : standardOneTime <> theftMonthly. Proof. field_neq. Qed.
Lemma monthly_theftOneTime : standardMonthly <> theftOneTime. Proof. field_neq. Qed.
Lemma monthly_theftMonthly : standardMonthly <> theftMonthly. Proof. field_neq. Qed.
Lemma theftOneTime_theftMonthly : theftOneTime <> theftMonthly. Proof. field_neq. Qed.

(** From here on the field names are used as names only. *)
Opaque standardOneTime standardMonthly theftOneTime theftMonthly.

Section AssignFacts.
Context `{Unicode}.

Lemma price_at_lookup prices i tok :
  prices !! i = Some tok -> price_at prices i = JStr tok.
Proof. unfold price_at. by intros ->. Qed.

Lemma price_at_fmap prices i :
  (i < length prices)%nat -> Some (price_at prices i) = JStr <$> prices !! i.
Proof.
  intros Hi. destruct (lookup_lt_is_Some_2 prices i Hi) as [tok Htok].
  by rewrite (price_at_lookup _ _ _ Htok), Htok.
Qed.

(** What [assign_prices] leaves at each key. *)
Lemma assign_prices_lookup ac expected prices key :
  assign_prices ac expected prices !! key =
    if bool_decide (key = theftMonthly) && (4 <=? length prices)%nat
    then Some (price_at prices 3)
    else if bool_decide (key = theftOneTime) && (4 <=? length prices)%nat
    then Some (price_at prices 2)
    else if bool_decide (key = standardMonthly) && (expected =? 2)%nat
    then Some (price_at prices 1)
    else if bool_decide (key = standardOneTime)
    then Some (price_at prices 0)
    else ac !! key.
Proof.
  unfold assign_prices.
  pose proof oneTime_monthly. pose proof oneTime_theftOneTime.
  pose proof oneTime_theftMonthly. pose proof monthly_theftOneTime.
  pose proof monthly_theftMonthly. pose proof theftOneTime_theftMonthly.
  destruct (4 <=? length prices)%nat, (expected =? 2)%nat;
    rewrite ?andb_true_r, ?andb_false_r; rewrite !lookup_insert;
    repeat case_decide; repeat case_bool_decide; congruence.
Qed.

Lemma expected_count_cases it :
  expected_count it = 1%nat \/ expected_count it = 2%nat.
Proof. unfold expected_count. destruct (is_not_none _); auto. Qed.

(** The tokens of a matched text always come from [find_price_tokens]. *)
Lemma final_match_prices rows text_blocks it text prices :
  final_match rows text_blocks it = Some (text, prices) ->
  prices = find_price_tokens text.
Proof.
  unfold final_match.
  destruct (negb (truthy (choose_row _ _ rows)) && nonempty text_blocks).
  - destruct (search_in_text _ _ _) as [[|c w]|]; try done.
    rewrite andb_false_r. simpl. by intros [= <- <-].
  - destruct (choose_row _ _ _) as [[|c w]|]; try done.
    destruct (_ && _ && _).
    + destruct (search_in_text _ _ _) as [[|c' w']|]; by intros [= <- <-].
    + by intros [= <- <-].
Qed.

End AssignFacts.

(** ** Field assignment ([update_prices], lines 193-222) *)

Section FieldAssignment.
Context `{Unicode}.

(** The body of the item loop, for an item with a matched text: the
    required number of tokens, and what is written with enough tokens
    and with too few. *)
Lemma process_item_required_count rows text_blocks it text prices :
  final_match rows text_blocks it = Some (text, prices) ->
  let expected := expected_count it in
  let it' := (process_item rows text_blocks it).1 in
  let entry := (process_item rows text_blocks it).2 in
  expected = (if is_not_none (get_appleCare it !! standardMonthly) then 2 else 1)%nat /\
  ((expected <= length prices)%nat ->
     upd_status entry = Updated /\
     is_Some (prices !! 0%nat) /\
     get_appleCare it' !! standardOneTime = JStr <$> prices !! 0%nat /\
     (expected = 2%nat ->
        is_Some (prices !! 1%nat) /\
        get_appleCare it' !! standardMonthly = JStr <$> prices !! 1%nat)) /\
  ((length prices < expected)%nat ->
     upd_status entry = NotEnoughPrices /\ it' = it).
Proof.
  intros Hfm expected it' entry. subst it' entry. unfold process_item. rewrite Hfm.
  fold expected. split; [done|].
  assert (Hexp : expected = 1%nat \/ expected = 2%nat) by apply expected_count_cases.
  split.
  - intros Hlen. rewrite (proj2 (Nat.ltb_ge _ _) Hlen). simpl.
    split; [done|]. split; [apply lookup_lt_is_Some_2; lia|].
    unfold get_appleCare at 1. simpl. split.
    + rewrite assign_prices_lookup.
      rewrite (bool_decide_eq_false_2 (standardOneTime = theftMonthly))
        by apply oneTime_theftMonthly.
      rewrite (bool_decide_eq_false_2 (standardOneTime = theftOneTime))
        by apply oneTime_theftOneTime.
      rewrite (bool_decide_eq_false_2 (standardOneTime = standardMonthly))
        by apply oneTime_monthly.
      rewrite bool_decide_eq_true_2 by done. simpl.
      apply price_at_fmap. lia.
    + intros E2. split; [apply lookup_lt_is_Some_2; lia|].
      unfold get_appleCare at 1. simpl. rewrite assign_prices_lookup.
      rewrite (bool_decide_eq_false_2 (standardMonthly = theftMonthly))
        by apply monthly_theftMonthly.
      rewrite (bool_decide_eq_false_2 (standardMonthly = theftOneTime))
        by apply monthly_theftOneTime.
      rewrite bool_decide_eq_true_2 by done. rewrite E2. simpl.
      apply price_at_fmap. lia.
  - intros Hlen. by rewrite (proj2 (Nat.ltb_lt _ _) Hlen).
Qed.

(** The body of the item loop with four tokens or more. *)
Lemma process_item_premium_tier rows text_blocks it text prices :
  final_match rows text_blocks it = Some (text, prices) ->
  (4 <= length prices)%nat ->
  let it' := (process_item rows text_blocks it).1 in
  upd_status (process_item rows text_blocks it).2 = Updated /\
  is_Some (prices !! 2%nat) /\ is_Some (prices !! 3%nat) /\
  get_appleCare it' !! theftOneTime = JStr <$> prices !! 2%nat /\
  get_appleCare it' !! theftMonthly = JStr <$> prices !! 3%nat.
Proof.
  intros Hfm Hlen it'. subst it'. unfold process_item. rewrite Hfm.
  assert (Hexp : expected_count it = 1%nat \/ expected_count it = 2%nat)
    by apply expected_count_cases.
  assert (Hge : (length prices <? expected_count it)%nat = false)
    by (apply Nat.ltb_ge; lia).
  rewrite Hge. simpl. split; [done|].
  split; [apply lookup_lt_is_Some_2; lia|].
  split; [apply lookup_lt_is_Some_2; lia|].
  unfold get_appleCare. simpl. rewrite !assign_prices_lookup.
  rewrite (proj2 (Nat.leb_le _ _) Hlen).
  rewrite (bool_decide_eq_false_2 (theftOneTime = theftMonthly))
    by apply theftOneTime_theftMonthly.
  rewrite !bool_decide_eq_true_2 by done. simpl.
  split; apply price_at_fmap; lia.
Qed.

End FieldAssignment.

(** ** The token extractor ([find_price_tokens]) *)

Section Tokens.
Context `{Unicode}.

(** The loop that appends the single amounts: what it adds is a
    duplicate-free selection of the matches, in their order, made of the
    matches that were not in the list before. *)
Lemma add_new_spec (tokens ms : list str) :
  exists new,
    add_new tokens ms = tokens ++ new /\
    NoDup new /\
    new `sublist_of` ms /\
    (forall x, x ∈ new -> x ∉ tokens) /\
    (forall x, x ∈ ms -> x ∈ tokens \/ x ∈ new).
Proof.
  revert tokens. induction ms as [|m ms IH]; intros tokens; simpl.
  - exists []. rewrite app_nil_r. repeat split; try done.
    + constructor.
    + by intros x ?%elem_of_nil.
    + by intros x ?%elem_of_nil.
  - case_bool_decide as Hm.
    + destruct (IH tokens) as (new & E & Hnd & Hsub & Hnew & Hall).
      exists new. repeat split; try done.
      * by apply sublist_cons.
      * intros x [->|Hx]%elem_of_cons; auto.
    + destruct (IH (tokens ++ [m])) as (new & E & Hnd & Hsub & Hnew & Hall).
      exists (m :: new). repeat split.
      * by rewrite E, <- app_assoc.
      * constructor; [|done]. intros Hin. apply (Hnew _ Hin). set_solver.
      * by apply sublist_skip.
      * intros x [->|Hx]%elem_of_cons; [done|].
        intros Hin. apply (Hnew _ Hx). set_solver.
      * intros x [->|Hx]%elem_of_cons; [right; set_solver|].
        destruct (Hall _ Hx) as [Hx'|Hx']; [|right; by apply elem_of_cons; right].
        apply elem_of_app in Hx'. destruct Hx' as [Hx'|Hx']; [by left|].
        right. apply list_elem_of_singleton in Hx'. subst x. by apply elem_of_cons; left.
Qed.

(** The shape of the token list: the range matches as [findall] returns
    them, then the single amounts that are new, each once. *)
Lemma find_price_tokens_shape text :
  exists singles,
    find_price_tokens text = findall RANGE_RE text ++ singles /\
    NoDup singles /\
    singles `sublist_of` findall PRICE_RE text /\
    (forall x, x ∈ singles -> x ∉ findall RANGE_RE text) /\
    (forall x, x ∈ findall PRICE_RE text -> x ∈ findall RANGE_RE text \/ x ∈ singles).
Proof. unfold find_price_tokens. simpl. apply add_new_spec. Qed.

(** Every token is a piece of the text it was found in. *)
Lemma find_price_tokens_substring text tok :
  tok ∈ find_price_tokens text -> substring tok text.
Proof.
  destruct (find_price_tokens_shape text) as (singles & -> & _ & Hsub & _).
  intros [Hin|Hin]%elem_of_app.
  - by eapply findall_substring.
  - eapply findall_substring. by eapply elem_of_sublist.
Qed.

End Tokens.

Section Verbatim.
Context `{Unicode}.

(** The fields the body of the item loop leaves different from
    before. *)
Lemma process_item_tokens_verbatim rows text_blocks it text prices :
  final_match rows text_blocks it = Some (text, prices) ->
  prices = find_price_tokens text /\
  forall key v,
    get_appleCare (process_item rows text_blocks it).1 !! key = Some v ->
    get_appleCare it !! key = Some v \/
    exists i tok, (i < 4)%nat /\ PRICE_FIELDS !! i = Some key /\
      prices !! i = Some tok /\ v = JStr tok /\ substring tok text.
Proof.
  intros Hfm. pose proof (final_match_prices _ _ _ _ _ Hfm) as Hp.
  split; [done|]. intros key v. unfold process_item. rewrite Hfm.
  destruct (length prices <? expected_count it)%nat eqn:Hlt; [by left|].
  apply Nat.ltb_ge in Hlt. unfold get_appleCare at 1. simpl.
  rewrite assign_prices_lookup.
  assert (Hexp : expected_count it = 1%nat \/ expected_count it = 2%nat)
    by apply expected_count_cases.
  assert (Hwritten : forall i, (i < 4)%nat -> (i < length prices)%nat ->
            PRICE_FIELDS !! i = Some key -> Some (price_at prices i) = Some v ->
            exists i tok, (i < 4)%nat /\ PRICE_FIELDS !! i = Some key /\
              prices !! i = Some tok /\ v = JStr tok /\ substring tok text).
  { intros i Hi Hlen Hkey Hv.
    destruct (lookup_lt_is_Some_2 prices i Hlen) as [tok Htok].
    exists i, tok. repeat split; try done.
    - rewrite (price_at_lookup _ _ _ Htok) in Hv. by injection Hv as <-.
    - apply find_price_tokens_substring. rewrite <- Hp.
      by eapply list_elem_of_lookup_2. }
  destruct (4 <=? length prices)%nat eqn:H4;
    [apply Nat.leb_le in H4 | apply Nat.leb_gt in H4].
  - case_bool_decide as K3; simpl.
    { intros Hv. right. apply (Hwritten 3%nat); [lia|lia|by subst key|done]. }
    case_bool_decide as K2; simpl.
    { intros Hv. right. apply (Hwritten 2%nat); [lia|lia|by subst key|done]. }
    destruct (expected_count it =? 2)%nat eqn:E2; case_bool_decide as K1; simpl.
    + intros Hv. right. apply (Hwritten 1%nat); [lia|lia|by subst key|done].
    + case_bool_decide as K0; [|by left].
      intros Hv. right. apply (Hwritten 0%nat); [lia|lia|by subst key|done].
    + case_bool_decide as K0; [|by left].
      intros Hv. right. apply (Hwritten 0%nat); [lia|lia|by subst key|done].
    + case_bool_decide as K0; [|by left].
      intros Hv. right. apply (Hwritten 0%nat); [lia|lia|by subst key|done].
  - rewrite !andb_false_r.
    destruct (expected_count it =? 2)%nat eqn:E2; case_bool_decide as K1; simpl.
    + apply Nat.eqb_eq in E2.
      intros Hv. right. apply (Hwritten 1%nat); [lia|lia|by subst key|done].
    + case_bool_decide as K0; [|by left].
      intros Hv. right. apply (Hwritten 0%nat); [lia|lia|by subst key|done].
    + case_bool_decide as K0; [|by left].
      intros Hv. right. apply (Hwritten 0%nat); [lia|lia|by subst key|done].
    + case_bool_decide as K0; [|by left].
      intros Hv. right. apply (Hwritten 0%nat); [lia|lia|by subst key|done].
Qed.

End Verbatim.

(** ** Running the update twice *)

Section Idempotence.
Context `{Unicode}.

(** The match of an item depends on its identifier, its name and the
    number of tokens it requires, and on nothing else of the item. *)
Lemma final_match_ext rows text_blocks it1 it2 :
  get_id it1 = get_id it2 -> get_name it1 = get_name it2 ->
  expected_count it1 = expected_count it2 ->
  final_match rows text_blocks it1 = final_match rows text_blocks it2.
Proof. unfold final_match. by intros -> -> ->. Qed.

Lemma is_not_none_price prices i : is_not_none (Some (price_at prices i)) = true.
Proof. done. Qed.

(** Writing the prices does not change the number of tokens required. *)
Lemma expected_count_assigned it prices :
  expected_count
    (Item (item_id it) (item_name it)
       (Some (assign_prices (get_appleCare it) (expected_count it) prices))
       (item_rest it)) = expected_count it.
Proof.
  unfold expected_count at 1. unfold get_appleCare at 1. simpl.
  rewrite assign_prices_lookup.
  rewrite (bool_decide_eq_false_2 (standardMonthly = theftMonthly))
    by apply monthly_theftMonthly.
  rewrite (bool_decide_eq_false_2 (standardMonthly = theftOneTime))
    by apply monthly_theftOneTime.
  rewrite bool_decide_eq_true_2 by done. simpl.
  destruct (expected_count it =? 2)%nat eqn:E2.
  - apply Nat.eqb_eq in E2. by rewrite E2.
  - simpl. rewrite (bool_decide_eq_false_2 (standardMonthly = standardOneTime)).
    + unfold expected_count in *. by destruct (is_not_none _).
    + intros E. by apply oneTime_monthly.
Qed.

Lemma assign_prices_idem ac expected prices :
  assign_prices (assign_prices ac expected prices) expected prices
  = assign_prices ac expected prices.
Proof.
  apply map_eq. intros key. rewrite !assign_prices_lookup.
  repeat (destruct (_ && _); [done|]). by destruct (bool_decide _).
Qed.

Lemma process_item_idem rows text_blocks it :
  process_item rows text_blocks (process_item rows text_blocks it).1
  = process_item rows text_blocks it.
Proof.
  unfold process_item at 2.
  destruct (final_match rows text_blocks it) as [[text prices]|] eqn:Hfm.
  - destruct (length prices <? expected_count it)%nat eqn:Hlt; simpl.
    + unfold process_item. by rewrite Hfm, Hlt.
    + unfold process_item.
      rewrite (final_match_ext rows text_blocks _ it), Hfm;
        [|done|done|apply expected_count_assigned].
      rewrite expected_count_assigned, Hlt.
      change (get_appleCare (Item (item_id it) (item_name it)
                (Some (assign_prices (get_appleCare it) (expected_count it) prices))
                (item_rest it)))
        with (assign_prices (get_appleCare it) (expected_count it) prices).
      cbn [item_id item_name item_rest get_id upd_id].
      by rewrite assign_prices_idem.
  - simpl. unfold process_item. by rewrite Hfm.
Qed.

Lemma update_items_idem rows text_blocks items t :
  update_items rows text_blocks (update_items rows text_blocks items t).1 t
  = update_items rows text_blocks items t.
Proof.
  revert t. induction items as [|it items IH]; intros t; [done|].
  cbn [update_items].
  destruct (process_item rows text_blocks it) as [it' entry] eqn:Ep.
  destruct (update_items rows text_blocks items (count t entry)) as [rest t'] eqn:Eu.
  cbn [fst update_items].
  pose proof (process_item_idem rows text_blocks it) as Hidem.
  rewrite Ep in Hidem. simpl in Hidem. rewrite Hidem.
  specialize (IH (count t entry)). rewrite Eu in IH. simpl in IH. by rewrite IH.
Qed.

Lemma update_categories_idem rows text_blocks ids cats t :
  update_categories rows text_blocks ids
    (update_categories rows text_blocks ids cats t).1 t
  = update_categories rows text_blocks ids cats t.
Proof.
  revert t. induction cats as [|c cats IH]; intros t; [done|].
  cbn [update_categories]. case_bool_decide as Hin.
  - destruct (update_items rows text_blocks (default [] (cat_items c)) t)
      as [items' t1] eqn:Ei.
    destruct (update_categories rows text_blocks ids cats t1) as [rest t2] eqn:Ec.
    cbn [fst update_categories cat_id cat_items cat_rest].
    rewrite bool_decide_eq_true_2 by done.
    pose proof (update_items_idem rows text_blocks (default [] (cat_items c)) t) as Hi.
    rewrite Ei in Hi. simpl in Hi.
    specialize (IH t1). rewrite Ec in IH. simpl in IH.
    destruct (cat_items c) as [items|] eqn:Eitems; simpl in *.
    + by rewrite Hi, IH.
    + injection Ei as <- <-. by rewrite IH.
  - destruct (update_categories rows text_blocks ids cats t) as [rest t2] eqn:Ec.
    cbn [fst update_categories].
    rewrite bool_decide_eq_false_2 by done.
    specialize (IH t). rewrite Ec in IH. simpl in IH. by rewrite IH.
Qed.

(** C9.  Running [update_prices] again on the catalog it produced, with
    the same rows, text blocks and categories, gives the same
    [(matched, total, updates)] and leaves that catalog as it is. *)
Theorem update_prices_idempotent cat rows text_blocks category_ids :
  let first := update_prices cat rows text_blocks category_ids in
  update_prices first.1 rows text_blocks category_ids = first.
Proof.
  intros first. subst first. unfold update_prices.
  destruct (update_categories rows text_blocks category_ids
              (default [] (categories cat)) (Tally 0 0 [])) as [cats' t] eqn:Ec.
  pose proof (update_categories_idem rows text_blocks category_ids
                (default [] (categories cat)) (Tally 0 0 [])) as Hidem.
  rewrite Ec in Hidem. simpl in Hidem.
  destruct (categories cat) as [cats|] eqn:Ecats; simpl in *.
  - by rewrite Hidem.
  - by injection Ec as <- <-.
Qed.

End Idempotence.

(** ** [update_prices] item by item *)

Section UpdateSpec.
Context `{Unicode}.

Lemma tally_of_nil t : tally_of t [] = t.
Proof.
  destruct t as [m n us]. unfold tally_of. cbn [matched total updates filter length].
  by rewrite !Nat.add_0_r, app_nil_r.
Qed.

Lemma tally_of_cons t e entries :
  tally_of (count t e) entries = tally_of t (e :: entries).
Proof.
  destruct t as [m n us]. unfold tally_of, count. cbn [matched total updates length].
  rewrite <- app_assoc. cbn [app]. f_equal; [|lia].
  destruct (upd_status e) eqn:E.
  - rewrite filter_cons_True by done. cbn [length]. lia.
  - rewrite filter_cons_False by congruence. done.
  - rewrite filter_cons_False by congruence. done.
Qed.

Lemma update_items_tally rows text_blocks items t :
  update_items rows text_blocks items t
  = (map (fun it => (process_item rows text_blocks it).1) items,
     tally_of t (map (fun it => (process_item rows text_blocks it).2) items)).
Proof.
  revert t. induction items as [|it items IH]; intros t; cbn [update_items map].
  - by rewrite tally_of_nil.
  - destruct (process_item rows text_blocks it) as [it' entry] eqn:Ep.
    rewrite IH. cbn [fst snd]. by rewrite tally_of_cons.
Qed.

Lemma tally_of_app t es1 es2 :
  tally_of (tally_of t es1) es2 = tally_of t (es1 ++ es2).
Proof.
  unfold tally_of. cbn [matched total updates].
  rewrite filter_app, !length_app, <- app_assoc. f_equal; lia.
Qed.

Lemma update_categories_tally rows text_blocks ids cats t :
  update_categories rows text_blocks ids cats t
  = (map (processed_category rows text_blocks ids) cats,
     tally_of t (map (fun it => (process_item rows text_blocks it).2)
                     (processed_items ids cats))).
Proof.
  revert t. induction cats as [|c cats IH]; intros t; cbn [update_categories map].
  - unfold processed_items. cbn [flat_map map]. by rewrite tally_of_nil.
  - unfold processed_items. cbn [flat_map]. fold (processed_items ids cats).
    unfold processed_category at 1. case_bool_decide as Hin.
    + rewrite update_items_tally, IH, tally_of_app, map_app.
      by destruct (cat_items c).
    + by rewrite IH.
Qed.

(** [update_prices] in one equation: every item of the chosen categories
    goes through [process_item], in order, and the three results are the
    number of [updated] entries, the number of entries and the
    entries. *)
Lemma update_prices_spec cat rows text_blocks category_ids :
  let entries := map (fun it => (process_item rows text_blocks it).2)
                   (processed_items category_ids (default [] (categories cat))) in
  update_prices cat rows text_blocks category_ids
  = (Catalog (map (processed_category rows text_blocks category_ids) <$> categories cat)
       (lastUpdated cat) (sources cat) (catalog_rest cat),
     Tally (length (filter (fun e => upd_status e = Updated) entries))
           (length entries) entries).
Proof.
  intros entries. unfold update_prices. rewrite update_categories_tally.
  fold entries. by destruct (categories cat).
Qed.

End UpdateSpec.

(** ** What the update leaves alone *)

Section Frame.
Context `{Unicode}.

Lemma process_item_frame rows text_blocks it :
  let it' := (process_item rows text_blocks it).1 in
  item_id it' = item_id it /\ item_name it' = item_name it /\
  item_rest it' = item_rest it /\
  (upd_status (process_item rows text_blocks it).2 <> Updated -> it' = it).
Proof.
  unfold process_item.
  destruct (final_match rows text_blocks it) as [[text prices]|]; [|done].
  by destruct (length prices <? expected_count it)%nat.
Qed.

Lemma Forall2_map_diag {A} (P : A -> A -> Prop) (f : A -> A) (l : list A) :
  (forall x, P x (f x)) -> Forall2 P l (map f l).
Proof. intros HP. induction l; constructor; auto. Qed.

(** C10.  [update_prices] keeps the categories and, inside each, the
    items, in number and order; it keeps every category that is not in
    [category_ids] as it is, and of the others the identifier and the
    other keys; it keeps every item's identifier, its name and its other
    keys; and it keeps the whole item, [appleCare] included, unless the
    item's entry in the report has status [updated].  The other parts of
    the catalog are left as they are too. *)
Theorem update_prices_frame cat rows text_blocks category_ids :
  let cat' := (update_prices cat rows text_blocks category_ids).1 in
  let t := (update_prices cat rows text_blocks category_ids).2 in
  lastUpdated cat' = lastUpdated cat /\ sources cat' = sources cat /\
  catalog_rest cat' = catalog_rest cat /\
  (categories cat' = None <-> categories cat = None) /\
  updates t = map (fun it => (process_item rows text_blocks it).2)
                  (processed_items category_ids (default [] (categories cat))) /\
  Forall2 (fun c c' =>
      cat_id c' = cat_id c /\ cat_rest c' = cat_rest c /\
      (cat_id c ∉ category_ids -> c' = c) /\
      (cat_items c' = None <-> cat_items c = None) /\
      Forall2 (fun it it' =>
          item_id it' = item_id it /\ item_name it' = item_name it /\
          item_rest it' = item_rest it /\
          (upd_status (process_item rows text_blocks it).2 <> Updated -> it' = it))
        (default [] (cat_items c)) (default [] (cat_items c')))
    (default [] (categories cat)) (default [] (categories cat')).
Proof.
  intros cat' t. subst cat' t. rewrite update_prices_spec.
  cbn [fst snd lastUpdated sources catalog_rest categories updates].
  split; [done|]. split; [done|]. split; [done|].
  split; [by destruct (categories cat)|]. split; [done|].
  destruct (categories cat) as [cats|]; cbn [fmap option_fmap option_map default from_option id];
    [|constructor].
  apply Forall2_map_diag. intros c. unfold processed_category.
  case_bool_decide as Hin; cbn [cat_id cat_items cat_rest].
  - split; [done|]. split; [done|]. split; [done|].
    split; [by destruct (cat_items c)|].
    destruct (cat_items c) as [items|];
      cbn [fmap option_fmap option_map default from_option id]; [|constructor].
    apply Forall2_map_diag. intros it. apply process_item_frame.
  - split; [done|]. split; [done|]. split; [done|]. split; [done|].
    apply Forall2_same_length_lookup. split; [done|].
    intros i it it' Hi Hi'. rewrite Hi in Hi'. injection Hi' as <-. by repeat split.
Qed.

End Frame.

(** ** The item loop inside [update_prices] *)

Section ItemLoop.
Context `{Unicode}.

Lemma lookup_map {A B} (f : A -> B) (l : list A) (i : nat) :
  map f l !! i = f <$> l !! i.
Proof. apply list_lookup_fmap. Qed.

Lemma processed_items_lookup ids cats ci j c it :
  cats !! ci = Some c -> cat_id c ∈ ids -> default [] (cat_items c) !! j = Some it ->
  processed_items ids cats !! entry_index ids cats ci j = Some it.
Proof.
  intros Hc Hin Hit. unfold entry_index.
  assert (Hsplit : processed_items ids cats
                   = processed_items ids (take ci cats)
                     ++ default [] (cat_items c)
                     ++ processed_items ids (drop (S ci) cats)).
  { rewrite <- (take_drop_middle cats ci c Hc) at 1. unfold processed_items.
    rewrite flat_map_app. cbn [flat_map]. by rewrite bool_decide_eq_true_2. }
  rewrite Hsplit, lookup_app_r by lia.
  replace (length (processed_items ids (take ci cats)) + j
           - length (processed_items ids (take ci cats)))%nat with j by lia.
  by apply lookup_app_l_Some.
Qed.

(** The item found at a place of the catalog after the update: the
    result of [process_item] in a chosen category, the item itself in
    any other. *)
Lemma update_prices_item_at cat rows text_blocks category_ids ci j c it :
  default [] (categories cat) !! ci = Some c ->
  default [] (cat_items c) !! j = Some it ->
  exists c',
    default [] (categories (update_prices cat rows text_blocks category_ids).1) !! ci
      = Some c' /\
    default [] (cat_items c') !! j
      = Some (if bool_decide (cat_id c ∈ category_ids)
              then (process_item rows text_blocks it).1 else it).
Proof.
  intros Hc Hit. rewrite update_prices_spec. cbn [fst categories].
  destruct (categories cat) as [cats|];
    cbn [default from_option id fmap option_fmap option_map] in *; [|done].
  exists (processed_category rows text_blocks category_ids c).
  split; [by rewrite lookup_map, Hc|].
  unfold processed_category. case_bool_decide; cbn [cat_items]; [|done].
  destruct (cat_items c) as [items|];
    cbn [default from_option id fmap option_fmap option_map] in *; [|done].
  by rewrite lookup_map, Hit.
Qed.

(** The entry of the report for an item of a chosen category. *)
Lemma update_prices_entry_at cat rows text_blocks category_ids ci j c it :
  default [] (categories cat) !! ci = Some c -> cat_id c ∈ category_ids ->
  default [] (cat_items c) !! j = Some it ->
  updates (update_prices cat rows text_blocks category_ids).2
    !! entry_index category_ids (default [] (categories cat)) ci j
  = Some (process_item rows text_blocks it).2.
Proof.
  intros Hc Hin Hit. rewrite update_prices_spec. cbn [snd updates].
  by rewrite lookup_map, (processed_items_lookup _ _ _ _ _ _ Hc Hin Hit).
Qed.

Lemma process_item_matched rows text_blocks it text prices :
  final_match rows text_blocks it = Some (text, prices) ->
  upd_id (process_item rows text_blocks it).2 = get_id it /\
  upd_row (process_item rows text_blocks it).2 = Some text.
Proof.
  intros Hfm. unfold process_item. rewrite Hfm.
  by destruct (length prices <? expected_count it)%nat.
Qed.

(** C1.  Take an item of a category [update_prices] goes through, with
    a matched text and the token list found in it.  The required number of tokens
    is 2 when the item's [appleCare.standardMonthly] is populated (not
    null) and 1 otherwise.  With at least that many tokens the entry of
    the report for the item has status [updated] and the item in the
    catalog afterwards has token 0 in [standardOneTime], and token 1 in
    [standardMonthly] when two are required; with fewer the entry has
    status [not-enough-prices] and the item in the catalog afterwards is
    the item as it was, price fields included. *)
Theorem update_prices_required_count cat rows text_blocks category_ids ci j c it text prices :
  default [] (categories cat) !! ci = Some c -> cat_id c ∈ category_ids ->
  default [] (cat_items c) !! j = Some it ->
  final_match rows text_blocks it = Some (text, prices) ->
  let expected := expected_count it in
  exists c' it' entry,
    default [] (categories (update_prices cat rows text_blocks category_ids).1) !! ci
      = Some c' /\
    default [] (cat_items c') !! j = Some it' /\
    updates (update_prices cat rows text_blocks category_ids).2
      !! entry_index category_ids (default [] (categories cat)) ci j = Some entry /\
    upd_id entry = get_id it /\ upd_row entry = Some text /\
    prices = find_price_tokens text /\
    expected = (if is_not_none (get_appleCare it !! standardMonthly) then 2 else 1)%nat /\
    ((expected <= length prices)%nat ->
       upd_status entry = Updated /\
       is_Some (prices !! 0%nat) /\
       get_appleCare it' !! standardOneTime = JStr <$> prices !! 0%nat /\
       (expected = 2%nat ->
          is_Some (prices !! 1%nat) /\
          get_appleCare it' !! standardMonthly = JStr <$> prices !! 1%nat)) /\
    ((length prices < expected)%nat ->
       upd_status entry = NotEnoughPrices /\ it' = it).
Proof.
  intros Hc Hin Hit Hfm expected.
  destruct (update_prices_item_at cat rows text_blocks category_ids ci j c it Hc Hit)
    as (c' & Hc' & Hit').
  rewrite bool_decide_eq_true_2 in Hit' by done.
  exists c', (process_item rows text_blocks it).1, (process_item rows text_blocks it).2.
  split; [exact Hc'|]. split; [exact Hit'|].
  split; [by apply (update_prices_entry_at _ _ _ _ _ _ c)|].
  destruct (process_item_matched _ _ _ _ _ Hfm) as [Hid Hrow].
  split; [exact Hid|]. split; [exact Hrow|].
  split; [exact (final_match_prices _ _ _ _ _ Hfm)|].
  exact (process_item_required_count rows text_blocks it text prices Hfm).
Qed.

(** C7.  Take an item of a category [update_prices] goes through whose
    token list has four tokens or more.  Its entry in the report has
    status [updated], and the item in the catalog afterwards has token 2
    in [theftOneTime] and token 3 in [theftMonthly], whether one token
    was required or two. *)
Theorem update_prices_premium_tier cat rows text_blocks category_ids ci j c it text prices :
  default [] (categories cat) !! ci = Some c -> cat_id c ∈ category_ids ->
  default [] (cat_items c) !! j = Some it ->
  final_match rows text_blocks it = Some (text, prices) ->
  (4 <= length prices)%nat ->
  exists c' it' entry,
    default [] (categories (update_prices cat rows text_blocks category_ids).1) !! ci
      = Some c' /\
    default [] (cat_items c') !! j = Some it' /\
    updates (update_prices cat rows text_blocks category_ids).2
      !! entry_index category_ids (default [] (categories cat)) ci j = Some entry /\
    upd_id entry = get_id it /\ upd_row entry = Some text /\
    prices = find_price_tokens text /\
    upd_status entry = Updated /\
    is_Some (prices !! 2%nat) /\ is_Some (prices !! 3%nat) /\
    get_appleCare it' !! theftOneTime = JStr <$> prices !! 2%nat /\
    get_appleCare it' !! theftMonthly = JStr <$> prices !! 3%nat.
Proof.
  intros Hc Hin Hit Hfm Hlen.
  destruct (update_prices_item_at cat rows text_blocks category_ids ci j c it Hc Hit)
    as (c' & Hc' & Hit').
  rewrite bool_decide_eq_true_2 in Hit' by done.
  exists c', (process_item rows text_blocks it).1, (process_item rows text_blocks it).2.
  split; [exact Hc'|]. split; [exact Hit'|].
  split; [by apply (update_prices_entry_at _ _ _ _ _ _ c)|].
  destruct (process_item_matched _ _ _ _ _ Hfm) as [Hid Hrow].
  split; [exact Hid|]. split; [exact Hrow|].
  split; [exact (final_match_prices _ _ _ _ _ Hfm)|].
  exact (process_item_premium_tier rows text_blocks it text prices Hfm Hlen).
Qed.

(** C8.  Take any item of the catalog and the item at its place after
    [update_prices].  A field of its [appleCare] object either holds
    what it held before, or the item belongs to a chosen category, its
    entry in the report is [updated] with the matched text, and the
    field is number [i < 4] of [PRICE_FIELDS] and holds token number [i]
    of the list [find_price_tokens] returned for that text, as the
    string it is, a piece of that text.  So at most four tokens are
    used, in the order of the list, and none is altered. *)
Theorem update_prices_tokens_verbatim cat rows text_blocks category_ids ci j c it :
  default [] (categories cat) !! ci = Some c ->
  default [] (cat_items c) !! j = Some it ->
  exists c' it',
    default [] (categories (update_prices cat rows text_blocks category_ids).1) !! ci
      = Some c' /\
    default [] (cat_items c') !! j = Some it' /\
    forall key v,
      get_appleCare it' !! key = Some v ->
      get_appleCare it !! key = Some v \/
      exists text i tok,
        cat_id c ∈ category_ids /\
        updates (update_prices cat rows text_blocks category_ids).2
          !! entry_index category_ids (default [] (categories cat)) ci j
          = Some (Update (get_id it) Updated (Some text)) /\
        (i < 4)%nat /\ PRICE_FIELDS !! i = Some key /\
        find_price_tokens text !! i = Some tok /\ v = JStr tok /\ substring tok text.
Proof.
  intros Hc Hit.
  destruct (update_prices_item_at cat rows text_blocks category_ids ci j c it Hc Hit)
    as (c' & Hc' & Hit').
  case_bool_decide as Hin.
  - exists c', (process_item rows text_blocks it).1.
    split; [exact Hc'|]. split; [exact Hit'|]. intros key v Hv.
    pose proof (update_prices_entry_at _ rows text_blocks _ _ _ _ _ Hc Hin Hit) as Hentry.
    destruct (final_match rows text_blocks it) as [[text prices]|] eqn:Hfm.
    + destruct (process_item_tokens_verbatim rows text_blocks it text prices Hfm)
        as [Hp Hfields].
      destruct (Hfields key v Hv) as [Hold|(i & tok & Hi & Hkey & Htok & -> & Hsub)];
        [by left|].
      unfold process_item in Hv, Hentry. rewrite Hfm in Hv, Hentry.
      destruct (length prices <? expected_count it)%nat; [by left|].
      cbn [snd] in Hentry. right. exists text, i, tok. rewrite <- Hp. by repeat split.
    + unfold process_item in Hv. rewrite Hfm in Hv. by left.
  - exists c', it. split; [exact Hc'|]. split; [exact Hit'|]. by left.
Qed.

End ItemLoop.

(** ** Choosing the row *)

Lemma ALIASES_nonempty item_id pats :
  ALIASES !! item_id = Some pats -> nonempty pats = true.
Proof.
  intros Hl%elem_of_map_to_list.
  assert (Hall : Forall (fun e : str * list str => nonempty e.2 = true)
                   (map_to_list ALIASES)).
  { apply (bool_decide_unpack _). by vm_compute. }
  by apply (proj1 (Forall_forall _ _) Hall (item_id, pats)).
Qed.

Section ChooseRow.
Context `{Unicode}.

Lemma first_row_spec pattern rows :
  match first_row pattern rows with
  | Some text =>
      exists k row, rows !! k = Some row /\ text = join (u " ") row /\
        row_matches pattern row = true /\
        forall k' row', (k' < k)%nat -> rows !! k' = Some row' ->
          row_matches pattern row' = false
  | None => forall row, row ∈ rows -> row_matches pattern row = false
  end.
Proof.
  induction rows as [|row rows IH]; cbn [first_row].
  - by intros row ?%elem_of_nil.
  - fold (row_matches pattern row). destruct (row_matches pattern row) eqn:E.
    + exists 0%nat, row. repeat split; try done. intros k' row' Hk. lia.
    + destruct (first_row pattern rows) as [text|].
      * destruct IH as (k & row0 & Hk & -> & Hm & Hbefore).
        exists (S k), row0. repeat split; try done.
        intros [|k'] row' Hlt; cbn [lookup list_lookup].
        -- by intros [= <-].
        -- apply Hbefore. lia.
      * intros row' [->|Hin]%elem_of_cons; auto.
Qed.

Lemma first_pattern_spec pats rows :
  match first_pattern pats rows with
  | Some text =>
      exists i pattern k row,
        pats !! i = Some pattern /\ rows !! k = Some row /\
        text = join (u " ") row /\ row_matches pattern row = true /\
        (forall j p row', (j < i)%nat -> pats !! j = Some p -> row' ∈ rows ->
           row_matches p row' = false) /\
        (forall k' row', (k' < k)%nat -> rows !! k' = Some row' ->
           row_matches pattern row' = false)
  | None =>
      forall p row, p ∈ pats -> row ∈ rows -> row_matches p row = false
  end.
Proof.
  induction pats as [|p0 pats IH]; cbn [first_pattern].
  - by intros p row ?%elem_of_nil.
  - pose proof (first_row_spec p0 rows) as H0.
    destruct (first_row p0 rows) as [text|].
    + destruct H0 as (k & row & Hk & -> & Hm & Hbefore).
      exists 0%nat, p0, k, row. repeat split; try done. intros j p row' Hj. lia.
    + destruct (first_pattern pats rows) as [text|].
      * destruct IH as (i & pattern & k & row & Hi & Hk & -> & Hm & Hearlier & Hbefore).
        exists (S i), pattern, k, row. repeat split; try done.
        intros [|j] p row' Hlt; cbn [lookup list_lookup].
        -- intros [= <-]. apply H0.
        -- apply Hearlier. lia.
      * intros p row [->|Hin]%elem_of_cons; auto.
Qed.

(** C5.  For an identifier with registered patterns the list is a
    priority order: the result is the text of the first row, in document
    order, that the earliest pattern matching any row matches; no row is
    matched by an earlier pattern.  When no pattern matches any row the
    result is none, whatever the display name: the generic scorer is not
    tried. *)
Theorem choose_row_alias_priority item_id product_name rows pats :
  ALIASES !! item_id = Some pats ->
  match choose_row item_id product_name rows with
  | Some text =>
      exists i pattern k row,
        pats !! i = Some pattern /\ rows !! k = Some row /\
        text = join (u " ") row /\ row_matches pattern row = true /\
        (forall j p row', (j < i)%nat -> pats !! j = Some p -> row' ∈ rows ->
           row_matches p row' = false) /\
        (forall k' row', (k' < k)%nat -> rows !! k' = Some row' ->
           row_matches pattern row' = false)
  | None =>
      forall p row, p ∈ pats -> row ∈ rows -> row_matches p row = false
  end.
Proof.
  intros Hreg. unfold choose_row. rewrite Hreg. cbn [from_option id].
  rewrite (ALIASES_nonempty _ _ Hreg). apply first_pattern_spec.
Qed.

Lemma is_infix_empty w : nonempty w = true -> is_infix w [] = false.
Proof. by destruct w. Qed.

Lemma score_empty target_words :
  Forall (fun w => nonempty w = true) target_words -> score target_words [] = 0%nat.
Proof.
  unfold score. induction 1 as [|w ws Hw _ IH]; [done|].
  rewrite filter_cons_False; [done|]. by rewrite is_infix_empty.
Qed.

Lemma target_words_nonempty product_name :
  Forall (fun w => nonempty w = true) (target_words_of product_name).
Proof.
  unfold target_words_of. apply Forall_forall. by intros w [? _]%list_elem_of_filter.
Qed.

(** The scoring loop keeps the first row that reaches the highest score
    above the score it started with. *)
Lemma best_row_spec target_words rows best best_score :
  Forall (fun w => nonempty w = true) target_words ->
  let res := best_row target_words rows best best_score in
  (forall row, row ∈ rows -> (row_score target_words row <= res.2)%nat) /\
  ((res = (best, best_score)) \/
   (exists k row, rows !! k = Some row /\ res.1 = Some (join (u " ") row) /\
      row_score target_words row = res.2 /\ (best_score < res.2)%nat /\
      forall k' row', (k' < k)%nat -> rows !! k' = Some row' ->
        (row_score target_words row' < res.2)%nat)).
Proof.
  intros Hw. revert best best_score.
  induction rows as [|row rows IH]; intros best best_score; cbn [best_row].
  - cbn zeta. split; [by intros row ?%elem_of_nil | by left].
  - fold (row_score target_words row).
    assert (Hskip : negb (nonempty (normalize (join (u " ") row))) = true ->
                    row_score target_words row = 0%nat).
    { unfold row_score. destruct (normalize _); [|done]. intros _. by apply score_empty. }
    assert (Hkeep :
      (row_score target_words row <= best_score)%nat ->
      let res := best_row target_words rows best best_score in
      (forall row0, row0 ∈ row :: rows -> (row_score target_words row0 <= res.2)%nat) /\
      ((res = (best, best_score)) \/
       (exists k row0, (row :: rows) !! k = Some row0 /\
          res.1 = Some (join (u " ") row0) /\
          row_score target_words row0 = res.2 /\ (best_score < res.2)%nat /\
          forall k' row', (k' < k)%nat -> (row :: rows) !! k' = Some row' ->
            (row_score target_words row' < res.2)%nat))).
    { intros Hle. cbn zeta. destruct (IH best best_score) as [Hmax Hcase].
      assert (Hmono : (best_score <= (best_row target_words rows best best_score).2)%nat).
      { destruct Hcase as [->|(k & row0 & _ & _ & _ & Hlt & _)]; [done | lia]. }
      split.
      - intros row0 [->|Hin]%elem_of_cons; [lia | by apply Hmax].
      - destruct Hcase as [Heq|(k & row0 & Hk & Hbest & Hsc & Hlt & Hbefore)];
          [by left|right].
        exists (S k), row0. repeat split; try done.
        intros [|k'] row' Hk'; cbn [lookup list_lookup].
        + intros [= <-]. lia.
        + apply Hbefore. lia. }
    destruct (negb (nonempty (normalize (join (u " ") row)))) eqn:Hne.
    + apply Hkeep. rewrite Hskip; [lia | done].
    + destruct (best_score <? row_score target_words row)%nat eqn:Hlt.
      * apply Nat.ltb_lt in Hlt. cbn zeta.
        destruct (IH (Some (join (u " ") row)) (row_score target_words row))
          as [Hmax Hcase].
        split.
        -- intros row0 [->|Hin]%elem_of_cons; [|by apply Hmax].
           destruct Hcase as [->|(k & row0 & _ & _ & _ & Hlt' & _)]; [done | lia].
        -- right. destruct Hcase as [Heq|(k & row0 & Hk & Hbest & Hsc & Hlt' & Hbefore)].
           ++ exists 0%nat, row. rewrite Heq. repeat split; try done.
              intros k' row' Hk'. lia.
           ++ exists (S k), row0. repeat split; try done; [lia|].
              intros [|k'] row' Hk'; cbn [lookup list_lookup].
              ** intros [= <-]. lia.
              ** apply Hbefore. lia.
      * apply Nat.ltb_ge in Hlt. by apply Hkeep.
Qed.

(** C6, with the rounding made explicit.  For an identifier without
    registered patterns every row is scored by the number of words of the
    normalized name that occur in its normalized text; the result is the
    first row with the highest score when that score is at least
    [max 2 (n / 2)], where [n] is the number of words and [n / 2] is half
    of it rounded down (the [//] of the script), and none otherwise. *)
Theorem choose_row_generic_score item_id product_name rows :
  ALIASES !! item_id = None ->
  let target_words := target_words_of product_name in
  let threshold := Nat.max 2 (length target_words / 2) in
  match choose_row item_id product_name rows with
  | Some text =>
      exists k row, rows !! k = Some row /\ text = join (u " ") row /\
        (threshold <= row_score target_words row)%nat /\
        (forall row', row' ∈ rows ->
           (row_score target_words row' <= row_score target_words row)%nat) /\
        (forall k' row', (k' < k)%nat -> rows !! k' = Some row' ->
           (row_score target_words row' < row_score target_words row)%nat)
  | None =>
      forall row, row ∈ rows -> (row_score target_words row < threshold)%nat
  end.
Proof.
  intros Hreg target_words threshold. unfold choose_row. rewrite Hreg.
  cbn [from_option nonempty]. fold target_words.
  destruct (best_row_spec target_words rows None 0 (target_words_nonempty product_name))
    as [Hmax Hcase].
  destruct (best_row target_words rows None 0) as [best best_score] eqn:Eb.
  cbn [fst snd] in *. fold threshold.
  destruct (threshold <=? best_score)%nat eqn:Hth;
    [apply Nat.leb_le in Hth | apply Nat.leb_gt in Hth].
  - destruct Hcase as [[= -> ->]|(k & row & Hk & -> & Hsc & Hlt & Hbefore)].
    + subst threshold. lia.
    + exists k, row. rewrite Hsc. repeat split; try done.
  - intros row Hin. specialize (Hmax row Hin). lia.
Qed.

End ChooseRow.

(** ** The acceptance policy *)

Lemma below_lt q threshold : below q threshold = true <-> (q < threshold)%Q.
Proof.
  unfold below. rewrite negb_true_iff. split.
  - intros Hb. apply Qnot_le_lt. intros Hle.
    apply Qle_bool_iff in Hle. congruence.
  - intros Hlt. destruct (Qle_bool threshold q) eqn:E; [|done].
    apply Qle_bool_iff in E. by apply Qlt_not_le in Hlt.
Qed.

Lemma ratio_of_zero matched : ratio_of matched 0 = 0%Q.
Proof. done. Qed.

Lemma ratio_of_quotient matched total :
  total <> 0%nat ->
  (ratio_of matched total == inject_Z (Z.of_nat matched) / inject_Z (Z.of_nat total))%Q.
Proof.
  intros Hne. unfold ratio_of.
  destruct total as [|n]; [done|]. cbn [Nat.eqb].
  replace (Z.of_nat (S n)) with (Z.pos (Pos.of_nat (S n))) by lia.
  apply Qmake_Qdiv.
Qed.

Section MainFacts.
Context `{Unicode}.

(** C2.  A run that gets past its configuration checks writes the
    report.  Its [matched] and [total] are the sums of the counts the
    two calls of [update_prices] return, its entries are theirs, and its
    ratio is [matched / total], and zero when [total] is zero.  When the
    ratio is below the threshold and [--force] is not given, the catalog
    file is not written and the exit code is 2; otherwise the catalog
    file is written. *)
Theorem main_acceptance r :
  pdfplumber_installed r = true ->
  truthy (config_pdf_url r) = true ->
  exists rep,
    written_report (main r) = Some rep /\
    rep_matched rep = (matched (main_pass r).2 + matched (mac_pass r).2)%nat /\
    rep_total rep = (total (main_pass r).2 + total (mac_pass r).2)%nat /\
    rep_main rep = updates (main_pass r).2 /\
    rep_mac rep = updates (mac_pass r).2 /\
    (rep_total rep = 0%nat -> rep_ratio rep = 0%Q) /\
    (rep_total rep <> 0%nat ->
       (rep_ratio rep == inject_Z (Z.of_nat (rep_matched rep))
                         / inject_Z (Z.of_nat (rep_total rep)))%Q) /\
    ((rep_ratio rep < THRESHOLD)%Q /\ force r = false ->
       written_catalog (main r) = None /\ exit_code (main r) = 2%Z) /\
    (~ (rep_ratio rep < THRESHOLD)%Q \/ force r = true ->
       is_Some (written_catalog (main r)) /\ exit_code (main r) = 0%Z).
Proof.
  intros Hplumber Hurl. unfold main, mac_pass, main_pass. rewrite Hplumber, Hurl. cbn [negb].
  destruct (update_prices (output_catalog r) (rows_of (main_pdf r))
              (doc_blocks (main_pdf r)) MAIN_CATEGORIES) as [cat1 t_main].
  cbn [fst snd].
  destruct (if truthy (config_mac_pdf_url r)
            then update_prices cat1 (rows_of (mac_pdf r)) (doc_blocks (mac_pdf r))
                   MAC_CATEGORIES
            else (cat1, Tally 0 0 [])) as [cat2 t_mac].
  cbn [fst snd].
  set (m := (matched t_main + matched t_mac)%nat).
  set (n := (total t_main + total t_mac)%nat).
  exists (Report m n (ratio_of m n) (updates t_main) (updates t_mac)).
  cbn [rep_total rep_matched rep_ratio rep_main rep_mac].
  destruct (below (ratio_of m n) THRESHOLD && negb (force r)) eqn:Hb;
    cbn [written_report written_catalog exit_code].
  - apply andb_true_iff in Hb as [Hlt Hforce]. apply below_lt in Hlt.
    apply negb_true_iff in Hforce.
    split; [done|]. split; [done|]. split; [done|]. split; [done|]. split; [done|].
    split; [by intros ->|]. split; [apply ratio_of_quotient|].
    split; [done|]. intros [Hn|Hf]; [done | congruence].
  - split; [done|]. split; [done|]. split; [done|]. split; [done|]. split; [done|].
    split; [by intros ->|]. split; [apply ratio_of_quotient|].
    split.
    + intros [Hlt Hforce]. apply below_lt in Hlt. by rewrite Hlt, Hforce in Hb.
    + intros _. by split; [eexists|].
Qed.

End MainFacts.

(** ** The patterns of the script compile *)

Lemma script_patterns_compile :
  Forall (fun p => is_Some (re_compile p))
    [PRICE_RE; RANGE_RE; u "[^a-z0-9 ]+"; u "\s+"; u "\b([a-z])\s+([a-z])\b"] /\
  forall item_id pats p, ALIASES !! item_id = Some pats -> p ∈ pats ->
    is_Some (re_compile p) /\ is_Some (re_compile (replace_char 32 (u "\W+") p)).
Proof.
  split; [apply (bool_decide_unpack _); by vm_compute|].
  intros item_id pats p Hl%elem_of_map_to_list Hp.
  assert (Hall : Forall (fun e : str * list str =>
            Forall (fun p => is_Some (re_compile p) /\
                             is_Some (re_compile (replace_char 32 (u "\W+") p))) e.2)
          (map_to_list ALIASES)).
  { apply (bool_decide_unpack _). by vm_compute. }
  pose proof (proj1 (Forall_forall _ _) Hall (item_id, pats) Hl) as Hpats.
  by apply (proj1 (Forall_forall _ _) Hpats p).
Qed.

Lemma parse_escaped_name name st :
  at_top st ->
  is_Some (parse_from st (replace_char 32 (u "\W+") (re_escape name))).
Proof.
  revert st. induction name as [|c name IH]; intros [m k alts items q outer g] (Hm & Hk & Ho);
    cbn [p_mode p_kind p_outer] in *; subst m k outer.
  - by eexists.
  - unfold re_escape. cbn [flat_map]. fold (re_escape name).
    unfold replace_char. rewrite flat_map_app.
    fold (replace_char 32 (u "\W+") (re_escape name)).
    destruct (re_special c) eqn:Hs.
    + unfold re_special in Hs. apply existsb_exists in Hs as (x & Hx & Hc).
      apply N.eqb_eq in Hc. subst x.
      repeat (destruct Hx as [<-|Hx]; [apply IH; by repeat split|]).
      destruct Hx.
    + unfold re_special in Hs. cbn [existsb] in Hs.
      repeat (apply orb_false_elim in Hs as [? Hs]).
      cbn [flat_map app].
      assert (E32 : (c =? 32) = false) by done. rewrite E32. cbn [app].
      cbn [parse_from pstep p_mode]. unfold pstep_normal.
      repeat match goal with
             | Hne : (c =? ?k) = false |- context [c =? ?k] => rewrite Hne
             end.
      cbn [orb]. apply IH. by repeat split.
Qed.

(** The pattern [search_in_text] builds from a display name always
    compiles. *)
Lemma escaped_name_compiles name :
  is_Some (re_compile (replace_char 32 (u "\W+") (re_escape name))).
Proof. apply parse_escaped_name. by repeat split. Qed.

(** ** The properties on the sample *)

Lemma update_prices_required_count_witness :
  default [] (categories sample_catalog) !! 0%nat = Some sample_iphone /\
  cat_id sample_iphone ∈ MAIN_CATEGORIES /\
  default [] (cat_items sample_iphone) !! 0%nat = Some item_pro_max /\
  final_match sample_rows [] item_pro_max
    = Some (u "iPhone 17 Pro Max 269 € 13,49 € 339 € 16,99 €",
            [u "269 €"; u "13,49 €"; u "339 €"; u "16,99 €"]) /\
  expected_count item_pro_max = 2%nat /\
  exists c' it' entry,
    default [] (categories (update_prices sample_catalog sample_rows [] MAIN_CATEGORIES).1)
      !! 0%nat = Some c' /\
    default [] (cat_items c') !! 0%nat = Some it' /\
    updates (update_prices sample_catalog sample_rows [] MAIN_CATEGORIES).2
      !! entry_index MAIN_CATEGORIES (default [] (categories sample_catalog)) 0 0
      = Some entry /\
    upd_id entry = u "iphone-17-pro-max" /\
    upd_row entry = Some (u "iPhone 17 Pro Max 269 € 13,49 € 339 € 16,99 €") /\
    upd_status entry = Updated /\
    get_appleCare it' !! standardOneTime = Some (JStr (u "269 €")) /\
    get_appleCare it' !! standardMonthly = Some (JStr (u "13,49 €")).
Proof.
  assert (Hc : default [] (categories sample_catalog) !! 0%nat = Some sample_iphone)
    by reflexivity.
  assert (Hin : cat_id sample_iphone ∈ MAIN_CATEGORIES)
    by (apply (bool_decide_unpack _); vm_compute; exact I).
  assert (Hit : default [] (cat_items sample_iphone) !! 0%nat = Some item_pro_max)
    by reflexivity.
  assert (Hfm : final_match sample_rows [] item_pro_max
    = Some (u "iPhone 17 Pro Max 269 € 13,49 € 339 € 16,99 €",
            [u "269 €"; u "13,49 €"; u "339 €"; u "16,99 €"])) by (vm_compute; reflexivity).
  assert (E2 : expected_count item_pro_max = 2%nat) by (vm_compute; reflexivity).
  split; [exact Hc|]. split; [exact Hin|]. split; [exact Hit|]. split; [exact Hfm|].
  split; [exact E2|].
  destruct (update_prices_required_count sample_catalog sample_rows [] MAIN_CATEGORIES
              0 0 sample_iphone item_pro_max _ _ Hc Hin Hit Hfm)
    as (c' & it' & entry & Hc' & Hit' & He & Hid & Hrow & _ & _ & Hupd & _).
  exists c', it', entry.
  split; [exact Hc'|]. split; [exact Hit'|]. split; [exact He|].
  split; [exact Hid|]. split; [exact Hrow|].
  destruct Hupd as (Hst & _ & H0 & H1); [rewrite E2; cbn [length]; lia|].
  split; [exact Hst|]. split; [exact H0|]. exact (proj2 (H1 E2)).
Defined.

(** The other branch of C1, on the sample: one token where two are
    required. *)
Example not_enough_prices_sample :
  upd_status (process_item sample_rows [] item_air_monthly).2 = NotEnoughPrices /\
  (process_item sample_rows [] item_air_monthly).1 = item_air_monthly.
Proof. vm_compute. by split. Qed.

Lemma update_prices_premium_tier_witness :
  (default [] (categories sample_catalog) !! 0%nat = Some sample_iphone /\
   cat_id sample_iphone ∈ MAIN_CATEGORIES /\
   default [] (cat_items sample_iphone) !! 0%nat = Some item_pro_max /\
   final_match sample_rows [] item_pro_max
     = Some (u "iPhone 17 Pro Max 269 € 13,49 € 339 € 16,99 €",
             [u "269 €"; u "13,49 €"; u "339 €"; u "16,99 €"]) /\
   expected_count item_pro_max = 2%nat /\
   exists c' it' entry,
     default [] (categories (update_prices sample_catalog sample_rows [] MAIN_CATEGORIES).1)
       !! 0%nat = Some c' /\
     default [] (cat_items c') !! 0%nat = Some it' /\
     updates (update_prices sample_catalog sample_rows [] MAIN_CATEGORIES).2
       !! entry_index MAIN_CATEGORIES (default [] (categories sample_catalog)) 0 0
       = Some entry /\
     upd_status entry = Updated /\
     get_appleCare it' !! theftOneTime = Some (JStr (u "339 €")) /\
     get_appleCare it' !! theftMonthly = Some (JStr (u "16,99 €"))) /\
  (default [] (categories sample_catalog) !! 1%nat = Some sample_vision /\
   cat_id sample_vision ∈ ({[ u "vision" ]} : gset str) /\
   default [] (cat_items sample_vision) !! 0%nat = Some item_vision /\
   final_match sample_rows [] item_vision
     = Some (u "Apple Vision Pro 549 € ou 27,49 €/mois 649 € 32,49 €",
             [u "549 €"; u "27,49 €"; u "649 €"; u "32,49 €"]) /\
   expected_count item_vision = 1%nat /\
   exists c' it' entry,
     default [] (categories (update_prices sample_catalog sample_rows [] {[ u "vision" ]}).1)
       !! 1%nat = Some c' /\
     default [] (cat_items c') !! 0%nat = Some it' /\
     updates (update_prices sample_catalog sample_rows [] {[ u "vision" ]}).2
       !! entry_index {[ u "vision" ]} (default [] (categories sample_catalog)) 1 0
       = Some entry /\
     upd_status entry = Updated /\
     get_appleCare it' !! theftOneTime = Some (JStr (u "649 €")) /\
     get_appleCare it' !! theftMonthly = Some (JStr (u "32,49 €"))).
Proof.
  assert (Hc2 : default [] (categories sample_catalog) !! 0%nat = Some sample_iphone)
    by reflexivity.
  assert (Hin2 : cat_id sample_iphone ∈ MAIN_CATEGORIES)
    by (apply (bool_decide_unpack _); vm_compute; exact I).
  assert (Hit2 : default [] (cat_items sample_iphone) !! 0%nat = Some item_pro_max)
    by reflexivity.
  assert (Hfm2 : final_match sample_rows [] item_pro_max
     = Some (u "iPhone 17 Pro Max 269 € 13,49 € 339 € 16,99 €",
             [u "269 €"; u "13,49 €"; u "339 €"; u "16,99 €"])) by (vm_compute; reflexivity).
  assert (Hc1 : default [] (categories sample_catalog) !! 1%nat = Some sample_vision)
    by reflexivity.
  assert (Hin1 : cat_id sample_vision ∈ ({[ u "vision" ]} : gset str))
    by (apply (bool_decide_unpack _); vm_compute; exact I).
  assert (Hit1 : default [] (cat_items sample_vision) !! 0%nat = Some item_vision)
    by reflexivity.
  assert (Hfm1 : final_match sample_rows [] item_vision
     = Some (u "Apple Vision Pro 549 € ou 27,49 €/mois 649 € 32,49 €",
             [u "549 €"; u "27,49 €"; u "649 €"; u "32,49 €"])) by (vm_compute; reflexivity).
  split.
  - split; [exact Hc2|]. split; [exact Hin2|]. split; [exact Hit2|]. split; [exact Hfm2|].
    split; [vm_compute; reflexivity|].
    destruct (update_prices_premium_tier sample_catalog sample_rows [] MAIN_CATEGORIES
                0 0 sample_iphone item_pro_max _ _ Hc2 Hin2 Hit2 Hfm2)
      as (c' & it' & entry & Hc' & Hit' & He & _ & _ & _ & Hst & _ & _ & H2 & H3);
      [cbn [length]; lia|].
    exists c', it', entry. split; [exact Hc'|]. split; [exact Hit'|]. split; [exact He|].
    split; [exact Hst|]. split; [exact H2 | exact H3].
  - split; [exact Hc1|]. split; [exact Hin1|]. split; [exact Hit1|]. split; [exact Hfm1|].
    split; [vm_compute; reflexivity|].
    destruct (update_prices_premium_tier sample_catalog sample_rows [] {[ u "vision" ]}
                1 0 sample_vision item_vision _ _ Hc1 Hin1 Hit1 Hfm1)
      as (c' & it' & entry & Hc' & Hit' & He & _ & _ & _ & Hst & _ & _ & H2 & H3);
      [cbn [length]; lia|].
    exists c', it', entry. split; [exact Hc'|]. split; [exact Hit'|]. split; [exact He|].
    split; [exact Hst|]. split; [exact H2 | exact H3].
Defined.

Lemma update_prices_tokens_verbatim_witness :
  default [] (categories sample_catalog) !! 0%nat = Some sample_iphone /\
  default [] (cat_items sample_iphone) !! 1%nat = Some item_air /\
  exists c' it',
    default [] (categories (update_prices sample_catalog sample_rows [] MAIN_CATEGORIES).1)
      !! 0%nat = Some c' /\
    default [] (cat_items c') !! 1%nat = Some it' /\
    forall key v,
      get_appleCare it' !! key = Some v ->
      get_appleCare item_air !! key = Some v \/
      exists text i tok,
        cat_id sample_iphone ∈ MAIN_CATEGORIES /\
        updates (update_prices sample_catalog sample_rows [] MAIN_CATEGORIES).2
          !! entry_index MAIN_CATEGORIES (default [] (categories sample_catalog)) 0 1
          = Some (Update (get_id item_air) Updated (Some text)) /\
        (i < 4)%nat /\ PRICE_FIELDS !! i = Some key /\
        find_price_tokens text !! i = Some tok /\ v = JStr tok /\ substring tok text.
Proof.
  assert (Hc : default [] (categories sample_catalog) !! 0%nat = Some sample_iphone)
    by reflexivity.
  assert (Hit : default [] (cat_items sample_iphone) !! 1%nat = Some item_air)
    by reflexivity.
  split; [exact Hc|]. split; [exact Hit|].
  exact (update_prices_tokens_verbatim sample_catalog sample_rows [] MAIN_CATEGORIES
           0 1 sample_iphone item_air Hc Hit).
Defined.

(** On the sample the field written for "iPhone Air" is the token of
    its row. *)
Example tokens_verbatim_sample :
  exists c' it',
    default [] (categories (update_prices sample_catalog sample_rows [] MAIN_CATEGORIES).1)
      !! 0%nat = Some c' /\
    default [] (cat_items c') !! 1%nat = Some it' /\
    get_appleCare it' !! standardOneTime = Some (JStr (u "229 €")) /\
    updates (update_prices sample_catalog sample_rows [] MAIN_CATEGORIES).2 !! 1%nat
      = Some (Update (u "iphone-air") Updated (Some (u "iPhone Air 229 €"))).
Proof. vm_compute. eexists _, _. by repeat split. Qed.

Lemma choose_row_alias_priority_witness :
  ALIASES !! u "iphone-17-pro-max" = Some [u "\biphone 17 pro max\b"; u "\b17 pro max\b"] /\
  choose_row (u "iphone-17-pro-max") (u "iPhone 17 Pro Max") (drop 1 sample_rows)
    = Some (u "17 Pro Max 279 €") /\
  exists i pattern k row,
    [u "\biphone 17 pro max\b"; u "\b17 pro max\b"] !! i = Some pattern /\
    drop 1 sample_rows !! k = Some row /\
    u "17 Pro Max 279 €" = join (u " ") row /\ row_matches pattern row = true /\
    (forall j p row', (j < i)%nat ->
       [u "\biphone 17 pro max\b"; u "\b17 pro max\b"] !! j = Some p ->
       row' ∈ drop 1 sample_rows -> row_matches p row' = false) /\
    (forall k' row', (k' < k)%nat -> drop 1 sample_rows !! k' = Some row' ->
       row_matches pattern row' = false).
Proof.
  assert (Hreg : ALIASES !! u "iphone-17-pro-max"
            = Some [u "\biphone 17 pro max\b"; u "\b17 pro max\b"])
    by (vm_compute; reflexivity).
  assert (Hrow : choose_row (u "iphone-17-pro-max") (u "iPhone 17 Pro Max")
                   (drop 1 sample_rows) = Some (u "17 Pro Max 279 €"))
    by (vm_compute; reflexivity).
  split; [exact Hreg|]. split; [exact Hrow|].
  pose proof (choose_row_alias_priority (u "iphone-17-pro-max") (u "iPhone 17 Pro Max")
                (drop 1 sample_rows) _ Hreg) as Hspec.
  rewrite Hrow in Hspec. exact Hspec.
Defined.

Lemma choose_row_generic_score_witness :
  ALIASES !! u "vision-pro" = None /\
  choose_row (u "vision-pro") (u "Apple Vision Pro") sample_rows
    = Some (u "Apple Vision Pro 549 € ou 27,49 €/mois 649 € 32,49 €") /\
  exists k row, sample_rows !! k = Some row /\
    u "Apple Vision Pro 549 € ou 27,49 €/mois 649 € 32,49 €" = join (u " ") row /\
    (Nat.max 2 (length (target_words_of (u "Apple Vision Pro")) / 2)
       <= row_score (target_words_of (u "Apple Vision Pro")) row)%nat /\
    (forall row', row' ∈ sample_rows ->
       (row_score (target_words_of (u "Apple Vision Pro")) row'
          <= row_score (target_words_of (u "Apple Vision Pro")) row)%nat) /\
    (forall k' row', (k' < k)%nat -> sample_rows !! k' = Some row' ->
       (row_score (target_words_of (u "Apple Vision Pro")) row'
          < row_score (target_words_of (u "Apple Vision Pro")) row)%nat).
Proof.
  assert (Hreg : ALIASES !! u "vision-pro" = None) by (vm_compute; reflexivity).
  assert (Hrow : choose_row (u "vision-pro") (u "Apple Vision Pro") sample_rows
                 = Some (u "Apple Vision Pro 549 € ou 27,49 €/mois 649 € 32,49 €"))
    by (vm_compute; reflexivity).
  split; [exact Hreg|]. split; [exact Hrow|].
  pose proof (choose_row_generic_score (u "vision-pro") (u "Apple Vision Pro")
                sample_rows Hreg) as Hspec.
  cbv zeta in Hspec. rewrite Hrow in Hspec. exact Hspec.
Defined.

(** C6 as it is worded, with half of an odd word count not rounded: a
    name of five words and a row with two of them.  The score 2 is below
    5/2, and the row is returned all the same, since [5 // 2] is 2. *)
Lemma choose_row_generic_half_counterexample :
  let name := u "Apple Vision Pro Travel Case" in
  let row := [u "Apple Pencil case"; u "29 €"] in
  ALIASES !! u "vision-case" = None /\
  length (target_words_of name) = 5%nat /\
  row_score (target_words_of name) row = 2%nat /\
  (inject_Z (Z.of_nat (row_score (target_words_of name) row))
     < inject_Z (Z.of_nat (length (target_words_of name))) / 2)%Q /\
  choose_row (u "vision-case") name [row] = Some (u "Apple Pencil case 29 €").
Proof. vm_compute. repeat split. Qed.

Lemma main_acceptance_witness :
  pdfplumber_installed (sample_run false) = true /\
  truthy (config_pdf_url (sample_run false)) = true /\
  exists rep,
    written_report (main (sample_run false)) = Some rep /\
    rep_matched rep
      = (matched (main_pass (sample_run false)).2 + matched (mac_pass (sample_run false)).2)%nat /\
    rep_total rep
      = (total (main_pass (sample_run false)).2 + total (mac_pass (sample_run false)).2)%nat /\
    rep_main rep = updates (main_pass (sample_run false)).2 /\
    rep_mac rep = updates (mac_pass (sample_run false)).2 /\
    (rep_total rep = 0%nat -> rep_ratio rep = 0%Q) /\
    (rep_total rep <> 0%nat ->
       (rep_ratio rep == inject_Z (Z.of_nat (rep_matched rep))
                         / inject_Z (Z.of_nat (rep_total rep)))%Q) /\
    ((rep_ratio rep < THRESHOLD)%Q /\ force (sample_run false) = false ->
       written_catalog (main (sample_run false)) = None /\
       exit_code (main (sample_run false)) = 2%Z) /\
    (~ (rep_ratio rep < THRESHOLD)%Q \/ force (sample_run false) = true ->
       is_Some (written_catalog (main (sample_run false))) /\
       exit_code (main (sample_run false)) = 0%Z).
Proof.
  split; [reflexivity|]. split; [reflexivity|].
  apply (main_acceptance (sample_run false)); reflexivity.
Defined.

(** On the sample two of the three items of the main categories are
    updated: without [--force] the run stops with code 2 and writes no
    catalog, with it the catalog is written. *)
Example sample_run_refused :
  let o := main (sample_run false) in
  (rep_matched <$> written_report o, rep_total <$> written_report o)
    = (Some 2%nat, Some 3%nat) /\
  written_catalog o = None /\ exit_code o = 2%Z.
Proof. vm_compute. repeat split. Qed.

Example sample_run_forced :
  let o := main (sample_run true) in
  is_Some (written_catalog o) /\ exit_code o = 0%Z.
Proof. vm_compute. split; [by eexists | reflexivity]. Qed.

(** ** Where the script falls short of its description *)

(** C4.  The comment in [normalize] announces the repair of artifacts
    like "a pple"; the pattern asks for a word boundary after the second
    letter, so that only two single letters are joined and "a pple" stays
    as it is. *)
Theorem normalize_split_letter_kept :
  normalize (u "A pple Watch") = u "a pple watch" /\
  normalize (u "Apple Watch") = u "apple watch" /\
  normalize (u "A pple Watch") <> normalize (u "Apple Watch").
Proof. vm_compute. repeat split. discriminate. Qed.

(** What the repair does do: two single letters are joined. *)
Example normalize_joins_single_letters :
  normalize (u "i mac a b") = u "i mac ab".
Proof. vm_compute. reflexivity. Qed.

(** C3.  A range that occurs twice is listed twice: the duplicate test
    is applied to the single amounts only. *)
Theorem find_price_tokens_repeated_range :
  find_price_tokens (u "29 – 39 € ou 29 – 39 €/mois")
    = [u "29 – 39 €"; u "29 – 39 €"; u "39 €"] /\
  ~ NoDup (find_price_tokens (u "29 – 39 € ou 29 – 39 €/mois")).
Proof.
  assert (E : find_price_tokens (u "29 – 39 € ou 29 – 39 €/mois")
              = [u "29 – 39 €"; u "29 – 39 €"; u "39 €"]) by (vm_compute; reflexivity).
  split; [exact E|]. rewrite E. intros Hnd. apply NoDup_cons in Hnd as [Hnotin _].
  apply Hnotin. by left.
Qed.

(** The examples of the specification. *)
Example tokens_single_amounts :
  find_price_tokens (u "199 € ou 16,58 €/mois") = [u "199 €"; u "16,58 €"].
Proof. vm_compute. reflexivity. Qed.

Example tokens_range_first :
  find_price_tokens (u "5,99 € puis 29 – 39 €") = [u "29 – 39 €"; u "5,99 €"; u "39 €"].
Proof. vm_compute. reflexivity. Qed.

(** * Further properties *)

(** ** Stripping *)

Section Strip.
Context `{Unicode}.

Lemma lstrip_suffix s : lstrip s `suffix_of` s.
Proof.
  induction s as [|c t IH]; cbn [lstrip]; [reflexivity|].
  destruct (isspace c); [by apply suffix_cons_r | reflexivity].
Qed.

Lemma lstrip_head s c : head (lstrip s) = Some c -> isspace c = false.
Proof.
  induction s as [|a t IH]; cbn [lstrip]; [done|].
  destruct (isspace a) eqn:E; [done|]. by intros [= <-].
Qed.

Lemma lstrip_fixed s :
  (forall c, head s = Some c -> isspace c = false) -> lstrip s = s.
Proof. destruct s as [|a t]; [done|]. intros Hh. cbn [lstrip]. by rewrite (Hh a). Qed.

Lemma lstrip_nil s : lstrip s = [] <-> Forall (fun c => isspace c = true) s.
Proof.
  induction s as [|a t IH]; cbn [lstrip]; [by split; [constructor|]|].
  destruct (isspace a) eqn:E.
  - rewrite IH. split; [by constructor | by inversion 1].
  - split; [done|]. inversion 1; congruence.
Qed.

Lemma strip_prefix s : strip s `prefix_of` lstrip s.
Proof.
  pose proof (proj1 (suffix_prefix_reverse _ _) (lstrip_suffix (reverse (lstrip s))))
    as Hp.
  by rewrite reverse_involutive in Hp.
Qed.

(** [strip] leaves a piece of the string that neither starts nor ends
    with whitespace. *)
Lemma strip_head s c : head (strip s) = Some c -> isspace c = false.
Proof.
  intros Hh. apply (lstrip_head s).
  destruct (strip_prefix s) as [k ->].
  by destruct (strip s).
Qed.

Lemma strip_last s c : last (strip s) = Some c -> isspace c = false.
Proof.
  unfold strip. rewrite last_reverse. apply lstrip_head.
Qed.

Lemma strip_substring s : substring (strip s) s.
Proof.
  destruct (strip_prefix s) as [k Hk]. destruct (lstrip_suffix s) as [k' Hk'].
  exists k', k. by rewrite <- Hk.
Qed.

Lemma strip_Forall (P : N -> Prop) s : Forall P s -> Forall P (strip s).
Proof.
  intros Hs. destruct (strip_substring s) as (a & b & Hab).
  rewrite Hab in Hs. by apply Forall_app in Hs as [_ [Hs _]%Forall_app].
Qed.

Lemma strip_blank s : Forall (fun c => isspace c = true) s -> strip s = [].
Proof.
  intros Hs. unfold strip. apply lstrip_nil in Hs. rewrite Hs. reflexivity.
Qed.

Lemma lstrip_blank_inv s :
  Forall (fun c => isspace c = true) (lstrip s) -> Forall (fun c => isspace c = true) s.
Proof.
  induction s as [|a t IH]; cbn [lstrip]; [done|].
  destruct (isspace a) eqn:E; [|done]. intros Ht. constructor; auto.
Qed.

Lemma strip_nil_blank s : strip s = [] -> Forall (fun c => isspace c = true) s.
Proof.
  unfold strip. intros Hs. apply (f_equal reverse) in Hs.
  rewrite reverse_involutive in Hs. change (reverse []) with (@nil N) in Hs.
  apply (proj1 (lstrip_nil _)) in Hs.
  apply (proj1 (Forall_reverse _ _)) in Hs. by apply lstrip_blank_inv.
Qed.

End Strip.

(** ** The document extractor *)

Section ExtractorFacts.
Context `{Unicode}.

Lemma strip_trimmed s : trimmed (strip s).
Proof. split; [apply strip_head | apply strip_last]. Qed.

Lemma clean_cell_trimmed cell : trimmed (clean_cell cell).
Proof.
  destruct cell as [[|c t]|]; cbn [clean_cell]; try (by split).
  apply strip_trimmed.
Qed.

Lemma existsb_nonempty (cells : list str) :
  existsb nonempty cells = true -> Exists (fun cell => cell <> []) cells.
Proof.
  induction cells as [|c cells IH]; cbn [existsb]; [done|].
  intros [Hc|Hr]%orb_prop.
  - left. by destruct c.
  - right. auto.
Qed.

(** X1.  Every row [extract_tables] returns comes from a row of a table
    of a page, cell by cell; it has at least one cell that is not empty,
    and no cell of it starts or ends with whitespace. *)
Theorem extract_tables_rows pdf :
  Forall (fun row =>
      Exists (fun cell => cell <> []) row /\
      Forall trimmed row /\
      exists page table raw,
        page ∈ pdf /\ table ∈ default [] (page_tables page) /\ Some raw ∈ table /\
        row = map clean_cell raw)
    (extract_tables pdf).
Proof.
  apply Forall_forall. intros row Hrow. unfold extract_tables in Hrow.
  apply list_elem_of_In, in_flat_map in Hrow as (page & Hpage & Hrow).
  apply in_flat_map in Hrow as (table & Htable & Hrow).
  apply in_flat_map in Hrow as (raw & Hraw & Hrow).
  destruct raw as [[|c0 raw]|]; try by destruct Hrow.
  destruct (existsb nonempty (map clean_cell (c0 :: raw))) eqn:E; [|by destruct Hrow].
  destruct Hrow as [<-|[]].
  split; [by apply existsb_nonempty|]. split.
  - apply Forall_forall. intros cell (raw_cell & -> & _)%list_elem_of_fmap.
    apply clean_cell_trimmed.
  - exists page, table, (c0 :: raw).
    by rewrite <- !list_elem_of_In in *.
Qed.

(** The lines of [splitlines] are made of the characters read so far
    and of the characters of the text that are no line breaks. *)
Lemma splitlines_from_Forall (Q : N -> Prop) line s :
  Forall Q line -> Forall (fun c => is_linebreak c = false -> Q c) s ->
  Forall (Forall Q) (splitlines_from line s).
Proof.
  remember (length s) as n eqn:Hn. revert line s Hn.
  induction n as [n IH] using lt_wf_ind. intros line s Hn Hline Hs.
  destruct s as [|c t]; cbn [splitlines_from].
  - destruct (nonempty line); constructor; [|constructor]. by apply Forall_reverse.
  - apply Forall_cons in Hs as [Hc Ht]. cbn [length] in Hn.
    destruct (is_linebreak c) eqn:Ec.
    + constructor; [by apply Forall_reverse|].
      destruct t as [|d t'].
      * by apply (IH 0%nat); [lia| | |].
      * destruct ((c =? 13) && (d =? 10)).
        -- apply Forall_cons in Ht as [_ Ht']. cbn [length] in Hn.
           by apply (IH (length t')); [lia| | |].
        -- by apply (IH (length (d :: t'))); [lia| | |].
    + apply (IH (length t)); [lia|done| |done]. constructor; auto.
Qed.

Lemma splitlines_no_break s :
  Forall (Forall (fun c => is_linebreak c = false)) (splitlines s).
Proof.
  apply splitlines_from_Forall; [constructor|]. by apply Forall_forall.
Qed.

Lemma splitlines_Forall (P : N -> Prop) s :
  Forall P s -> Forall (Forall P) (splitlines s).
Proof.
  intros Hs. apply splitlines_from_Forall; [constructor|].
  eapply Forall_impl; [exact Hs|]. auto.
Qed.

Lemma substring_trans (a b c : str) : substring a b -> substring b c -> substring a c.
Proof.
  intros (p & q & ->) (p' & q' & ->). exists (p' ++ p), (q ++ q').
  by rewrite <- !app_assoc.
Qed.

Lemma splitlines_from_substring line s :
  Forall (fun l => substring l (reverse line ++ s)) (splitlines_from line s).
Proof.
  remember (length s) as n eqn:Hn. revert line s Hn.
  induction n as [n IH] using lt_wf_ind. intros line s Hn.
  destruct s as [|c t]; cbn [splitlines_from].
  - destruct (nonempty line); constructor; [|constructor].
    exists [], []. by rewrite app_nil_r.
  - cbn [length] in Hn. destruct (is_linebreak c) eqn:Ec.
    + constructor; [by exists [], (c :: t)|].
      assert (Hrest : forall t0 pre, c :: t = pre ++ t0 -> (length t0 < n)%nat ->
                Forall (fun l => substring l (reverse line ++ c :: t))
                  (splitlines_from [] t0)).
      { intros t0 pre E Hlt. eapply Forall_impl; [exact (IH _ Hlt [] t0 eq_refl)|].
        intros l (a & b & Hl). cbn [reverse app] in Hl. rewrite reverse_nil in Hl.
        cbn [app] in Hl. exists (reverse line ++ pre ++ a), b.
        rewrite E, Hl. by rewrite <- !app_assoc. }
      destruct t as [|d t'].
      * apply (Hrest [] [c]); [done | lia].
      * destruct ((c =? 13) && (d =? 10)).
        -- apply (Hrest t' [c; d]); [done | cbn [length] in *; lia].
        -- apply (Hrest (d :: t') [c]); [done | cbn [length] in *; lia].
    + eapply Forall_impl; [exact (IH (length t) ltac:(lia) (c :: line) t eq_refl)|].
      intros l Hl. rewrite reverse_cons, <- app_assoc in Hl. exact Hl.
Qed.

Lemma splitlines_substring s : Forall (fun l => substring l s) (splitlines s).
Proof. apply (splitlines_from_substring [] s). Qed.

(** X2.  Every row [extract_text_rows] returns is one cell: a line of
    the text of one of the pages, stripped; it is not empty, contains no
    line break, neither starts nor ends with whitespace, and is a piece
    of the text of that page. *)
Theorem extract_text_rows_rows pdf :
  Forall (fun row =>
      exists line, row = [line] /\ line <> [] /\ trimmed line /\
        Forall (fun c => is_linebreak c = false) line /\
        exists page raw,
          page ∈ pdf /\ raw ∈ splitlines (default [] (page_text page)) /\
          line = strip raw /\ substring line (default [] (page_text page)))
    (extract_text_rows pdf).
Proof.
  apply Forall_forall. intros row Hrow. unfold extract_text_rows in Hrow.
  apply list_elem_of_In, in_flat_map in Hrow as (page & Hpage & Hrow).
  apply in_flat_map in Hrow as (line & Hline & Hrow).
  destruct (nonempty (strip line)) eqn:E; [|by destruct Hrow].
  destruct Hrow as [<-|[]]. exists (strip line).
  apply list_elem_of_In in Hline, Hpage.
  split; [done|]. split; [by destruct (strip line)|]. split; [apply strip_trimmed|].
  split.
  - apply strip_Forall.
    exact (proj1 (Forall_forall _ _) (splitlines_no_break _) line Hline).
  - exists page, line. split; [done|]. split; [done|]. split; [done|].
    eapply substring_trans; [apply strip_substring|].
    exact (proj1 (Forall_forall _ _) (splitlines_substring _) line Hline).
Qed.

Lemma flat_map_nil {A B} (f : A -> list B) (l : list A) :
  (forall x, x ∈ l -> f x = []) -> flat_map f l = [].
Proof.
  induction l as [|x l IH]; [done|]. intros Hf. cbn [flat_map].
  rewrite Hf by (by left). rewrite IH; [done|]. intros y Hy. apply Hf. by right.
Qed.

Lemma flat_map_nil_inv {A B} (f : A -> list B) (l : list A) x :
  flat_map f l = [] -> x ∈ l -> f x = [].
Proof.
  induction l as [|y l IH]; [by intros _ ?%elem_of_nil|]. cbn [flat_map].
  intros [Hy Hl]%app_eq_nil [->|Hx]%elem_of_cons; auto.
Qed.

Lemma extract_text_rows_nil pdf :
  extract_text_blocks pdf = [] -> extract_text_rows pdf = [].
Proof.
  unfold extract_text_blocks, extract_text_rows. intros Hb.
  apply flat_map_nil. intros page Hpage.
  pose proof (flat_map_nil_inv _ _ page Hb Hpage) as Hp.
  cbv beta zeta in Hp |- *.
  destruct (nonempty (strip (default [] (page_text page)))) eqn:E; [done|].
  assert (Hblank : Forall (fun c => isspace c = true) (default [] (page_text page))).
  { apply strip_nil_blank. by destruct (strip _). }
  apply flat_map_nil. intros line Hline.
  pose proof (proj1 (Forall_forall _ _) (splitlines_Forall _ _ Hblank) line Hline) as Hl.
  by rewrite (strip_blank _ Hl).
Qed.

(** X3.  A file without text blocks has no text rows either: when no
    page has text besides whitespace, [extract_text_rows] returns
    nothing. *)
Theorem extract_text_rows_without_blocks pdf :
  extract_text_blocks pdf = [] -> extract_text_rows pdf = [].
Proof. apply extract_text_rows_nil. Qed.

End ExtractorFacts.

Example extract_tables_sample :
  extract_tables sample_pdf = [[u "iPhone Air"; u ""; u "229 €"]].
Proof. vm_compute. reflexivity. Qed.

Example extract_text_rows_sample :
  extract_text_rows sample_pdf = [[u "Tarifs AppleCare+"]; [u "iPhone Air   229 €"]].
Proof. vm_compute. reflexivity. Qed.

(** ** The token list *)

Section TokenList.
Context `{Unicode}.

(** X4.  The token list is the list of range matches, as they follow
    each other in the text and with their repetitions, followed by
    single amounts: these are taken from the matches of [PRICE_RE] in
    their order, none of them twice and none that is equal to a range
    match, and every such match is in the list. *)
Theorem find_price_tokens_ranges_first text :
  exists singles,
    find_price_tokens text = findall RANGE_RE text ++ singles /\
    NoDup singles /\
    singles `sublist_of` findall PRICE_RE text /\
    (forall x, x ∈ singles -> x ∉ findall RANGE_RE text) /\
    (forall x, x ∈ findall PRICE_RE text -> x ∈ find_price_tokens text).
Proof.
  unfold find_price_tokens. cbn [app].
  destruct (add_new_spec (findall RANGE_RE text) (findall PRICE_RE text))
    as (new & E & Hnd & Hsub & Hnew & Hall).
  exists new. rewrite E. repeat split; try done.
  intros x Hx. apply elem_of_app. by apply Hall.
Qed.

End TokenList.

(** ** The window of [search_in_text] *)

Section Window.
Context `{Unicode}.

Lemma search_split pattern ic s pre m after :
  search pattern ic s = Some (pre, m, after) -> s = pre ++ m ++ after.
Proof.
  unfold search. destruct (re_compile pattern) as [r|]; [|done].
  destruct (search_at ic r false None s) as [[[pre' m'] st']|] eqn:E; [|done].
  intros [= <- <- <-]. by eapply search_at_split.
Qed.

Lemma search_block_window block patterns window :
  search_block block patterns = Some window ->
  (length window <= 600)%nat /\ find_price_tokens window <> [] /\
  exists pattern pre m after,
    pattern ∈ patterns /\
    search (replace_char 32 (u "\W+") pattern) true block = Some (pre, m, after) /\
    window = take 600 after.
Proof.
  induction patterns as [|p ps IH]; cbn [search_block]; [done|].
  destruct (search (replace_char 32 (u "\W+") p) true block) as [[[pre m] after]|] eqn:E.
  - destruct (nonempty (find_price_tokens (take 600 after))) eqn:Hp.
    + intros [= <-]. split; [rewrite length_take; lia|].
      split; [by destruct (find_price_tokens _)|].
      exists p, pre, m, after. split; [by left | done].
    + intros Hw. destruct (IH Hw) as (Hlen & Htok & p' & pre' & m' & a' & Hin & Hs & Hwin).
      split; [done|]. split; [done|]. exists p', pre', m', a'. split; [by right | done].
  - intros Hw. destruct (IH Hw) as (Hlen & Htok & p' & pre' & m' & a' & Hin & Hs & Hwin).
    split; [done|]. split; [done|]. exists p', pre', m', a'. split; [by right | done].
Qed.

Lemma search_in_text_some product_id product_name text_blocks window :
  search_in_text product_id product_name text_blocks = Some window ->
  (length window <= 600)%nat /\
  find_price_tokens window <> [] /\
  exists block pre m after,
    block ∈ text_blocks /\ block = pre ++ m ++ after /\ window = take 600 after.
Proof.
  unfold search_in_text.
  generalize (if nonempty (default [] (ALIASES !! product_id))
              then default [] (ALIASES !! product_id)
              else [re_escape product_name]) as patterns.
  intros patterns. induction text_blocks as [|block blocks IH]; cbn [search_blocks]; [done|].
  destruct (search_block block patterns) as [w|] eqn:E.
  - intros [= <-]. apply search_block_window in E
      as (Hlen & Htok & p & pre & m & after & _ & Hs & Hwin).
    split; [done|]. split; [done|]. exists block, pre, m, after.
    split; [by left|]. split; [by eapply search_split | done].
  - intros Hw. destruct (IH Hw) as (Hlen & Htok & b & pre & m & after & Hin & Hb & Hwin).
    split; [done|]. split; [done|]. exists b, pre, m, after. split; [by right | done].
Qed.

(** X5.  The window [search_in_text] returns is at most 600 characters
    long and at least one price token is found in it; it is the text
    that follows, in one of the blocks, the match of one of the patterns
    of the item (its spaces replaced by [\W+], case ignored), cut at 600
    characters. *)
Theorem search_in_text_window product_id product_name text_blocks window :
  search_in_text product_id product_name text_blocks = Some window ->
  (length window <= 600)%nat /\
  find_price_tokens window <> [] /\
  exists block pattern pre m after,
    block ∈ text_blocks /\ pattern ∈ text_patterns product_id product_name /\
    search (replace_char 32 (u "\W+") pattern) true block = Some (pre, m, after) /\
    block = pre ++ m ++ after /\ window = take 600 after.
Proof.
  unfold search_in_text. fold (text_patterns product_id product_name).
  generalize (text_patterns product_id product_name) as patterns.
  intros patterns. induction text_blocks as [|block blocks IH]; cbn [search_blocks]; [done|].
  destruct (search_block block patterns) as [w|] eqn:E.
  - intros [= <-]. apply search_block_window in E
      as (Hlen & Htok & p & pre & m & after & Hp & Hs & Hwin).
    split; [done|]. split; [done|]. exists block, p, pre, m, after.
    split; [by left|]. split; [done|]. split; [done|].
    split; [by eapply search_split | done].
  - intros Hw. destruct (IH Hw) as (Hlen & Htok & b & p & pre & m & after & Hin & Hp & Hb).
    split; [done|]. split; [done|]. exists b, p, pre, m, after. split; [by right | done].
Qed.

End Window.

(** ** The row chosen *)

Section RowChosen.
Context `{Unicode}.

Lemma lookup_elem_of_rows (rows : list (list str)) k row :
  rows !! k = Some row -> row ∈ rows.
Proof. apply list_elem_of_lookup_2. Qed.

Lemma choose_row_some item_id product_name rows :
  match choose_row item_id product_name rows with
  | Some text => exists row, row ∈ rows /\ text = join (u " ") row
  | None => True
  end /\
  choose_row item_id product_name [] = None.
Proof.
  split.
  - unfold choose_row. destruct (nonempty (default [] (ALIASES !! item_id))).
    + pose proof (first_pattern_spec (default [] (ALIASES !! item_id)) rows) as Hspec.
      destruct (first_pattern _ rows) as [text|]; [|done].
      destruct Hspec as (i & p & k & row & _ & Hk & -> & _).
      exists row. split; [by eapply lookup_elem_of_rows | done].
    + destruct (best_row_spec (target_words_of product_name) rows None 0
                  (target_words_nonempty product_name)) as [_ Hcase].
      destruct (best_row (target_words_of product_name) rows None 0)
        as [best best_score] eqn:Eb.
      cbn [fst snd] in Hcase.
      destruct (_ <=? best_score)%nat eqn:Hth; [|done].
      apply Nat.leb_le in Hth.
      assert (H2 : (2 <= best_score)%nat).
      { etrans; [|exact Hth]. apply Nat.le_max_l. }
      destruct Hcase as [Heq|(k & row & Hk & -> & _)];
        [injection Heq as _ ->; lia|].
      exists row. split; [by eapply lookup_elem_of_rows | done].
  - unfold choose_row. destruct (nonempty (default [] (ALIASES !! item_id))).
    + by induction (default [] (ALIASES !! item_id)) as [|p ps IH].
    + cbn [best_row]. by destruct (_ <=? _)%nat.
Qed.

(** X6.  What [choose_row] returns is the text of one of the rows, its
    cells joined by single spaces; with no rows it returns nothing. *)
Theorem choose_row_is_a_row item_id product_name rows :
  match choose_row item_id product_name rows with
  | Some text => exists row, row ∈ rows /\ text = join (u " ") row
  | None => True
  end /\
  choose_row item_id product_name [] = None.
Proof. apply choose_row_some. Qed.

Lemma score_le target_words row_norm :
  (score target_words row_norm <= length target_words)%nat.
Proof. unfold score. apply length_filter. Qed.

(** X7.  For an identifier without registered patterns and a display
    name of fewer than two words after normalization, no row is ever
    chosen: the score cannot reach the least threshold of 2. *)
Theorem choose_row_short_name item_id product_name rows :
  ALIASES !! item_id = None ->
  (length (target_words_of product_name) < 2)%nat ->
  choose_row item_id product_name rows = None.
Proof.
  intros Hreg Hshort. unfold choose_row. rewrite Hreg. cbn [from_option nonempty].
  destruct (best_row_spec (target_words_of product_name) rows None 0
              (target_words_nonempty product_name)) as [_ Hcase].
  destruct (best_row (target_words_of product_name) rows None 0)
    as [best best_score] eqn:Eb.
  cbn [fst snd] in Hcase.
  destruct (_ <=? best_score)%nat eqn:Hth; [|done].
  apply Nat.leb_le in Hth.
  assert (Hb : (best_score <= length (target_words_of product_name))%nat).
  { destruct Hcase as [Heq|(k & row & _ & _ & Hsc & _)];
      [injection Heq as _ ->; lia|].
    rewrite <- Hsc. apply score_le. }
  assert (H2 : (2 <= best_score)%nat).
  { etrans; [|exact Hth]. apply Nat.le_max_l. }
  lia.
Qed.

End RowChosen.

(** ** The report and the catalog after [update_prices] *)

Section Report.
Context `{Unicode}.

Lemma search_in_text_no_blocks product_id product_name :
  search_in_text product_id product_name [] = None.
Proof. done. Qed.

(** Where the matched text of an item comes from. *)
Lemma final_match_source rows text_blocks it text prices :
  final_match rows text_blocks it = Some (text, prices) ->
  text <> [] /\
  ((exists row, row ∈ rows /\ text = join (u " ") row) \/
   (exists block pre m after,
      block ∈ text_blocks /\ block = pre ++ m ++ after /\ text = take 600 after)).
Proof.
  unfold final_match.
  destruct (choose_row_some (get_id it) (get_name it) rows) as [Hrow _].
  assert (Hwin : forall w,
    search_in_text (get_id it) (get_name it) text_blocks = Some w ->
    exists block pre m after,
      block ∈ text_blocks /\ block = pre ++ m ++ after /\ w = take 600 after).
  { intros w Hw. by apply search_in_text_some in Hw as (_ & _ & Hw). }
  destruct (negb (truthy (choose_row _ _ rows)) && nonempty text_blocks).
  - destruct (search_in_text _ _ _) as [[|c w]|] eqn:Es;
      [intros [=] | | intros [=]].
    rewrite andb_false_r. cbn [andb]. intros [= <- <-].
    split; [discriminate|]. right. apply Hwin. reflexivity.
  - destruct (choose_row _ _ _) as [[|c w]|]; [intros [=] | | intros [=]].
    destruct (_ && _ && _).
    + destruct (search_in_text _ _ _) as [[|c' w']|] eqn:Es; intros [= <- <-];
        (split; [discriminate|]).
      * left. exact Hrow.
      * right. apply Hwin. reflexivity.
      * left. exact Hrow.
    + intros [= <- <-]. split; [discriminate|]. left. exact Hrow.
Qed.

(** X8.  Every entry of the report carries the identifier of its item.
    An entry has no row exactly when its status is no-match; otherwise
    its row is not empty and is either one of the rows, its cells joined
    by spaces, or a piece of at most 600 characters of one of the text
    blocks. *)
Theorem process_item_entry rows text_blocks it :
  let entry := (process_item rows text_blocks it).2 in
  upd_id entry = get_id it /\
  (upd_status entry = NoMatch <-> upd_row entry = None) /\
  forall text, upd_row entry = Some text ->
    text <> [] /\
    ((exists row, row ∈ rows /\ text = join (u " ") row) \/
     (exists block pre m after,
        block ∈ text_blocks /\ block = pre ++ m ++ after /\ text = take 600 after)).
Proof.
  unfold process_item.
  destruct (final_match rows text_blocks it) as [[text prices]|] eqn:Hfm;
    [|by repeat split].
  apply final_match_source in Hfm.
  destruct (length prices <? expected_count it)%nat; cbn [snd upd_id upd_status upd_row];
    (split; [done|]); (split; [by split|]); by intros t [= <-].
Qed.

Lemma process_item_id rows text_blocks it :
  upd_id (process_item rows text_blocks it).2 = get_id it.
Proof.
  unfold process_item. destruct (final_match rows text_blocks it) as [[text prices]|];
    [|done]. by destruct (_ <? _)%nat.
Qed.

(** X9.  [total] is the number of items of the chosen categories and
    the report has one entry for each of them, in their order, under the
    item's identifier; [matched] is the number of entries with status
    updated, so that it never exceeds [total]. *)
Theorem update_prices_counts cat rows text_blocks category_ids :
  let t := (update_prices cat rows text_blocks category_ids).2 in
  let items := processed_items category_ids (default [] (categories cat)) in
  total t = length items /\
  map upd_id (updates t) = map get_id items /\
  matched t = length (filter (fun e => upd_status e = Updated) (updates t)) /\
  (matched t <= total t)%nat.
Proof.
  intros t items. subst t. rewrite update_prices_spec. cbn [snd total matched updates].
  fold items. rewrite length_map. split; [done|]. split.
  - rewrite map_map. apply map_ext. intros it. apply process_item_id.
  - split; [done|]. etrans; [apply length_filter|]. by rewrite length_map.
Qed.

Lemma process_item_nothing it : process_item [] [] it = (it, Update (get_id it) NoMatch None).
Proof.
  unfold process_item, final_match.
  destruct (choose_row_some (get_id it) (get_name it) []) as [_ ->]. done.
Qed.

Lemma map_id_ext {A} (f : A -> A) (l : list A) : (forall x, f x = x) -> map f l = l.
Proof. intros Hf. induction l as [|x l IH]; [done|]. cbn [map]. by rewrite Hf, IH. Qed.

Lemma no_match_entries_updated (items : list item) :
  length (filter (fun e => upd_status e = Updated)
            (map (fun it => Update (get_id it) NoMatch None) items)) = 0%nat.
Proof.
  induction items as [|it l IH]; [done|]. cbn [map].
  by rewrite filter_cons_False by (cbn; discriminate).
Qed.

Lemma update_prices_nothing cat category_ids :
  update_prices cat [] [] category_ids
  = (cat, Tally 0 (length (processed_items category_ids (default [] (categories cat))))
            (map (fun it => Update (get_id it) NoMatch None)
                 (processed_items category_ids (default [] (categories cat))))).
Proof.
  rewrite update_prices_spec. cbv zeta.
  assert (Hentries : map (fun it => (process_item [] [] it).2)
                       (processed_items category_ids (default [] (categories cat)))
                     = map (fun it => Update (get_id it) NoMatch None)
                         (processed_items category_ids (default [] (categories cat)))).
  { apply map_ext. intros it. by rewrite process_item_nothing. }
  rewrite Hentries. f_equal.
  - assert (Hc : forall c, processed_category [] [] category_ids c = c).
    { intros [id items rest]. unfold processed_category. cbn [cat_id cat_items cat_rest].
      case_bool_decide; [|done]. f_equal. destruct items as [items|]; [|done].
      cbn. f_equal. apply map_id_ext. intros it. by rewrite process_item_nothing. }
    destruct cat as [[cats|] lu src rest]; cbn; [|done].
    by rewrite (map_id_ext _ _ Hc).
  - by rewrite no_match_entries_updated, length_map.
Qed.

(** X10.  A file in which no table row and no text is found changes
    nothing: every item of the chosen categories is reported as no-match,
    [matched] is 0 and the catalog is as before. *)
Theorem update_prices_blank_pdf cat pdf category_ids :
  extract_tables pdf = [] -> extract_text_blocks pdf = [] ->
  let items := processed_items category_ids (default [] (categories cat)) in
  update_prices cat (rows_of (extract pdf)) (doc_blocks (extract pdf)) category_ids
  = (cat, Tally 0 (length items) (map (fun it => Update (get_id it) NoMatch None) items)).
Proof.
  intros Ht Hb items. unfold rows_of, extract. cbn [doc_tables doc_text_rows doc_blocks].
  rewrite Ht, Hb, (extract_text_rows_nil pdf Hb). cbn [nonempty].
  apply update_prices_nothing.
Qed.

(** X11.  Processing an item never removes a key of its [appleCare]
    object, and never removes the object: an item that is left without
    one had none and was not updated. *)
Theorem process_item_keeps_keys rows text_blocks it :
  let it' := (process_item rows text_blocks it).1 in
  (forall key, is_Some (get_appleCare it !! key) -> is_Some (get_appleCare it' !! key)) /\
  (item_appleCare it' = None ->
     item_appleCare it = None /\ upd_status (process_item rows text_blocks it).2 <> Updated).
Proof.
  unfold process_item.
  destruct (final_match rows text_blocks it) as [[text prices]|]; [|by split].
  destruct (length prices <? expected_count it)%nat; cbn [fst snd]; [by split|].
  split; [|done]. intros key Hkey.
  change (get_appleCare (Item (item_id it) (item_name it)
            (Some (assign_prices (get_appleCare it) (expected_count it) prices))
            (item_rest it)))
    with (assign_prices (get_appleCare it) (expected_count it) prices).
  rewrite assign_prices_lookup.
  repeat (destruct (_ && _); [by eexists|]). by destruct (bool_decide _); [eexists|].
Qed.

(** X12.  When the chosen row gives at least as many tokens as the item
    requires, the text blocks play no part: the match is that row and
    its tokens, whatever the blocks are. *)
Theorem final_match_row_suffices rows text_blocks it text :
  choose_row (get_id it) (get_name it) rows = Some text ->
  text <> [] ->
  (expected_count it <= length (find_price_tokens text))%nat ->
  final_match rows text_blocks it = Some (text, find_price_tokens text).
Proof.
  intros Hrow Hne Hlen. unfold final_match. rewrite Hrow.
  destruct text as [|c w]; [done|]. cbn [truthy negb andb].
  by rewrite (proj2 (Nat.ltb_ge _ _) Hlen).
Qed.

End Report.

(** ** The run as a whole *)

Lemma below_ratio m n :
  below (ratio_of m n) THRESHOLD = true <-> (n = 0 \/ m < n)%nat.
Proof.
  rewrite below_lt. unfold ratio_of, THRESHOLD.
  destruct n as [|k]; cbn [Nat.eqb].
  - split; [by left | done].
  - unfold Qlt. cbn [Qnum Qden].
    rewrite <- Pos.of_nat_succ, Zpos_P_of_succ_nat. lia.
Qed.

Lemma categories_disjoint (x : str) : x ∈ MAIN_CATEGORIES -> x ∈ MAC_CATEGORIES -> False.
Proof.
  intros Hmain Hmac. unfold MAC_CATEGORIES in Hmac.
  apply elem_of_list_to_set, list_elem_of_singleton in Hmac. subst x.
  revert Hmain. apply (bool_decide_unpack (u "mac" ∉ MAIN_CATEGORIES)). by vm_compute.
Qed.

Section RunFacts.
Context `{Unicode}.

Lemma matched_le_total cat rows text_blocks category_ids :
  (matched (update_prices cat rows text_blocks category_ids).2
   <= total (update_prices cat rows text_blocks category_ids).2)%nat.
Proof.
  rewrite update_prices_spec. cbn [snd matched total]. apply length_filter.
Qed.

Lemma main_passed r :
  pdfplumber_installed r = true -> truthy (config_pdf_url r) = true ->
  main r =
    if below (rep_ratio (run_report r)) THRESHOLD && negb (force r)
    then Outcome (Some (run_report r)) None 2
    else Outcome (Some (run_report r))
           (Some (Catalog (categories (mac_pass r).1) (Some (today r))
                    (Some (default [] (config_pdf_url r)
                             :: (if truthy (config_mac_pdf_url r)
                                 then [default [] (config_mac_pdf_url r)] else [])))
                    (catalog_rest (mac_pass r).1))) 0.
Proof.
  intros Hp Hu. unfold main, run_report, mac_pass, main_pass. rewrite Hp, Hu. cbn [negb].
  destruct (update_prices (output_catalog r) (rows_of (main_pdf r))
              (doc_blocks (main_pdf r)) MAIN_CATEGORIES) as [cat1 t1].
  cbn [fst snd].
  destruct (if truthy (config_mac_pdf_url r)
            then update_prices cat1 (rows_of (mac_pdf r)) (doc_blocks (mac_pdf r))
                   MAC_CATEGORIES
            else (cat1, Tally 0 0 [])) as [cat2 t2].
  reflexivity.
Qed.

Lemma matched_le_total_run r :
  (rep_matched (run_report r) <= rep_total (run_report r))%nat.
Proof.
  unfold run_report. cbn [rep_matched rep_total].
  pose proof (matched_le_total (output_catalog r) (rows_of (main_pdf r))
                (doc_blocks (main_pdf r)) MAIN_CATEGORIES) as H1.
  fold (main_pass r) in H1.
  assert (H2 : (matched (mac_pass r).2 <= total (mac_pass r).2)%nat).
  { unfold mac_pass. destruct (truthy (config_mac_pdf_url r)); [apply matched_le_total|done]. }
  lia.
Qed.

(** X13.  The exit code of a run is 0, 1 or 2.  It is 1 exactly when
    [pdfplumber] is missing or the configuration has no [pdf_url], and
    then nothing is written; the report is written in every other case,
    and the catalog exactly when the exit code is 0. *)
Theorem main_exit_codes r :
  (exit_code (main r) = 0 \/ exit_code (main r) = 1 \/ exit_code (main r) = 2)%Z /\
  (exit_code (main r) = 1%Z <->
     pdfplumber_installed r = false \/ truthy (config_pdf_url r) = false) /\
  (is_Some (written_report (main r)) <-> exit_code (main r) <> 1%Z) /\
  (is_Some (written_catalog (main r)) <-> exit_code (main r) = 0%Z).
Proof.
  destruct (pdfplumber_installed r) eqn:Hp.
  - destruct (truthy (config_pdf_url r)) eqn:Hu.
    + rewrite (main_passed r Hp Hu).
      destruct (below _ _ && negb (force r)); cbn [exit_code written_report written_catalog].
      * split; [auto|]. split; [split; [done | by intros [|]]|].
        split; [split; [done | by eexists]|]. split; [by intros [? [=]] | done].
      * split; [auto|]. split; [split; [done | by intros [|]]|].
        split; [split; [done | by eexists]|]. split; [done | by eexists].
    + unfold main. rewrite Hp, Hu. cbn [negb exit_code written_report written_catalog].
      split; [auto|]. split; [split; [auto | done]|].
      split; [split; [by intros [? [=]] | done]|]. split; [by intros [? [=]] | done].
  - unfold main. rewrite Hp. cbn [negb exit_code written_report written_catalog].
    split; [auto|]. split; [split; [auto | done]|].
    split; [split; [by intros [? [=]] | done]|]. split; [by intros [? [=]] | done].
Qed.

Lemma processed_category_id rows text_blocks ids c :
  cat_id (processed_category rows text_blocks ids c) = cat_id c.
Proof. unfold processed_category. by case_bool_decide. Qed.

Lemma processed_category_out rows text_blocks ids c :
  cat_id c ∉ ids -> processed_category rows text_blocks ids c = c.
Proof. intros Hout. unfold processed_category. by rewrite bool_decide_eq_false_2. Qed.

Lemma processed_items_other_pass rows text_blocks cats :
  processed_items MAC_CATEGORIES
    (map (processed_category rows text_blocks MAIN_CATEGORIES) cats)
  = processed_items MAC_CATEGORIES cats.
Proof.
  unfold processed_items. induction cats as [|c cats IH]; [done|].
  cbn [map flat_map]. rewrite IH. f_equal. rewrite processed_category_id.
  case_bool_decide as Hmac; [|done].
  rewrite processed_category_out; [done|].
  intros Hmain. by eapply categories_disjoint.
Qed.

(** The entries of the two passes, from the items of the catalog as it
    was read. *)
Lemma run_entries r :
  let cats := default [] (categories (output_catalog r)) in
  (main_pass r).2
  = tally_of (Tally 0 0 [])
      (map (fun it => (process_item (rows_of (main_pdf r)) (doc_blocks (main_pdf r)) it).2)
         (processed_items MAIN_CATEGORIES cats)) /\
  (mac_pass r).2
  = tally_of (Tally 0 0 [])
      (map (fun it => (process_item (rows_of (mac_pdf r)) (doc_blocks (mac_pdf r)) it).2)
         (if truthy (config_mac_pdf_url r)
          then processed_items MAC_CATEGORIES cats else [])).
Proof.
  intros cats. unfold mac_pass, main_pass. split.
  - by rewrite update_prices_spec.
  - destruct (truthy (config_mac_pdf_url r)); [|done].
    rewrite !update_prices_spec. cbn [fst snd categories].
    subst cats. destruct (categories (output_catalog r)) as [cats|];
      cbn [default from_option id fmap option_fmap option_map]; [|done].
    by rewrite processed_items_other_pass.
Qed.

Lemma filter_all_length {A} (P : A -> Prop) `{!forall x, Decision (P x)} (l : list A) :
  length (filter P l) = length l <-> Forall P l.
Proof.
  induction l as [|x l IH]; [by split|].
  destruct (decide (P x)) as [Hx|Hx].
  - rewrite filter_cons_True by done. cbn [length]. rewrite Forall_cons.
    split; [intros [= E]; split; [done | by apply IH] | intros [_ Hl]; f_equal; by apply IH].
  - rewrite filter_cons_False by done. cbn [length]. rewrite Forall_cons.
    pose proof (length_filter P l). split; [lia | by intros [? _]].
Qed.

Lemma Forall_map_iff {A B} (P : B -> Prop) (f : A -> B) (l : list A) :
  Forall P (map f l) <-> Forall (fun x => P (f x)) l.
Proof.
  induction l as [|x l IH]; cbn [map]; [by split|]. by rewrite !Forall_cons, IH.
Qed.

(** X14.  Without [--force] a run that passes its configuration checks
    writes the catalog exactly when there is at least one item in the
    categories of the two passes and every one of them was updated; a
    run over no item at all stops with code 2.  The report lists the
    entries of these items, pass by pass, with their number as [total]
    and the number of updated ones as [matched]. *)
Theorem main_all_or_nothing r :
  pdfplumber_installed r = true -> truthy (config_pdf_url r) = true ->
  force r = false ->
  let cats := default [] (categories (output_catalog r)) in
  let main_items := processed_items MAIN_CATEGORIES cats in
  let mac_items :=
    if truthy (config_mac_pdf_url r) then processed_items MAC_CATEGORIES cats else [] in
  let entry (d : document) (it : item) := (process_item (rows_of d) (doc_blocks d) it).2 in
  (is_Some (written_catalog (main r)) <->
     main_items ++ mac_items <> [] /\
     Forall (fun it => upd_status (entry (main_pdf r) it) = Updated) main_items /\
     Forall (fun it => upd_status (entry (mac_pdf r) it) = Updated) mac_items) /\
  (main_items ++ mac_items = [] -> exit_code (main r) = 2%Z) /\
  exists rep,
    written_report (main r) = Some rep /\
    rep_main rep = map (entry (main_pdf r)) main_items /\
    rep_mac rep = map (entry (mac_pdf r)) mac_items /\
    rep_total rep = length (main_items ++ mac_items) /\
    rep_matched rep
      = length (filter (fun e => upd_status e = Updated) (rep_main rep ++ rep_mac rep)).
Proof.
  intros Hp Hu Hf cats main_items mac_items entry.
  destruct (run_entries r) as [Hmain Hmac]. fold cats in Hmain, Hmac.
  fold main_items in Hmain. fold mac_items in Hmac.
  change (fun it => (process_item (rows_of (main_pdf r)) (doc_blocks (main_pdf r)) it).2)
    with (entry (main_pdf r)) in Hmain.
  change (fun it => (process_item (rows_of (mac_pdf r)) (doc_blocks (mac_pdf r)) it).2)
    with (entry (mac_pdf r)) in Hmac.
  set (e1 := map (entry (main_pdf r)) main_items) in *.
  set (e2 := map (entry (mac_pdf r)) mac_items) in *.
  set (upd := fun e : update => upd_status e = Updated).
  assert (Hrep : run_report r
                 = Report (length (filter upd e1) + length (filter upd e2))
                     (length e1 + length e2)
                     (ratio_of (length (filter upd e1) + length (filter upd e2))
                               (length e1 + length e2)) e1 e2).
  { unfold run_report. rewrite Hmain, Hmac. reflexivity. }
  rewrite (main_passed r Hp Hu), Hf, Hrep. cbn [negb rep_ratio]. rewrite andb_true_r.
  pose proof (below_ratio (length (filter upd e1) + length (filter upd e2))
                (length e1 + length e2)) as Hb.
  pose proof (length_filter upd e1) as Hle1. pose proof (length_filter upd e2) as Hle2.
  assert (Hlen : length (main_items ++ mac_items) = (length e1 + length e2)%nat).
  { subst e1 e2. by rewrite length_app, !length_map. }
  assert (Hnil : main_items ++ mac_items = [] <-> (length e1 + length e2 = 0)%nat).
  { rewrite <- Hlen. by destruct (main_items ++ mac_items). }
  assert (Hall : (length (filter upd e1) + length (filter upd e2) = length e1 + length e2)%nat
                 <-> Forall (fun it => upd_status (entry (main_pdf r) it) = Updated) main_items
                     /\ Forall (fun it => upd_status (entry (mac_pdf r) it) = Updated) mac_items).
  { split.
    - intros Hsum.
      assert (H1 : length (filter upd e1) = length e1) by lia.
      assert (H2 : length (filter upd e2) = length e2) by lia.
      apply filter_all_length in H1, H2.
      split; [exact (proj1 (Forall_map_iff upd _ _) H1)
             | exact (proj1 (Forall_map_iff upd _ _) H2)].
    - intros [H1 H2].
      pose proof (proj2 (Forall_map_iff upd (entry (main_pdf r)) main_items) H1) as H1'.
      pose proof (proj2 (Forall_map_iff upd (entry (mac_pdf r)) mac_items) H2) as H2'.
      pose proof (proj2 (filter_all_length (fun e : update => upd_status e = Updated) e1)
                    H1') as H1''.
      pose proof (proj2 (filter_all_length (fun e : update => upd_status e = Updated) e2)
                    H2') as H2''.
      fold upd in H1'', H2''. lia. }
  destruct (below _ THRESHOLD) eqn:Hbelow;
    cbn [written_report written_catalog exit_code rep_main rep_mac rep_total rep_matched].
  - destruct (proj1 Hb eq_refl) as [Hz|Hlt].
    + split; [split; [by intros [? [=]] | intros [Hne _]; by apply Hnil in Hz]|].
      split; [done|]. eexists. split; [done|]. split; [done|]. split; [done|].
      split; [done|]. by rewrite filter_app, length_app.
    + split; [split; [by intros [? [=]] | intros [_ Hforall]; apply Hall in Hforall; lia]|].
      split; [done|]. eexists. split; [done|]. split; [done|]. split; [done|].
      split; [done|]. by rewrite filter_app, length_app.
  - assert (Hnot : ~ ((length e1 + length e2 = 0)%nat \/
                      (length (filter upd e1) + length (filter upd e2)
                       < length e1 + length e2)%nat)).
    { intros Hor. apply Hb in Hor. discriminate. }
    split; [split; [intros _ | by eexists]|].
    + split; [intros Hz; apply Hnil in Hz; tauto|]. apply Hall. lia.
    + split; [intros Hz; apply Hnil in Hz; tauto|].
      eexists. split; [done|]. split; [done|]. split; [done|].
      split; [done|]. by rewrite filter_app, length_app.
Qed.

(** X15.  The catalog a run writes carries the date of the day and the
    URLs of the files read.  Each category comes from one pass only: a
    main category is the one of the catalog read after the main pass, the
    mac category is the one of the catalog read after the mac pass, and
    every other category, the mac one included when no mac file is
    configured, is as it was read. *)
Theorem main_written_catalog r c :
  written_catalog (main r) = Some c ->
  lastUpdated c = Some (today r) /\
  sources c = Some (default [] (config_pdf_url r)
                      :: (if truthy (config_mac_pdf_url r)
                          then [default [] (config_mac_pdf_url r)] else [])) /\
  catalog_rest c = catalog_rest (output_catalog r) /\
  categories c =
    map (fun k =>
           if bool_decide (cat_id k ∈ MAIN_CATEGORIES)
           then processed_category (rows_of (main_pdf r)) (doc_blocks (main_pdf r))
                  MAIN_CATEGORIES k
           else if truthy (config_mac_pdf_url r)
           then processed_category (rows_of (mac_pdf r)) (doc_blocks (mac_pdf r))
                  MAC_CATEGORIES k
           else k)
      <$> categories (output_catalog r).
Proof.
  destruct (pdfplumber_installed r) eqn:Hp;
    [|unfold main; rewrite Hp; cbn [negb written_catalog]; intros [=]].
  destruct (truthy (config_pdf_url r)) eqn:Hu;
    [|unfold main; rewrite Hp, Hu; cbn [negb written_catalog]; intros [=]].
  rewrite (main_passed r Hp Hu).
  destruct (below _ _ && negb (force r)); cbn [written_catalog]; intros [= <-].
  cbn [lastUpdated sources catalog_rest categories].
  split; [done|]. split; [done|].
  unfold mac_pass, main_pass.
  destruct (truthy (config_mac_pdf_url r)); rewrite !update_prices_spec;
    cbn [fst categories catalog_rest].
  - split; [done|]. destruct (categories (output_catalog r)) as [cats|]; [|done].
    cbn [fmap option_fmap option_map]. f_equal. rewrite map_map. apply map_ext.
    intros k. case_bool_decide as Hk.
    + apply processed_category_out. rewrite processed_category_id.
      intros Hmac. by eapply categories_disjoint.
    + by rewrite (processed_category_out _ _ MAIN_CATEGORIES k Hk).
  - split; [done|]. destruct (categories (output_catalog r)) as [cats|]; [|done].
    cbn [fmap option_fmap option_map]. f_equal. apply map_ext.
    intros k. case_bool_decide as Hk; [done|]. by apply processed_category_out.
Qed.

(** X16.  No pattern the script compiles is refused: the two price
    patterns, the patterns of [normalize], every alias pattern, and every
    pattern [search_in_text] builds for an item, from its aliases or from
    its display name, whatever that name is. *)
Theorem patterns_always_compile product_id product_name :
  Forall (fun p => is_Some (re_compile p))
    [PRICE_RE; RANGE_RE; u "[^a-z0-9 ]+"; u "\s+"; u "\b([a-z])\s+([a-z])\b"] /\
  Forall (fun p => is_Some (re_compile p)) (default [] (ALIASES !! product_id)) /\
  Forall (fun p => is_Some (re_compile (replace_char 32 (u "\W+") p)))
    (text_patterns product_id product_name).
Proof.
  destruct script_patterns_compile as [Hfixed Halias].
  split; [exact Hfixed|]. unfold text_patterns.
  destruct (ALIASES !! product_id) as [pats|] eqn:E; cbn [from_option id].
  - split.
    + apply Forall_forall. intros p Hp. by apply (Halias product_id pats p E).
    + destruct (nonempty pats).
      * apply Forall_forall. intros p Hp. by apply (Halias product_id pats p E).
      * constructor; [apply escaped_name_compiles | constructor].
  - split; [constructor|]. cbn [nonempty].
    constructor; [apply escaped_name_compiles | constructor].
Qed.

End RunFacts.

(** ** Every match has the shape of its pattern *)

Section Soundness.
Context `{Unicode}.

Lemma advance_cons st c t :
  ms_rest st = c :: t -> ms_rest st = [c] ++ ms_rest (advance st).
Proof. intros E. unfold advance. by rewrite E. Qed.

Lemma iter_star_sound (D : str -> Prop) step fuel :
  sound D step ->
  sound (fun w => exists ws, w = concat ws /\ Forall D ws) (iter_star step fuel).
Proof.
  intros Hstep. induction fuel as [|f IH]; intros st k res; cbn [iter_star].
  - intros Hk. exists st, []. split; [done|]. split; [by exists []|done].
  - destruct (step st _) as [r0|] eqn:E.
    + intros [= ->]. apply Hstep in E as (st1 & w1 & Hw1 & HD & Hk1).
      destruct (_ <? _)%nat; [|done].
      apply IH in Hk1 as (st2 & w2 & Hw2 & (ws & -> & Hws) & Hk2).
      exists st2, (w1 ++ concat ws). split; [by rewrite Hw1, Hw2, app_assoc|].
      split; [|done]. exists (w1 :: ws). split; [done | by constructor].
    + intros Hk. exists st, []. split; [done|]. split; [by exists []|done].
Qed.

Lemma rmatch_sound ic r : sound (lang ic r) (rmatch ic r).
Proof.
  induction r as [|x|negated items| |r1 IH1 r2 IH2|r1 IH1 r2 IH2|r1 IH1|r1 IH1|r1 IH1
                 |n r1 IH1| |r1 IH1]; intros st k res; cbn [rmatch lang].
  - intros Hk. by exists st, [].
  - destruct (ms_rest st) as [|c t] eqn:E; [done|].
    destruct (char_match ic x c) eqn:Ec; [|done].
    intros Hk. exists (advance st), [c]. rewrite <- E.
    split; [by apply advance_cons in E|]. split; [by exists c | done].
  - destruct (ms_rest st) as [|c t] eqn:E; [done|].
    destruct (set_match ic negated items c) eqn:Ec; [|done].
    intros Hk. exists (advance st), [c]. rewrite <- E.
    split; [by apply advance_cons in E|]. split; [by exists c | done].
  - destruct (ms_rest st) as [|c t] eqn:E; [done|].
    destruct (c =? 10) eqn:Ec; [done|].
    intros Hk. exists (advance st), [c]. rewrite <- E.
    split; [by apply advance_cons in E|]. split; [|done].
    exists c. split; [done|]. by apply N.eqb_neq.
  - intros Hm. apply IH1 in Hm as (st1 & w1 & Hw1 & HD1 & Hm).
    apply IH2 in Hm as (st2 & w2 & Hw2 & HD2 & Hk).
    exists st2, (w1 ++ w2). split; [by rewrite Hw1, Hw2, app_assoc|].
    split; [by exists w1, w2 | done].
  - destruct (rmatch ic r1 st k) as [r0|] eqn:E.
    + intros [= ->]. apply IH1 in E as (st1 & w1 & Hw1 & HD1 & Hk).
      exists st1, w1. auto.
    + intros Hm. apply IH2 in Hm as (st1 & w1 & Hw1 & HD1 & Hk).
      exists st1, w1. auto.
  - intros Hm. apply (iter_star_sound (lang ic r1)) in Hm; [done|].
    intros s k'. apply IH1.
  - intros Hm. apply IH1 in Hm as (st1 & w1 & Hw1 & HD1 & Hm).
    apply (iter_star_sound (lang ic r1)) in Hm as (st2 & w2 & Hw2 & (ws & -> & Hws) & Hk);
      [|intros s k'; apply IH1].
    exists st2, (w1 ++ concat ws). split; [by rewrite Hw1, Hw2, app_assoc|].
    split; [by exists w1, ws | done].
  - destruct (rmatch ic r1 st k) as [r0|] eqn:E.
    + intros [= ->]. apply IH1 in E as (st1 & w1 & Hw1 & HD1 & Hk).
      exists st1, w1. auto.
    + intros Hk. exists st, []. auto.
  - intros Hm. apply IH1 in Hm as (st1 & w1 & Hw1 & HD1 & Hk).
    eexists _, w1. split; [|split; [exact HD1 | exact Hk]]. done.
  - destruct (xorb _ _); [|done]. intros Hk. by exists st, [].
  - destruct (rmatch ic r1 st Some); [done|]. intros Hk. by exists st, [].
Qed.

(** What [search] finds is in the language of the pattern. *)
Lemma search_at_sound ic r ma prev s pre m st' :
  search_at ic r ma prev s = Some (pre, m, st') -> lang ic r m.
Proof.
  revert ma prev pre. 
  assert (Hhere : forall s0 prev0 ma0 r0,
    rmatch ic r (MState prev0 s0 [])
      (fun st1 => if ma0 && (length (ms_rest st1) =? length s0)%nat
                  then None else Some st1) = Some r0 ->
    lang ic r (take (length s0 - length (ms_rest r0)) s0)).
  { intros s0 prev0 ma0 r0 E. apply rmatch_sound in E as (st1 & w & Hw & HD & Hk).
    cbn [ms_rest] in Hw. destruct (_ && _); [done|]. injection Hk as ->.
    rewrite Hw, length_app.
    replace (length w + length (ms_rest r0) - length (ms_rest r0))%nat
      with (length w) by lia.
    by rewrite take_app_length. }
  induction s as [|c t IH]; intros ma prev pre; cbn [search_at].
  - destruct (rmatch _ _ _ _) as [r0|] eqn:E; [|done].
    intros [= <- <- <-]. by apply Hhere in E.
  - destruct (rmatch _ _ _ _) as [r0|] eqn:E.
    + intros [= <- <- <-]. by apply Hhere in E.
    + destruct (search_at ic r false (Some c) t) as [[[pre' m'] st1]|] eqn:E1; [|done].
      intros [= <- <- <-]. by eapply IH.
Qed.

Lemma scan_sound ic r fuel ma prev s x :
  x ∈ (scan ic r fuel ma prev s).1 -> lang ic r x.1.2.
Proof.
  revert ma prev s. induction fuel as [|f IH]; intros ma prev s; cbn [scan].
  - by intros ?%elem_of_nil.
  - destruct (search_at _ _ _ _ _) as [[[pre m] st']|] eqn:E; cbn [fst];
      [|by intros ?%elem_of_nil].
    destruct (scan ic r f _ _ _) as [ms tl] eqn:E2. cbn [fst].
    intros [->|Hin]%elem_of_cons; [by eapply search_at_sound|].
    eapply IH. by rewrite E2.
Qed.

Lemma findall_sound pattern s m :
  m ∈ findall pattern s -> exists r, re_compile pattern = Some r /\ lang false r m.
Proof.
  unfold findall. destruct (re_compile pattern) as [r|]; [|by intros ?%elem_of_nil].
  unfold findall_re. intros (x & -> & Hx)%list_elem_of_fmap.
  exists r. split; [done|]. by eapply scan_sound.
Qed.

End Soundness.

(** ** The shape of the tokens *)

Section TokenShapeFacts.
Context `{Unicode}.

Lemma concat_Forall (P : N -> Prop) (ws : list str) :
  Forall (fun w => exists c, w = [c] /\ P c) ws -> Forall P (concat ws).
Proof.
  induction 1 as [|w ws (c & -> & Hc) _ IH]; [constructor|].
  cbn [concat app]. by constructor.
Qed.

Lemma lang_digit_plus w :
  lang false (RPlus (RSet false [CDigit])) w -> digits w.
Proof.
  cbn [lang]. intros (w1 & ws & -> & (c & -> & Hc) & Hws).
  split; [done|]. cbn [app]. constructor.
  - cbn in Hc. by destruct (isdigit c).
  - apply concat_Forall. eapply Forall_impl; [exact Hws|].
    intros w (c' & -> & Hc'). exists c'. split; [done|]. cbn in Hc'. by destruct (isdigit c').
Qed.

Lemma lang_space_star w :
  lang false (RStar (RSet false [CSpace])) w -> blanks w.
Proof.
  cbn [lang]. intros (ws & -> & Hws).
  apply concat_Forall. eapply Forall_impl; [exact Hws|].
  intros w (c' & -> & Hc'). exists c'. split; [done|]. cbn in Hc'. by destruct (isspace c').
Qed.

Lemma lang_char x w : lang false (RChar x) w -> w = [x].
Proof.
  cbn [lang]. intros (c & -> & Hc). unfold char_match in Hc. cbn in Hc.
  rewrite orb_false_r in Hc. by apply N.eqb_eq in Hc as ->.
Qed.

Lemma price_re_compiled :
  re_compile PRICE_RE
  = Some (RCat (RPlus (RSet false [CDigit]))
            (RCat (ROpt (RCat (RSet false [CChar 46; CChar 44])
                           (RPlus (RSet false [CDigit]))))
               (RCat (RStar (RSet false [CSpace])) (RChar 8364)))).
Proof. by vm_compute. Qed.

Lemma range_re_compiled :
  re_compile RANGE_RE
  = Some (RCat (RPlus (RSet false [CDigit]))
            (RCat (RStar (RSet false [CSpace]))
               (RCat (RSet false [CChar 8211; CChar 45])
                  (RCat (RStar (RSet false [CSpace]))
                     (RCat (RPlus (RSet false [CDigit]))
                        (RCat (RStar (RSet false [CSpace])) (RChar 8364))))))).
Proof. by vm_compute. Qed.

Lemma price_match_shape m text : m ∈ findall PRICE_RE text -> single_amount m.
Proof.
  intros (r & Hr & Hl)%findall_sound. rewrite price_re_compiled in Hr.
  injection Hr as <-.
  destruct Hl as (d & w1 & -> & Hd%lang_digit_plus & frac & w2 & -> & Hfrac
                  & sp & e & -> & Hsp%lang_space_star & ->%lang_char).
  exists d, frac, sp. split; [done|]. split; [done|]. split; [|done].
  destruct Hfrac as [->|(s & d2 & -> & (c & -> & Hc) & Hd2%lang_digit_plus)]; [by left|].
  right. exists c, d2. split; [done|]. split; [|done].
  cbn in Hc. destruct (c =? 46) eqn:E1; [left; by apply N.eqb_eq|].
  destruct (c =? 44) eqn:E2; [right; by apply N.eqb_eq|]. done.
Qed.

Lemma range_match_shape m text : m ∈ findall RANGE_RE text -> range_amount m.
Proof.
  intros (r & Hr & Hl)%findall_sound. rewrite range_re_compiled in Hr.
  injection Hr as <-.
  destruct Hl as (d1 & w1 & -> & Hd1%lang_digit_plus & sp1 & w2 & -> & Hsp1%lang_space_star
                  & dash & w3 & -> & (c & -> & Hc) & sp2 & w4 & -> & Hsp2%lang_space_star
                  & d2 & w5 & -> & Hd2%lang_digit_plus
                  & sp3 & e & -> & Hsp3%lang_space_star & ->%lang_char).
  exists d1, sp1, c, sp2, d2, sp3.
  split; [done|]. split; [done|]. split; [done|]. split; [|done].
  cbn in Hc. destruct (c =? 8211) eqn:E1; [left; by apply N.eqb_eq|].
  destruct (c =? 45) eqn:E2; [right; by apply N.eqb_eq|]. done.
Qed.

(** X17.  Every token is a range or a single amount as written in the
    text: digits, the separator and further digits if any, and the euro
    sign at the end, with nothing but whitespace between them.  A token
    is therefore never empty, begins with a digit and ends with the euro
    sign. *)
Theorem find_price_tokens_shapes text :
  Forall (fun tok =>
      (range_amount tok \/ single_amount tok) /\
      (exists c, head tok = Some c /\ isdigit c = true) /\
      last tok = Some 8364)
    (find_price_tokens text).
Proof.
  apply Forall_forall. intros tok Htok.
  assert (Hshape : range_amount tok \/ single_amount tok).
  { destruct (find_price_tokens_shape text) as (singles & E & _ & Hsub & _).
    rewrite E in Htok. apply elem_of_app in Htok as [Hr|Hs].
    - left. by eapply range_match_shape.
    - right. eapply price_match_shape. by eapply elem_of_sublist. }
  split; [done|].
  destruct Hshape as [(d1 & sp1 & dash & sp2 & d2 & sp3 & -> & [Hne Hd] & _)
                     |(d & frac & sp & -> & [Hne Hd] & _)].
  - split.
    + destruct d1 as [|c d1]; [done|]. exists c. split; [done|]. by inversion Hd.
    + rewrite !app_assoc. apply last_snoc.
  - split.
    + destruct d as [|c d]; [done|]. exists c. split; [done|]. by inversion Hd.
    + rewrite !app_assoc. apply last_snoc.
Qed.

End TokenShapeFacts.

(** ** Substitution keeps the characters of the subject *)

Section SubFacts.
Context `{Unicode}.

Lemma chars_ok_advance P st : chars_ok P st -> chars_ok P (advance st).
Proof.
  destruct st as [p rest gs]. intros [Hr Hg]. unfold advance. cbn [ms_rest ms_groups] in *.
  destruct rest as [|c t]; [by split|].
  split; [|done]. cbn [ms_rest]. by apply Forall_cons in Hr as [_ Hr].
Qed.

Lemma iter_star_keeps P step fuel : keeps P step -> keeps P (iter_star step fuel).
Proof.
  intros Hstep. induction fuel as [|f IH]; intros st k res Hok; cbn [iter_star].
  - intros Hk. by exists st.
  - destruct (step st _) as [r0|] eqn:E.
    + intros [= ->]. apply Hstep in E as (st1 & Hok1 & Hk1); [|done].
      destruct (_ <? _)%nat; [|done]. by apply IH in Hk1.
    + intros Hk. by exists st.
Qed.

Lemma rmatch_keeps P ic r : keeps P (rmatch ic r).
Proof.
  induction r as [|x|negated items| |r1 IH1 r2 IH2|r1 IH1 r2 IH2|r1 IH1|r1 IH1|r1 IH1
                 |n r1 IH1| |r1 IH1]; intros st k res Hok; cbn [rmatch].
  - intros Hk. by exists st.
  - destruct (ms_rest st) as [|c t] eqn:E; [done|].
    destruct (char_match _ _ _); [|done]. intros Hk. exists (advance st).
    split; [by apply chars_ok_advance | done].
  - destruct (ms_rest st) as [|c t] eqn:E; [done|].
    destruct (set_match _ _ _ _); [|done]. intros Hk. exists (advance st).
    split; [by apply chars_ok_advance | done].
  - destruct (ms_rest st) as [|c t] eqn:E; [done|].
    destruct (c =? 10); [done|]. intros Hk. exists (advance st).
    split; [by apply chars_ok_advance | done].
  - intros Hm. apply IH1 in Hm as (st1 & Hok1 & Hm); [|done]. by apply IH2 in Hm.
  - destruct (rmatch ic r1 st k) as [r0|] eqn:E.
    + intros [= ->]. by apply IH1 in E.
    + intros Hm. by apply IH2 in Hm.
  - intros Hm. refine (iter_star_keeps P _ _ _ st k res Hok Hm).
    intros s k'. apply IH1.
  - intros Hm. apply IH1 in Hm as (st1 & Hok1 & Hm); [|done].
    refine (iter_star_keeps P _ _ _ st1 k res Hok1 Hm). intros s k'. apply IH1.
  - destruct (rmatch ic r1 st k) as [r0|] eqn:E.
    + intros [= ->]. by apply IH1 in E.
    + intros Hk. by exists st.
  - intros Hm. apply IH1 in Hm as (st1 & [Hr1 Hg1] & Hk); [|done].
    eexists. split; [|exact Hk]. split; [done|]. cbn [ms_groups].
    constructor; [|done]. cbn [snd]. apply Forall_take. by destruct Hok.
  - destruct (xorb _ _); [|done]. intros Hk. by exists st.
  - destruct (rmatch ic r1 st Some); [done|]. intros Hk. by exists st.
Qed.

Lemma search_at_keeps P ic r ma prev s pre m st' :
  Forall P s -> search_at ic r ma prev s = Some (pre, m, st') -> chars_ok P st'.
Proof.
  revert ma prev pre. induction s as [|c t IH]; intros ma prev pre Hs; cbn [search_at].
  - destruct (rmatch _ _ _ _) as [r0|] eqn:E; [|done].
    intros [= <- <- <-]. apply (rmatch_keeps P) in E as (st1 & Hok & Hk); [|by split].
    destruct (_ && _); [done|]. by injection Hk as ->.
  - destruct (rmatch _ _ _ _) as [r0|] eqn:E.
    + intros [= <- <- <-].
      apply (rmatch_keeps P) in E as (st1 & Hok & Hk); [|by split].
      destruct (_ && _); [done|]. by injection Hk as ->.
    + destruct (search_at ic r false (Some c) t) as [[[pre' m'] st1]|] eqn:E1; [|done].
      intros [= <- <- <-]. apply Forall_cons in Hs as [_ Ht]. by eapply IH.
Qed.

(** With the fuel of [scan_all], a property of the result of [scan] is
    shown by following the searches one by one. *)
Lemma scan_adequate ic r
    (Q : bool -> option N -> str -> list (str * str * list (nat * str)) * str -> Prop) :
  (forall ma prev s, search_at ic r ma prev s = None -> Q ma prev s ([], s)) ->
  (forall ma prev s pre m st' ms tail,
     search_at ic r ma prev s = Some (pre, m, st') ->
     Q (bool_decide (m = [])) (ms_prev st') (ms_rest st') (ms, tail) ->
     Q ma prev s ((pre, m, ms_groups st') :: ms, tail)) ->
  forall fuel ma prev s,
    (scan_measure ma s < fuel)%nat -> Q ma prev s (scan ic r fuel ma prev s).
Proof.
  intros Hnone Hsome. induction fuel as [|f IH]; intros ma prev s Hfuel; [lia|].
  cbn [scan]. destruct (search_at ic r ma prev s) as [[[pre m] st']|] eqn:Hs; [|by apply Hnone].
  pose proof (search_at_split _ _ _ _ _ _ _ _ Hs) as Hsplit.
  assert (Hlen : length s = (length pre + length m + length (ms_rest st'))%nat).
  { rewrite Hsplit at 1. rewrite !length_app. lia. }
  assert (Hdec : (scan_measure (bool_decide (m = [])) (ms_rest st')
                  < scan_measure ma s)%nat).
  { unfold scan_measure. case_bool_decide as Hm.
    - destruct ma.
      + apply search_at_advances in Hs. lia.
      + lia.
    - destruct m as [|c m]; [done|]. cbn [length] in Hlen. destruct ma; lia. }
  specialize (IH (bool_decide (m = [])) (ms_prev st') (ms_rest st')).
  destruct (scan ic r f _ _ _) as [ms tail] eqn:E.
  eapply Hsome; [exact Hs|]. apply IH. lia.
Qed.

Lemma group_text_Forall P n gs :
  Forall (fun g : nat * str => Forall P g.2) gs -> Forall P (group_text n gs).
Proof.
  induction 1 as [|[i g] gs Hg _ IH]; cbn [group_text]; [constructor|].
  by destruct (i =? n)%nat.
Qed.

Lemma expand_Forall P tpl gs :
  template_ok P tpl -> Forall (fun g : nat * str => Forall P g.2) gs ->
  Forall P (expand tpl gs).
Proof.
  intros Htpl Hgs. unfold expand. induction Htpl as [|it tpl Hit _ IH]; [constructor|].
  cbn [flat_map]. apply Forall_app. split; [|done].
  destruct it as [c|n]; [by constructor | by apply group_text_Forall].
Qed.

(** Every character of the result of a substitution is a character of
    the subject or a literal character of the replacement. *)
Lemma sub_re_Forall P r tpl s :
  Forall P s -> template_ok P tpl -> Forall P (sub_re r tpl s).
Proof.
  intros Hs Htpl. unfold sub_re, scan_all.
  pose proof (scan_adequate false r
    (fun _ _ s0 res => Forall P s0 ->
       Forall P (flat_map (fun x => x.1.1 ++ expand tpl x.2) res.1 ++ res.2))) as Hscan.
  cbn beta in Hscan.
  specialize (Hscan ltac:(done)).
  assert (Hstep : forall (ma : bool) (prev : option N) (s0 pre m : str) (st' : mstate)
            (ms : list (str * str * list (nat * str))) (tail : str),
            search_at false r ma prev s0 = Some (pre, m, st') ->
            (Forall P (ms_rest st') ->
             Forall P (flat_map (fun x => x.1.1 ++ expand tpl x.2) (ms, tail).1
                        ++ (ms, tail).2)) ->
            Forall P s0 ->
            Forall P (flat_map (fun x => x.1.1 ++ expand tpl x.2)
                        ((pre, m, ms_groups st') :: ms, tail).1
                      ++ ((pre, m, ms_groups st') :: ms, tail).2)).
  { intros ma prev s0 pre m st' ms tail Hsearch IH Hs0.
    pose proof (search_at_keeps P _ _ _ _ _ _ _ _ Hs0 Hsearch) as [Hrest Hgs].
    pose proof (search_at_split _ _ _ _ _ _ _ _ Hsearch) as Hsplit.
    rewrite Hsplit in Hs0. apply Forall_app in Hs0 as [Hpre _].
    cbn [fst snd flat_map]. rewrite <- !app_assoc. apply Forall_app. split; [done|].
    apply Forall_app. split; [by apply expand_Forall|]. by apply IH. }
  specialize (Hscan Hstep (2 * length s + 2)%nat false None s).
  destruct (scan false r (2 * length s + 2) false None s) as [ms tail].
  apply Hscan; [unfold scan_measure; lia | done].
Qed.

Lemma sub_Forall P pattern repl s :
  Forall P s -> template_ok P (parse_template repl) -> Forall P (sub pattern repl s).
Proof.
  intros Hs Htpl. unfold sub. destruct (re_compile pattern); [|done].
  by apply sub_re_Forall.
Qed.

End SubFacts.

(** ** Patterns of the form [[...]+] *)

Section ClassPlus.
Context `{Unicode}.
Variables (negated : bool) (items : list cset_item).

Lemma iter_star_total step fuel st k :
  (forall s, is_Some (k s)) -> is_Some (iter_star step fuel st k).
Proof.
  intros Hk. destruct fuel as [|f]; cbn [iter_star]; [apply Hk|].
  destruct (step st _); [by eexists | apply Hk].
Qed.

(** At a character of the class the pattern matches, at any other
    character and at the end of the subject it does not. *)
Lemma class_plus_here prev s :
  match s with
  | c :: _ =>
      if set_match false negated items c
      then is_Some (rmatch false (RPlus (RSet negated items)) (MState prev s [])
                      (fun st1 => if false && (length (ms_rest st1) =? length s)%nat
                                  then None else Some st1))
      else rmatch false (RPlus (RSet negated items)) (MState prev s [])
             (fun st1 => if false && (length (ms_rest st1) =? length s)%nat
                         then None else Some st1) = None
  | [] => rmatch false (RPlus (RSet negated items)) (MState prev s [])
            (fun st1 => if false && (length (ms_rest st1) =? length s)%nat
                        then None else Some st1) = None
  end.
Proof.
  destruct s as [|c t]; [done|]. cbn [rmatch ms_rest].
  destruct (set_match false negated items c); [|done].
  apply iter_star_total. intros st. by eexists.
Qed.

Lemma class_plus_search prev s :
  match search_at false (RPlus (RSet negated items)) false prev s with
  | Some (pre, m, st') =>
      Forall (fun c => set_match false negated items c = false) pre /\ m <> []
  | None => Forall (fun c => set_match false negated items c = false) s
  end.
Proof.
  revert prev. induction s as [|c t IH]; intros prev.
  - cbn [search_at]. by rewrite (class_plus_here prev []).
  - destruct (search_at false (RPlus (RSet negated items)) false prev (c :: t))
      as [[[pre m] st']|] eqn:Es.
    + split.
      * cbn [search_at] in Es. pose proof (class_plus_here prev (c :: t)) as Hhere.
        cbn beta iota in Hhere. destruct (set_match false negated items c) eqn:Ec.
        -- destruct Hhere as [r0 Hr0]. rewrite Hr0 in Es. injection Es as <- _ _.
           constructor.
        -- rewrite Hhere in Es. specialize (IH (Some c)).
           destruct (search_at false (RPlus (RSet negated items)) false (Some c) t)
             as [[[pre' m'] st1]|]; [|done].
           injection Es as <- _ _. constructor; [done | by destruct IH].
      * apply search_at_sound in Es. cbn [lang] in Es.
        destruct Es as (w1 & ws & -> & (c' & -> & _) & _). done.
    + cbn [search_at] in Es. pose proof (class_plus_here prev (c :: t)) as Hhere.
      cbn beta iota in Hhere. destruct (set_match false negated items c) eqn:Ec.
      * destruct Hhere as [r0 Hr0]. by rewrite Hr0 in Es.
      * rewrite Hhere in Es. specialize (IH (Some c)).
        destruct (search_at false (RPlus (RSet negated items)) false (Some c) t)
          as [[[pre' m'] st1]|]; [done|].
        by constructor.
Qed.

Lemma expand_literals (lits : str) gs : expand (map TLit lits) gs = lits.
Proof.
  unfold expand. induction lits as [|c l IH]; [done|]. cbn [map flat_map app].
  by rewrite IH.
Qed.

(** After the substitution no character of the class is left, unless the
    replacement brings one. *)
Lemma sub_re_class_plus (P : N -> Prop) (lits : str) s :
  (forall c, set_match false negated items c = false -> P c) -> Forall P lits ->
  Forall P (sub_re (RPlus (RSet negated items)) (map TLit lits) s).
Proof.
  intros Hcls Hlits. unfold sub_re, scan_all.
  pose proof (scan_adequate false (RPlus (RSet negated items))
    (fun ma _ _ res => ma = false ->
       Forall P (flat_map (fun x => x.1.1 ++ expand (map TLit lits) x.2) res.1 ++ res.2)))
    as Hscan.
  cbn beta in Hscan.
  assert (Hnone : forall (ma : bool) (prev : option N) (s0 : str),
            search_at false (RPlus (RSet negated items)) ma prev s0 = None -> ma = false ->
            Forall P (flat_map (fun x => x.1.1 ++ expand (map TLit lits) x.2)
                        (@nil (str * str * list (nat * str)), s0).1
                      ++ (@nil (str * str * list (nat * str)), s0).2)).
  { intros ma prev s0 Hs ->. cbn [fst snd flat_map app].
    pose proof (class_plus_search prev s0) as Hc. rewrite Hs in Hc.
    eapply Forall_impl; [exact Hc | exact Hcls]. }
  assert (Hsome : forall (ma : bool) (prev : option N) (s0 pre m : str) (st' : mstate)
            (ms : list (str * str * list (nat * str))) (tail : str),
            search_at false (RPlus (RSet negated items)) ma prev s0 = Some (pre, m, st') ->
            (bool_decide (m = []) = false ->
             Forall P (flat_map (fun x => x.1.1 ++ expand (map TLit lits) x.2) (ms, tail).1
                        ++ (ms, tail).2)) ->
            ma = false ->
            Forall P (flat_map (fun x => x.1.1 ++ expand (map TLit lits) x.2)
                        ((pre, m, ms_groups st') :: ms, tail).1
                      ++ ((pre, m, ms_groups st') :: ms, tail).2)).
  { intros ma prev s0 pre m st' ms tail Hs IH ->.
    pose proof (class_plus_search prev s0) as Hc. rewrite Hs in Hc.
    destruct Hc as [Hpre Hm].
    cbn [fst snd flat_map]. rewrite <- !app_assoc, expand_literals.
    apply Forall_app. split; [eapply Forall_impl; [exact Hpre | exact Hcls]|].
    apply Forall_app. split; [done|]. apply IH. by apply bool_decide_eq_false_2. }
  specialize (Hscan Hnone Hsome (2 * length s + 2)%nat false None s).
  destruct (scan false (RPlus (RSet negated items)) (2 * length s + 2) false None s) as [ms tail].
  apply Hscan; [unfold scan_measure; lia | done].
Qed.

End ClassPlus.

(** ** The alphabet of [normalize] *)

Section NormalizeFacts.
Context `{Unicode}.

Lemma norm_char_space : norm_char 32.
Proof. done. Qed.

Lemma sub_symbols_Forall s : Forall norm_char (sub (u "[^a-z0-9 ]+") (u " ") s).
Proof.
  unfold sub.
  change (re_compile (u "[^a-z0-9 ]+"))
    with (Some (RPlus (RSet true [CRange 97 122; CRange 48 57; CChar 32]))).
  change (parse_template (u " ")) with (map TLit [32]).
  apply sub_re_class_plus; [|by constructor].
  intros c Hc. unfold set_match, variants in Hc. cbn [existsb item_match] in Hc.
  unfold norm_char. rewrite !orb_false_r in Hc. apply negb_false_iff in Hc.
  by rewrite orb_assoc in Hc.
Qed.

Lemma sub_spaces_Forall s :
  Forall norm_char s -> Forall norm_char (sub (u "\s+") (u " ") s).
Proof.
  intros Hs. apply sub_Forall; [done|]. by repeat constructor.
Qed.

Lemma sub_repair_Forall s :
  Forall norm_char s ->
  Forall norm_char (sub (u "\b([a-z])\s+([a-z])\b") (u "\1\2") s).
Proof.
  intros Hs. apply sub_Forall; [done|]. by repeat constructor.
Qed.

Lemma normalize_chars text : Forall norm_char (normalize text).
Proof.
  unfold normalize.
  apply strip_Forall, sub_spaces_Forall, sub_repair_Forall, strip_Forall,
    sub_spaces_Forall, sub_symbols_Forall.
Qed.

(** X18.  Whatever the text, [normalize] returns lower-case ASCII
    letters, ASCII digits and spaces only. *)
Theorem normalize_alphabet text : Forall norm_char (normalize text).
Proof. apply normalize_chars. Qed.

End NormalizeFacts.

(** ** The spacing of [normalize] *)

Section Spacing.
Context `{Unicode}.

Lemma double_space_free s :
  Forall (fun c => c <> 32) s -> double_space s = false.
Proof.
  induction 1 as [|a t Ha Ht IH]; [done|]. cbn [double_space]. rewrite IH, orb_false_r.
  destruct t as [|b t']; [done|]. apply N.eqb_neq in Ha. by rewrite Ha.
Qed.

Lemma double_space_after pre x :
  Forall (fun c => c <> 32) pre -> double_space x = false -> head x <> Some 32 ->
  double_space (pre ++ 32 :: x) = false.
Proof.
  intros Hpre Hx Hh. induction Hpre as [|a t Ha Ht IH].
  - cbn [app double_space]. rewrite Hx, orb_false_r.
    destruct x as [|b x']; [done|]. cbn [head] in Hh.
    destruct (b =? 32) eqn:E; [|by rewrite andb_false_r].
    apply N.eqb_eq in E. by subst b.
  - cbn [app double_space]. rewrite IH, orb_false_r.
    apply N.eqb_neq in Ha. rewrite Ha. by destruct (t ++ 32 :: x).
Qed.

Lemma double_space_app_r a b : double_space (a ++ b) = false -> double_space b = false.
Proof.
  induction a as [|x a IH]; [done|]. cbn [app double_space].
  intros [_ Hab]%orb_false_elim. auto.
Qed.

Lemma double_space_app_l a b : double_space (a ++ b) = false -> double_space a = false.
Proof.
  induction a as [|x a IH]; [done|]. cbn [app double_space].
  intros [Hx Hab]%orb_false_elim. rewrite (IH Hab), orb_false_r.
  destruct a as [|y a']; [done|]. done.
Qed.

Lemma double_space_substring w s :
  substring w s -> double_space s = false -> double_space w = false.
Proof.
  intros (a & b & ->) Hs. by apply double_space_app_r, double_space_app_l in Hs.
Qed.

(** A repetition that is always accepted stops at the first character
    the step refuses. *)
Lemma iter_star_greedy (cls : N -> bool) step fuel st res :
  (forall s k, step s k =
     match ms_rest s with
     | c :: _ => if cls c then k (advance s) else None
     | [] => None
     end) ->
  (length (ms_rest st) <= fuel)%nat ->
  iter_star step fuel st Some = Some res ->
  match ms_rest res with c :: _ => cls c = false | [] => True end.
Proof.
  intros Hstep. revert st. induction fuel as [|f IH]; intros st Hfuel; cbn [iter_star].
  - intros [= <-]. destruct (ms_rest st); [done | cbn in Hfuel; lia].
  - rewrite Hstep. destruct (ms_rest st) as [|c t] eqn:E.
    + intros [= <-]. by rewrite E.
    + destruct (cls c) eqn:Ec.
      * assert (Hadv : ms_rest (advance st) = t) by (unfold advance; by rewrite E).
        rewrite Hadv. cbn [length].
        replace (length t <? S (length t))%nat with true by (symmetry; apply Nat.ltb_lt; lia).
        destruct (iter_star step f (advance st) Some) as [r0|] eqn:Ei.
        -- intros [= <-]. eapply IH; [|exact Ei]. rewrite Hadv. cbn [length] in Hfuel. lia.
        -- destruct (iter_star_total step f (advance st) Some) as [r1 Hr1];
             [by eexists | congruence].
      * intros [= <-]. by rewrite E, Ec.
Qed.

Lemma space_plus_maximal prev s pre m st' :
  search_at false (RPlus (RSet false [CSpace])) false prev s = Some (pre, m, st') ->
  match ms_rest st' with c :: _ => isspace c = false | [] => True end.
Proof.
  assert (Hcls : forall c, set_match false false [CSpace] c = isspace c).
  { intros c. unfold set_match, variants. cbn. by rewrite !orb_false_r. }
  assert (Hhere : forall p s0 r0,
    rmatch false (RPlus (RSet false [CSpace])) (MState p s0 [])
      (fun st1 => if false && (length (ms_rest st1) =? length s0)%nat
                  then None else Some st1) = Some r0 ->
    match ms_rest r0 with c :: _ => isspace c = false | [] => True end).
  { intros p s0 r0. cbn [rmatch ms_rest andb].
    destruct s0 as [|c t]; [done|]. rewrite Hcls. destruct (isspace c); [|done].
    apply (iter_star_greedy isspace); [|done].
    intros s1 k. cbn [rmatch]. destruct (ms_rest s1) as [|c1 t1]; [done|].
    by rewrite Hcls. }
  revert prev pre. induction s as [|c t IH]; intros prev pre; cbn [search_at].
  - destruct (rmatch _ _ _ _) as [r0|] eqn:E; [|done].
    intros [= <- <- <-]. by apply Hhere in E.
  - destruct (rmatch _ _ _ _) as [r0|] eqn:E.
    + intros [= <- <- <-]. by apply Hhere in E.
    + destruct (search_at false _ false (Some c) t) as [[[pre' m'] st1]|] eqn:E1; [|done].
      intros [= <- <- <-]. by eapply IH.
Qed.

Lemma sub_spaces_single s :
  isspace 32 = true ->
  double_space (sub (u "\s+") (u " ") s) = false.
Proof.
  intros H32. unfold sub.
  change (re_compile (u "\s+")) with (Some (RPlus (RSet false [CSpace]))).
  change (parse_template (u " ")) with (map TLit [32]).
  assert (Hcls : forall c, set_match false false [CSpace] c = isspace c).
  { intros c. unfold set_match, variants. cbn. by rewrite !orb_false_r. }
  assert (Hfree : forall l, Forall (fun c => set_match false false [CSpace] c = false) l ->
                            Forall (fun c => c <> 32) l).
  { intros l Hl. eapply Forall_impl; [exact Hl|]. intros c Hc ->.
    rewrite Hcls in Hc. congruence. }
  unfold sub_re, scan_all.
  pose proof (scan_adequate false (RPlus (RSet false [CSpace]))
    (fun ma _ s0 res => ma = false ->
       double_space (flat_map (fun x => x.1.1 ++ expand (map TLit [32]) x.2) res.1
                     ++ res.2) = false /\
       (match s0 with c :: _ => isspace c = false | [] => True end ->
        head (flat_map (fun x => x.1.1 ++ expand (map TLit [32]) x.2) res.1 ++ res.2)
        <> Some 32))) as Hscan.
  cbn beta in Hscan.
  assert (Hnone : forall (ma : bool) (prev : option N) (s0 : str),
    search_at false (RPlus (RSet false [CSpace])) ma prev s0 = None -> ma = false ->
    double_space (flat_map (fun x => x.1.1 ++ expand (map TLit [32]) x.2)
                    (@nil (str * str * list (nat * str)), s0).1
                  ++ (@nil (str * str * list (nat * str)), s0).2) = false /\
    (match s0 with c :: _ => isspace c = false | [] => True end ->
     head (flat_map (fun x => x.1.1 ++ expand (map TLit [32]) x.2)
             (@nil (str * str * list (nat * str)), s0).1
           ++ (@nil (str * str * list (nat * str)), s0).2) <> Some 32)).
  { intros ma prev s0 Hs ->. cbn [fst snd flat_map app].
    pose proof (class_plus_search false [CSpace] prev s0) as Hc. rewrite Hs in Hc.
    apply Hfree in Hc. split; [by apply double_space_free|].
    intros _. destruct Hc as [|c l Hc _]; [done|]. cbn [head]. congruence. }
  assert (Hsome : forall (ma : bool) (prev : option N) (s0 pre m : str) (st' : mstate)
      (ms : list (str * str * list (nat * str))) (tail : str),
    search_at false (RPlus (RSet false [CSpace])) ma prev s0 = Some (pre, m, st') ->
    (bool_decide (m = []) = false ->
     double_space (flat_map (fun x => x.1.1 ++ expand (map TLit [32]) x.2) (ms, tail).1
                   ++ (ms, tail).2) = false /\
     (match ms_rest st' with c :: _ => isspace c = false | [] => True end ->
      head (flat_map (fun x => x.1.1 ++ expand (map TLit [32]) x.2) (ms, tail).1
            ++ (ms, tail).2) <> Some 32)) ->
    ma = false ->
    double_space (flat_map (fun x => x.1.1 ++ expand (map TLit [32]) x.2)
                    ((pre, m, ms_groups st') :: ms, tail).1
                  ++ ((pre, m, ms_groups st') :: ms, tail).2) = false /\
    (match s0 with c :: _ => isspace c = false | [] => True end ->
     head (flat_map (fun x => x.1.1 ++ expand (map TLit [32]) x.2)
             ((pre, m, ms_groups st') :: ms, tail).1
           ++ ((pre, m, ms_groups st') :: ms, tail).2) <> Some 32)).
  { intros ma prev s0 pre m st' ms tail Hs IH ->.
    pose proof (class_plus_search false [CSpace] prev s0) as Hc. rewrite Hs in Hc.
    destruct Hc as [Hpre Hm]. pose proof (Hfree _ Hpre) as Hpre32.
    destruct (IH (bool_decide_eq_false_2 _ Hm)) as [Hd Hh].
    specialize (Hh (space_plus_maximal _ _ _ _ _ Hs)).
    cbn [fst snd flat_map] in *. rewrite <- !app_assoc, expand_literals. cbn [app].
    split; [by apply double_space_after|].
    intros Hs0. destruct pre as [|a pre'].
    - exfalso. pose proof (search_at_split _ _ _ _ _ _ _ _ Hs) as Hsplit.
      pose proof (search_at_sound _ _ _ _ _ _ _ _ Hs) as Hl. cbn [lang] in Hl.
      destruct Hl as (w1 & ws & -> & (c' & -> & Hc') & _).
      rewrite Hsplit in Hs0. cbn [app] in Hs0. rewrite Hcls in Hc'. congruence.
    - cbn [app head]. apply Forall_cons in Hpre32 as [Ha _]. congruence. }
  specialize (Hscan Hnone Hsome (2 * length s + 2)%nat false None s).
  destruct (scan false (RPlus (RSet false [CSpace])) (2 * length s + 2) false None s)
    as [ms tail].
  apply Hscan; [unfold scan_measure; lia | done].
Qed.

(** X19.  Where the space is whitespace for the runtime, the result of
    [normalize] neither starts nor ends with a space and has no two
    spaces in a row: it is a list of words separated by single
    spaces. *)
Theorem normalize_single_spaced text :
  isspace 32 = true ->
  head (normalize text) <> Some 32 /\ last (normalize text) <> Some 32 /\
  double_space (normalize text) = false.
Proof.
  intros H32. unfold normalize. split; [|split].
  - intros Hh. apply strip_head in Hh. congruence.
  - intros Hl. apply strip_last in Hl. congruence.
  - eapply double_space_substring; [apply strip_substring|]. by apply sub_spaces_single.
Qed.

End Spacing.

(** ** Patterns that cannot match *)

Section Requires.
Context `{Unicode}.

Lemma requires_lang ic x r w :
  requires x r = true -> lang ic r w -> exists c, c ∈ w /\ char_match ic x c = true.
Proof.
  revert w. induction r as [|y|negated items| |r1 IH1 r2 IH2|r1 IH1 r2 IH2|r1 IH1|r1 IH1|r1 IH1
                            |n r1 IH1| |r1 IH1]; intros w; cbn [requires lang]; try done.
  - intros ->%N.eqb_eq (c & -> & Hc). exists c. split; [set_solver | done].
  - intros [H1|H2]%orb_true_iff (w1 & w2 & -> & Hw1 & Hw2).
    + destruct (IH1 _ H1 Hw1) as (c & Hc & Hm). exists c. split; [|done].
      apply elem_of_app. by left.
    + destruct (IH2 _ H2 Hw2) as (c & Hc & Hm). exists c. split; [|done].
      apply elem_of_app. by right.
  - intros [H1 H2]%andb_true_iff [Hw|Hw]; [by apply IH1 | by apply IH2].
  - intros H1 (w1 & ws & -> & Hw1 & _).
    destruct (IH1 _ H1 Hw1) as (c & Hc & Hm). exists c. split; [|done].
    apply elem_of_app. by left.
  - apply IH1.
Qed.

Lemma requires_search ic x pattern r s :
  re_compile pattern = Some r -> requires x r = true ->
  is_Some (search pattern ic s) -> exists c, c ∈ s /\ char_match ic x c = true.
Proof.
  intros Hr Hx [res Hres]. unfold search in Hres. rewrite Hr in Hres.
  destruct (search_at ic r false None s) as [[[pre m] st']|] eqn:Hs; [|done].
  pose proof (search_at_split _ _ _ _ _ _ _ _ Hs) as Hsplit.
  pose proof (search_at_sound _ _ _ _ _ _ _ _ Hs) as Hl.
  destruct (requires_lang _ _ _ _ Hx Hl) as (c & Hc & Hm).
  exists c. split; [|done]. rewrite Hsplit. rewrite !elem_of_app. auto.
Qed.

Lemma norm_charb_spec c : norm_charb c = true <-> norm_char c.
Proof. done. Qed.

Lemma row_never_matches pattern r x row :
  re_compile pattern = Some r -> requires x r = true -> norm_charb x = false ->
  row_matches pattern row = false.
Proof.
  intros Hr Hx Hn. unfold row_matches. apply bool_decide_eq_false_2. intros Hs.
  destruct (requires_search _ _ _ _ _ Hr Hx Hs) as (c & Hc & Hm).
  unfold char_match, variants in Hm. cbn [existsb] in Hm. rewrite orb_false_r in Hm.
  apply N.eqb_eq in Hm. subst c.
  pose proof (proj1 (Forall_forall _ _) (normalize_chars _) x Hc) as Hx'.
  apply norm_charb_spec in Hx'. congruence.
Qed.

Lemma first_row_needs_symbol pattern rows :
  needs_symbol pattern = true -> first_row pattern rows = None.
Proof.
  unfold needs_symbol. destruct (re_compile pattern) as [r|] eqn:Hr; [|done].
  intros (x & _ & [Hx Hn]%andb_true_iff)%existsb_exists.
  apply negb_true_iff in Hn.
  induction rows as [|row rows IH]; [done|]. cbn [first_row].
  fold (row_matches pattern row). by rewrite (row_never_matches _ _ _ _ Hr Hx Hn).
Qed.

(** X20.  For a registered product, the alias patterns that need a
    character other than a lower-case letter, a digit or a space (a
    comma, a parenthesis) play no part in the choice of the row: the
    rows are normalized before a pattern is tried, so such a pattern
    selects none. *)
Theorem choose_row_skips_symbol_patterns item_id product_name pats rows :
  ALIASES !! item_id = Some pats ->
  choose_row item_id product_name rows
    = first_pattern (filter (fun p => needs_symbol p = false) pats) rows.
Proof.
  intros Hreg. unfold choose_row. rewrite Hreg. cbn [from_option id].
  rewrite (ALIASES_nonempty _ _ Hreg). clear Hreg.
  induction pats as [|p pats IH]; [done|]. cbn [first_pattern].
  destruct (needs_symbol p) eqn:Ep.
  - rewrite filter_cons_False by (rewrite Ep; discriminate).
    by rewrite (first_row_needs_symbol _ _ Ep).
  - rewrite filter_cons_True by done. cbn [first_pattern]. by rewrite IH.
Qed.

(** ** The pattern built from a display name *)

Lemma requires_fold x rest acc :
  requires x (fold_left (fun acc y => RCat y acc) rest acc)
    = requires x acc || existsb (requires x) rest.
Proof.
  revert acc. induction rest as [|r rest IH]; intros acc; cbn [fold_left existsb].
  - by rewrite orb_false_r.
  - rewrite IH. cbn [requires]. by destruct (requires x r), (requires x acc), (existsb _ rest).
Qed.

Lemma requires_mk_seq x l :
  requires x (mk_seq l) = existsb (requires x) l.
Proof. destruct l as [|r rest]; [done|]. cbn [mk_seq existsb]. apply requires_fold. Qed.

Lemma escaped_items_app a b : escaped_items (a ++ b) = escaped_items a ++ escaped_items b.
Proof. apply flat_map_app. Qed.

(** The pattern compiles to the sequence of its items: every space of
    the name has become a backslash followed by one or more [W]. *)
Lemma parse_escaped_items name st :
  at_top st ->
  parse_from st (replace_char 32 (u "\W+") (re_escape name))
    = Some (mk_alt (mk_seq (rev (escaped_items name) ++ p_seq st) :: p_alts st)).
Proof.
  revert st. induction name as [|c name IH]; intros [m k alts items q outer g] (Hm & Hk & Ho);
    cbn [p_mode p_kind p_outer p_seq p_alts] in *; subst m k outer.
  - done.
  - unfold re_escape. cbn [flat_map]. fold (re_escape name).
    unfold replace_char. rewrite flat_map_app.
    fold (replace_char 32 (u "\W+") (re_escape name)).
    change (c :: name) with ([c] ++ name). rewrite escaped_items_app, rev_app_distr, <- app_assoc.
    destruct (re_special c) eqn:Hs.
    + unfold re_special in Hs. apply existsb_exists in Hs as (x & Hx & Hc).
      apply N.eqb_eq in Hc. subst x.
      repeat (destruct Hx as [<-|Hx];
              [etrans; [apply IH; by repeat split | reflexivity]|]).
      destruct Hx.
    + unfold re_special in Hs. cbn [existsb] in Hs.
      repeat (apply orb_false_elim in Hs as [? Hs]).
      cbn [flat_map app].
      assert (E32 : (c =? 32) = false) by done. rewrite E32. cbn [app].
      cbn [parse_from pstep p_mode]. unfold pstep_normal.
      repeat match goal with
             | Hne : (c =? ?k) = false |- context [c =? ?k] => rewrite Hne
             end.
      cbn [orb]. etrans; [apply IH; by repeat split|].
      unfold escaped_items. cbn [flat_map]. by rewrite E32.
Qed.

Lemma escaped_name_regex name :
  re_compile (replace_char 32 (u "\W+") (re_escape name))
    = Some (mk_seq (rev (escaped_items name))).
Proof.
  unfold re_compile. rewrite parse_escaped_items by (by repeat split).
  cbn [p_seq p_alts mk_alt fold_left]. by rewrite app_nil_r.
Qed.

Lemma escaped_name_requires_backslash name :
  32 ∈ name -> requires 92 (mk_seq (rev (escaped_items name))) = true.
Proof.
  intros Hin. rewrite requires_mk_seq. apply existsb_exists. exists (RChar 92).
  split; [|done]. apply in_rev. rewrite rev_involutive. apply in_flat_map.
  exists 32. split; [by apply list_elem_of_In|]. cbn. by left.
Qed.

(** X21.  For a product without aliases whose name contains a space,
    the search in the page text succeeds only in a block that contains
    a backslash: [re.escape] puts a backslash before the space, and the
    replacement of the space by [\W+] leaves that backslash in front
    of it, so the pattern asks for a backslash followed by the letter
    W.  A block where the name stands verbatim is not found. *)
Theorem search_in_text_escaped_space product_id product_name text_blocks :
  (forall c, 92 ∈ case_variants c -> c = 92) ->
  ALIASES !! product_id = None -> 32 ∈ product_name ->
  Forall (fun block => 92 ∉ block) text_blocks ->
  search_in_text product_id product_name text_blocks = None.
Proof.
  intros Hcase Hreg Hsp Hblocks. unfold search_in_text. rewrite Hreg.
  cbn [from_option id nonempty].
  induction Hblocks as [|block blocks Hb _ IH]; [done|]. cbn [search_blocks search_block].
  destruct (search _ true block) as [[[pre m] after]|] eqn:Hs; [|exact IH].
  exfalso. apply Hb.
  destruct (requires_search true 92 _ _ block (escaped_name_regex product_name)
              (escaped_name_requires_backslash _ Hsp)) as (c & Hc & Hm); [by eexists|].
  unfold char_match, variants in Hm. cbn [existsb] in Hm.
  apply orb_true_iff in Hm as [Hm|Hm].
  - apply N.eqb_eq in Hm. by subst c.
  - apply existsb_exists in Hm as (v & Hv & ->%N.eqb_eq).
    apply list_elem_of_In in Hv. by rewrite (Hcase c Hv) in Hc.
Qed.

End Requires.

(** ** The further properties on samples *)

Lemma extract_text_rows_without_blocks_witness :
  extract_text_blocks blank_pdf = [] /\ extract_text_rows blank_pdf = [].
Proof.
  assert (Hb : extract_text_blocks blank_pdf = []) by (vm_compute; reflexivity).
  split; [exact Hb | exact (extract_text_rows_without_blocks blank_pdf Hb)].
Defined.

Lemma search_in_text_window_witness :
  search_in_text (u "iphone-air") (u "iPhone Air")
    [u "Tarifs AppleCare+"; u "Pour iPhone Air : 229 € ou 11,49 €/mois"]
    = Some (u " : 229 € ou 11,49 €/mois") /\
  (length (u " : 229 € ou 11,49 €/mois") <= 600)%nat /\
  find_price_tokens (u " : 229 € ou 11,49 €/mois") <> [] /\
  exists block pattern pre m after,
    block ∈ [u "Tarifs AppleCare+"; u "Pour iPhone Air : 229 € ou 11,49 €/mois"] /\
    pattern ∈ text_patterns (u "iphone-air") (u "iPhone Air") /\
    search (replace_char 32 (u "\W+") pattern) true block = Some (pre, m, after) /\
    block = pre ++ m ++ after /\ u " : 229 € ou 11,49 €/mois" = take 600 after.
Proof.
  assert (Hw : search_in_text (u "iphone-air") (u "iPhone Air")
                 [u "Tarifs AppleCare+"; u "Pour iPhone Air : 229 € ou 11,49 €/mois"]
               = Some (u " : 229 € ou 11,49 €/mois")) by (vm_compute; reflexivity).
  split; [exact Hw|]. exact (search_in_text_window _ _ _ _ Hw).
Defined.

(** A one-word name is never matched by the scorer, not even by the row
    that carries it. *)
Lemma choose_row_short_name_witness :
  ALIASES !! u "pencil" = None /\
  (length (target_words_of (u "Pencil")) < 2)%nat /\
  choose_row (u "pencil") (u "Pencil") [[u "Pencil"; u "29 €"]] = None.
Proof.
  assert (Hreg : ALIASES !! u "pencil" = None) by (vm_compute; reflexivity).
  assert (Hlen : (length (target_words_of (u "Pencil")) < 2)%nat) by (vm_compute; lia).
  split; [exact Hreg|]. split; [exact Hlen|].
  exact (choose_row_short_name _ _ _ Hreg Hlen).
Defined.

Lemma normalize_single_spaced_witness :
  isspace 32 = true /\
  head (normalize (u "  iPad  (A16) – 11 pouces ")) <> Some 32 /\
  last (normalize (u "  iPad  (A16) – 11 pouces ")) <> Some 32 /\
  double_space (normalize (u "  iPad  (A16) – 11 pouces ")) = false.
Proof.
  split; [reflexivity|]. apply normalize_single_spaced. reflexivity.
Defined.

Lemma update_prices_blank_pdf_witness :
  extract_tables blank_pdf = [] /\ extract_text_blocks blank_pdf = [] /\
  update_prices sample_catalog (rows_of (extract blank_pdf)) (doc_blocks (extract blank_pdf))
    MAIN_CATEGORIES
  = (sample_catalog,
     Tally 0 (length (processed_items MAIN_CATEGORIES (default [] (categories sample_catalog))))
       (map (fun it => Update (get_id it) NoMatch None)
          (processed_items MAIN_CATEGORIES (default [] (categories sample_catalog))))).
Proof.
  assert (Ht : extract_tables blank_pdf = []) by (vm_compute; reflexivity).
  assert (Hb : extract_text_blocks blank_pdf = []) by (vm_compute; reflexivity).
  split; [exact Ht|]. split; [exact Hb|].
  exact (update_prices_blank_pdf sample_catalog blank_pdf MAIN_CATEGORIES Ht Hb).
Defined.

Lemma final_match_row_suffices_witness :
  choose_row (get_id item_pro_max) (get_name item_pro_max) sample_rows
    = Some (u "iPhone 17 Pro Max 269 € 13,49 € 339 € 16,99 €") /\
  (expected_count item_pro_max
     <= length (find_price_tokens (u "iPhone 17 Pro Max 269 € 13,49 € 339 € 16,99 €")))%nat /\
  final_match sample_rows [u "iPhone 17 Pro Max 1 € 2 € 3 € 4 €"] item_pro_max
    = Some (u "iPhone 17 Pro Max 269 € 13,49 € 339 € 16,99 €",
            find_price_tokens (u "iPhone 17 Pro Max 269 € 13,49 € 339 € 16,99 €")).
Proof.
  assert (Hrow : choose_row (get_id item_pro_max) (get_name item_pro_max) sample_rows
                 = Some (u "iPhone 17 Pro Max 269 € 13,49 € 339 € 16,99 €"))
    by (vm_compute; reflexivity).
  assert (Hn : (expected_count item_pro_max
     <= length (find_price_tokens (u "iPhone 17 Pro Max 269 € 13,49 € 339 € 16,99 €")))%nat)
    by (vm_compute; lia).
  split; [exact Hrow|]. split; [exact Hn|].
  apply (final_match_row_suffices _ _ _ _ Hrow); [discriminate | exact Hn].
Defined.

Lemma main_all_or_nothing_witness :
  pdfplumber_installed (sample_run false) = true /\
  truthy (config_pdf_url (sample_run false)) = true /\
  force (sample_run false) = false /\
  let cats := default [] (categories (output_catalog (sample_run false))) in
  let main_items := processed_items MAIN_CATEGORIES cats in
  let mac_items :=
    if truthy (config_mac_pdf_url (sample_run false))
    then processed_items MAC_CATEGORIES cats else [] in
  let entry (d : document) (it : item) := (process_item (rows_of d) (doc_blocks d) it).2 in
  (is_Some (written_catalog (main (sample_run false))) <->
     main_items ++ mac_items <> [] /\
     Forall (fun it => upd_status (entry (main_pdf (sample_run false)) it) = Updated)
       main_items /\
     Forall (fun it => upd_status (entry (mac_pdf (sample_run false)) it) = Updated)
       mac_items) /\
  (main_items ++ mac_items = [] -> exit_code (main (sample_run false)) = 2%Z) /\
  exists rep,
    written_report (main (sample_run false)) = Some rep /\
    rep_main rep = map (entry (main_pdf (sample_run false))) main_items /\
    rep_mac rep = map (entry (mac_pdf (sample_run false))) mac_items /\
    rep_total rep = length (main_items ++ mac_items) /\
    rep_matched rep
      = length (filter (fun e => upd_status e = Updated) (rep_main rep ++ rep_mac rep)).
Proof.
  split; [reflexivity|]. split; [reflexivity|]. split; [reflexivity|].
  apply (main_all_or_nothing (sample_run false)); reflexivity.
Defined.

Lemma main_written_catalog_witness :
  exists c, written_catalog (main (sample_run true)) = Some c /\
    lastUpdated c = Some (today (sample_run true)) /\
    sources c = Some (default [] (config_pdf_url (sample_run true))
                        :: (if truthy (config_mac_pdf_url (sample_run true))
                            then [default [] (config_mac_pdf_url (sample_run true))] else [])) /\
    catalog_rest c = catalog_rest (output_catalog (sample_run true)) /\
    categories c =
      map (fun k =>
             if bool_decide (cat_id k ∈ MAIN_CATEGORIES)
             then processed_category (rows_of (main_pdf (sample_run true)))
                    (doc_blocks (main_pdf (sample_run true))) MAIN_CATEGORIES k
             else if truthy (config_mac_pdf_url (sample_run true))
             then processed_category (rows_of (mac_pdf (sample_run true)))
                    (doc_blocks (mac_pdf (sample_run true))) MAC_CATEGORIES k
             else k)
        <$> categories (output_catalog (sample_run true)).
Proof.
  assert (Hs : is_Some (written_catalog (main (sample_run true))))
    by (vm_compute; eexists; reflexivity).
  destruct Hs as [c Hc]. exists c. split; [exact Hc|].
  exact (main_written_catalog (sample_run true) c Hc).
Defined.

Lemma latin_backslash_caseless c : 92 ∈ latin_case_variants c -> c = 92.
Proof.
  unfold latin_case_variants, in_range. cbv zeta.
  repeat match goal with
         | |- context [if ?b then _ else _] => destruct b eqn:?
         end;
    repeat (rewrite elem_of_cons || rewrite elem_of_app || rewrite elem_of_nil);
    repeat match goal with
           | E : _ = true |- _ => revert E
           | E : _ = false |- _ => revert E
           end;
    repeat (rewrite andb_true_iff || rewrite orb_true_iff || rewrite andb_false_iff
            || rewrite orb_false_iff || rewrite negb_true_iff || rewrite negb_false_iff
            || rewrite N.leb_le || rewrite N.leb_gt || rewrite N.ltb_lt
            || rewrite N.ltb_ge || rewrite N.eqb_eq || rewrite N.eqb_neq);
    lia.
Qed.

(** The name stands in the text as it is, with its price, and is not
    found. *)
Lemma search_in_text_escaped_space_witness :
  ALIASES !! u "apple-pencil-pro" = None /\ 32 ∈ u "Apple Pencil Pro" /\
  Forall (fun block => 92 ∉ block) [u "Apple Pencil Pro 149 €"] /\
  search_in_text (u "apple-pencil-pro") (u "Apple Pencil Pro") [u "Apple Pencil Pro 149 €"]
    = None.
Proof.
  assert (Hreg : ALIASES !! u "apple-pencil-pro" = None) by (vm_compute; reflexivity).
  assert (Hsp : 32 ∈ u "Apple Pencil Pro") by (apply (bool_decide_unpack _); vm_compute; exact I).
  assert (Hb : Forall (fun block : str => 92 ∉ block) [u "Apple Pencil Pro 149 €"])
    by (apply (bool_decide_unpack _); vm_compute; exact I).
  split; [exact Hreg|]. split; [exact Hsp|]. split; [exact Hb|].
  exact (search_in_text_escaped_space _ _ _ latin_backslash_caseless Hreg Hsp Hb).
Defined.

Lemma choose_row_skips_symbol_patterns_witness :
  ALIASES !! u "iphone-17" = Some [u "\biphone 17, 16\b"; u "\biphone 17\b"] /\
  filter (fun p => needs_symbol p = false) [u "\biphone 17, 16\b"; u "\biphone 17\b"]
    = [u "\biphone 17\b"] /\
  choose_row (u "iphone-17") (u "iPhone 17") [[u "iPhone 17, 16"; u "99 €"]]
    = first_pattern
        (filter (fun p => needs_symbol p = false) [u "\biphone 17, 16\b"; u "\biphone 17\b"])
        [[u "iPhone 17, 16"; u "99 €"]].
Proof.
  assert (Hreg : ALIASES !! u "iphone-17" = Some [u "\biphone 17, 16\b"; u "\biphone 17\b"])
    by (vm_compute; reflexivity).
  split; [exact Hreg|]. split; [vm_compute; reflexivity|].
  exact (choose_row_skips_symbol_patterns _ (u "iPhone 17") _ [[u "iPhone 17, 16"; u "99 €"]] Hreg).
Defined.

(** The alias patterns that select no row: five patterns, in the
    entries of eight products. *)
Lemma alias_patterns_needing_symbol item_id pats p :
  ALIASES !! item_id = Some pats -> p ∈ pats ->
  needs_symbol p = true <->
  p ∈ [u "\biphone 17, 16\b"; u "\bipad, ipad mini\b"; u "\bipad \(a16\)\b";
       u "\bipad mini \(a17 pro\)\b"; u "\bairpods, airpods pro\b.*\b2e\b"].
Proof.
  intros Hl%elem_of_map_to_list Hp.
  assert (Hall : Forall (fun e : str * list str =>
            Forall (fun p => needs_symbol p = true <->
              p ∈ [u "\biphone 17, 16\b"; u "\bipad, ipad mini\b"; u "\bipad \(a16\)\b";
                   u "\bipad mini \(a17 pro\)\b"; u "\bairpods, airpods pro\b.*\b2e\b"]) e.2)
          (map_to_list ALIASES)).
  { apply (bool_decide_unpack _). by vm_compute. }
  pose proof (proj1 (Forall_forall _ _) Hall (item_id, pats) Hl) as Hpats.
  by apply (proj1 (Forall_forall _ _) Hpats p).
Qed.
